(** * MessengerApp chat server: chat room and chat session

    A shallow embedding of [src/server/main.cpp] (classes [Users],
    [ChatRoom] and [ChatSession]) and the properties of its broadcast
    core: bounded history, fan-out, replay on join, the per-session
    outbound queue, the reader and writer coroutines and teardown.

    Sessions are heap objects held through [std::shared_ptr]; the room
    stores the pointers in a [std::set].  A pointer is modelled by its
    address, the heap by a finite map from addresses to session objects. *)

From Stdlib Require Import Ascii.
From stdpp Require Import gmap strings list.

(** ** Basic data *)

(** The address of a [Users] object (a [std::shared_ptr<Users>] compared by
    the address it holds). *)
Definition ptr := nat.

(** One virtual call [user->deliver(msg)] made through the [Users]
    interface: the receiver and the argument. *)
Definition call : Type := ptr * string.

(** The line terminator, the character '\n'. *)
Definition LF : ascii := "010"%char.
Definition nl : string := String LF EmptyString.

(** [boost::system::error_code] values that the program can observe. *)
Inductive error_code :=
| eof                      (* boost::asio::error::eof *)
| not_found                (* boost::asio::error::not_found *)
| operation_aborted        (* boost::asio::error::operation_aborted *)
| os_error (value : nat).  (* any other system error *)

(** Exceptions that reach the handlers of [reader] and [writer]. *)
Inductive exn :=
| system_error (ec : error_code)   (* boost::system::system_error *)
| std_exception.                   (* any other std::exception *)

(** Lines printed on [std::cout] and [std::cerr]. *)
Inductive line :=
| CancelError (ec : error_code)     (* "Cancel error: " << ec.message() *)
| NumCancelled (num_cancelled : nat)
                                    (* "Number of cancelled operations: " << num_cancelled *)
| AsyncReadError (e : error_code).  (* "Async read error: " << e.what() *)

(** ** The objects *)

(** [class ChatRoom]: [users_] is a [std::set] of pointers,
    [recent_message_] a [std::deque] whose front is the head of the list. *)
Record ChatRoom := mkChatRoom {
  users_ : gset ptr;
  recent_message_ : list string
}.

(** [tcp::socket], as far as the session uses it: whether it is open, and
    the buffers that completed [async_write] operations have put on the
    connection, oldest first. *)
Record tcp_socket := mkSocket {
  is_open : bool;
  sent : list string
}.

(** [class ChatSession].  [timer_] is the [steady_timer] that never expires
    ([expires_at(time_point::max())]); all that matters of it is the number
    of [async_wait] operations pending on it.  [room_] is a reference to the
    one room of the listener and is the [room] of the [World] below. *)
Record ChatSession := mkChatSession {
  socket_ : tcp_socket;
  timer_ : nat;
  write_message_ : list string;
  username_ : string
}.

(** The room, the sessions alive on the heap, and the two output streams. *)
Record World := mkWorld {
  room : ChatRoom;
  heap : gmap ptr ChatSession;
  cout : list line;
  cerr : list line
}.

Definition set_room (r : ChatRoom) (w : World) : World :=
  {| room := r; heap := heap w; cout := cout w; cerr := cerr w |}.
Definition set_heap (h : gmap ptr ChatSession) (w : World) : World :=
  {| room := room w; heap := h; cout := cout w; cerr := cerr w |}.
Definition print_cout (ls : list line) (w : World) : World :=
  {| room := room w; heap := heap w; cout := cout w ++ ls; cerr := cerr w |}.
Definition print_cerr (ls : list line) (w : World) : World :=
  {| room := room w; heap := heap w; cout := cout w; cerr := cerr w ++ ls |}.

(** ** Lines of a byte stream *)

(** The bytes up to and including the first terminator, and the bytes after
    it; [None] when there is no terminator. *)
Fixpoint first_line (s : string) : option (string * string) :=
  match s with
  | EmptyString => None
  | String c s' =>
      if Ascii.eqb c LF then Some (String c EmptyString, s')
      else match first_line s' with
           | Some (l, rest) => Some (String c l, rest)
           | None => None
           end
  end.

(** All terminated lines of [s], each with its terminator, in order, and the
    unterminated remainder; [cur] holds the bytes of the line under way. *)
Fixpoint lines_from (cur s : string) : list string * string :=
  match s with
  | EmptyString => ([], cur)
  | String c s' =>
      if Ascii.eqb c LF then
        let '(ls, rest) := lines_from EmptyString s' in
        ((cur +:+ String c EmptyString) :: ls, rest)
      else lines_from (cur +:+ String c EmptyString) s'
  end.

Definition lines (s : string) : list string * string := lines_from EmptyString s.

(** The concatenation of the chunks a sequence of reads returns. *)
Fixpoint stream (chunks : list string) : string :=
  match chunks with
  | [] => EmptyString
  | c :: cs => c +:+ stream cs
  end.

(** ** class ChatRoom *)

Module Room.

(** [const int max_recent_ = 10;] *)
Definition max_recent_ : nat := 10.

(** [ChatRoom() = default;] *)
Definition init : ChatRoom := {| users_ := ∅; recent_message_ := [] |}.

(** [while (recent_message_.size() > max_recent_) recent_message_.pop_front();] *)
Fixpoint pop_excess (q : list string) : list string :=
  match q with
  | [] => []
  | _ :: q' => if max_recent_ <? length q then pop_excess q' else q
  end.

(** [join]: insert the pointer, then call [new_user->deliver(message)] for
    every stored message, front to back.  The calls are returned in the
    order they are made. *)
Definition join (new_user : ptr) (r : ChatRoom) : ChatRoom * list call :=
  ({| users_ := {[new_user]} ∪ users_ r;
      recent_message_ := recent_message_ r |},
   map (fun message => (new_user, message)) (recent_message_ r)).

(** [leave]: [users_.erase(remove_user)]. *)
Definition leave (remove_user : ptr) (r : ChatRoom) : ChatRoom :=
  {| users_ := users_ r ∖ {[remove_user]};
     recent_message_ := recent_message_ r |}.

(** [deliver]: [emplace_back], drop from the front while the deque holds
    more than [max_recent_] entries, then call [user->deliver(message)]
    for every element of [users_] in the set's iteration order. *)
Definition deliver (message : string) (r : ChatRoom) : ChatRoom * list call :=
  ({| users_ := users_ r;
      recent_message_ := pop_excess (recent_message_ r ++ [message]) |},
   map (fun user => (user, message)) (elements (users_ r))).

(** A sequence of [deliver] calls, first message first; the calls made on
    the members are concatenated in order. *)
Fixpoint deliver_all (messages : list string) (r : ChatRoom)
  : ChatRoom * list call :=
  match messages with
  | [] => (r, [])
  | m :: ms =>
      let '(r1, c1) := deliver m r in
      let '(r2, c2) := deliver_all ms r1 in
      (r2, c1 ++ c2)
  end.

(** The public operations of the class, to speak of "every operation". *)
Inductive op :=
| Join (u : ptr)
| Leave (u : ptr)
| Deliver (message : string).

Definition apply (o : op) (r : ChatRoom) : ChatRoom :=
  match o with
  | Join u => (join u r).1
  | Leave u => leave u r
  | Deliver m => (deliver m r).1
  end.

End Room.

(** ** class ChatSession *)

Module Session.

(** The constructor: the socket handed over by the listener is open, the
    timer has no waiter, the queue is empty. *)
Definition new (username : string) : ChatSession :=
  {| socket_ := {| is_open := true; sent := [] |};
     timer_ := 0;
     write_message_ := [];
     username_ := username |}.

(** [timer_.cancel_one(ec)] of Boost.Asio: completes the oldest pending
    wait, if there is one, and returns how many it completed; it always
    clears [ec]. *)
Definition cancel_one (timer : nat) : nat * nat * option error_code :=
  match timer with
  | 0 => (0, 0, None)
  | S pending => (pending, 1, None)
  end.

(** [cancel]: the session after the call and the line it prints. *)
Definition cancel (s : ChatSession) : ChatSession * list line :=
  let '(timer, num_cancelled, ec) := cancel_one (timer_ s) in
  ({| socket_ := socket_ s; timer_ := timer;
      write_message_ := write_message_ s; username_ := username_ s |},
   match ec with
   | Some e => [CancelError e]
   | None => [NumCancelled num_cancelled]
   end).

(** [deliver]: [write_message_.push_back(message); cancel();] *)
Definition deliver (message : string) (s : ChatSession)
  : ChatSession * list line :=
  cancel {| socket_ := socket_ s; timer_ := timer_ s;
            write_message_ := write_message_ s ++ [message];
            username_ := username_ s |}.

(** The virtual call [user->deliver(msg)]: [ChatSession] is the only class
    derived from [Users].  A pointer held by the room or by a coroutine
    keeps its object alive, so the lookup succeeds in every state the
    program reaches; elsewhere the call does nothing. *)
Definition Users_deliver (user : ptr) (msg : string) (w : World) : World :=
  match heap w !! user with
  | Some s =>
      let '(s', out) := deliver msg s in
      print_cout out (set_heap (<[user := s']> (heap w)) w)
  | None => w
  end.

(** The calls a room operation makes, run in order. *)
Definition dispatch (calls : list call) (w : World) : World :=
  foldl (fun w c => Users_deliver c.1 c.2 w) w calls.

(** The calls of a list that go to [user], and a session object after
    several calls of its [deliver]. *)
Definition calls_on (user : ptr) (calls : list call) : list call :=
  filter (fun c => c.1 = user) calls.
Definition deliver_each (msgs : list string) (s : ChatSession) : ChatSession :=
  foldl (fun s msg => (deliver msg s).1) s msgs.

(** [room_.join(p)], [room_.leave(p)] and [room_.deliver(msg)] on the room
    of this world. *)
Definition room_join (p : ptr) (w : World) : World :=
  let '(r, calls) := Room.join p (room w) in dispatch calls (set_room r w).
Definition room_leave (p : ptr) (w : World) : World :=
  set_room (Room.leave p (room w)) w.
Definition room_deliver (msg : string) (w : World) : World :=
  let '(r, calls) := Room.deliver msg (room w) in dispatch calls (set_room r w).

(** [start]: join the room, enqueue the welcome line for this session; the
    two [co_spawn] calls create the reader and the writer in the states
    [reader_spawned] and [writer_spawned] below. *)
Definition start (self : ptr) (w : World) : World :=
  let w1 := room_join self w in
  match heap w1 !! self with
  | Some s =>
      Users_deliver self ("Welcome to the chat, " +:+ username_ s +:+ "!") w1
  | None => w1
  end.

(** [socket_.close(); timer_.cancel();] on the session object: closing a
    closed socket and cancelling a timer without waiters succeed and
    change nothing. *)
Definition close_and_cancel (s : ChatSession) : ChatSession :=
  {| socket_ := {| is_open := false; sent := sent (socket_ s) |};
     timer_ := 0;
     write_message_ := write_message_ s;
     username_ := username_ s |}.

(** [stop]: [room_.leave(shared_from_this()); socket_.close(); timer_.cancel();] *)
Definition stop (self : ptr) (w : World) : World :=
  let w1 := room_leave self w in
  set_heap (alter close_and_cancel self (heap w1)) w1.

(** *** The reader coroutine *)

(** The second argument of [dynamic_buffer(read_message, 1024)]. *)
Definition max_size : nat := 1024.

(** [read_message.substr(0, n)] and [read_message.erase(0, n)]. *)
Definition substr (s : string) (pos n : nat) : string := String.substring pos n s.
Definition erase (s : string) (pos n : nat) : string :=
  String.substring 0 pos s
  +:+ String.substring (pos + n) (String.length s - (pos + n)) s.

(** [boost::asio::async_read_until(socket_, dynamic_buffer(read_message,
    1024), "\n", ...)] on the bytes the buffer holds: the operation
    completes with the number of bytes up to and including the first
    delimiter when the buffer contains one; it fails with [not_found]
    when the buffer has reached its maximum size without one; otherwise
    it reads more from the socket and looks again. *)
Inductive read_until_result :=
| Match (n : nat)
| NotFound
| NeedMore.

Definition read_until (read_message : string) : read_until_result :=
  match String.index 0 nl read_message with
  | Some pos => Match (pos + String.length nl)
  | None =>
      if String.length read_message =? max_size then NotFound else NeedMore
  end.

(** What a read on the socket gives the pending [async_read_until]: some
    bytes, or an error (end of file, a reset, the abort that follows
    [socket_.close()]). *)
Inductive read_event :=
| Data (bytes : string)
| ReadFailed (ec : error_code).

(** A read returns at least one byte and never more than the room left in
    the dynamic buffer. *)
Definition can_read (read_message bytes : string) : bool :=
  (0 <? String.length bytes)
  && (String.length bytes <=? max_size - String.length read_message).

(** The coroutine is suspended in [async_read_until] with the local
    [read_message] as shown, or it has returned. *)
Inductive reader_state :=
| Reading (read_message : string)
| ReaderDone.

(** The state [co_spawn] leaves the reader in: the buffer is empty, the
    first read is pending. *)
Definition reader_spawned : reader_state := Reading EmptyString.

(** The two handlers of [reader]: both call [stop()], the first one after
    printing the error. *)
Definition reader_catch (e : exn) (self : ptr) (w : World) : World :=
  match e with
  | system_error ec => stop self (print_cerr [AsyncReadError ec] w)
  | std_exception => stop self w
  end.

(** The [while(true)] loop of [reader], from a completed or newly started
    [async_read_until] to the next suspension on the socket.  An
    [async_read_until] that finds a terminator among the bytes already
    buffered completes without reading; these turns are run back to back.
    Every turn removes at least one byte from [read_message]; [fuel] bounds
    the turns, and any fuel above the length of the buffer is enough
    ([reader_loop_lines] below). *)
Fixpoint reader_loop (fuel : nat) (self : ptr) (read_message : string)
    (w : World) : option (reader_state * World) :=
  match fuel with
  | 0 => None
  | S fuel' =>
      match read_until read_message with
      | Match n =>
          let w1 := room_deliver (substr read_message 0 n) w in
          reader_loop fuel' self (erase read_message 0 n) w1
      | NotFound =>
          Some (ReaderDone, reader_catch (system_error not_found) self w)
      | NeedMore => Some (Reading read_message, w)
      end
  end.

(** The lines [ls] handed to [room_.deliver] one after the other, and
    where the loop stops once the buffer holds no terminator. *)
Definition forward (ls : list string) (w : World) : World :=
  foldl (fun w l => room_deliver l w) w ls.
Definition settle (self : ptr) (rest : string) (w : World)
  : reader_state * World :=
  if String.length rest =? max_size
  then (ReaderDone, reader_catch (system_error not_found) self w)
  else (Reading rest, w).

(** [reader] resumed by what the socket gives.  [None]: the event cannot
    happen in that state. *)
Definition reader (self : ptr) (st : reader_state) (ev : read_event)
    (w : World) : option (reader_state * World) :=
  match st, ev with
  | Reading read_message, Data bytes =>
      if can_read read_message bytes then
        let read_message' := read_message +:+ bytes in
        reader_loop (S (String.length read_message')) self read_message' w
      else None
  | Reading _, ReadFailed ec =>
      Some (ReaderDone, reader_catch (system_error ec) self w)
  | ReaderDone, _ => None
  end.

(** The reader over a sequence of socket events. *)
Fixpoint reader_run (self : ptr) (script : list read_event)
    (st : reader_state) (w : World) : option (reader_state * World) :=
  match script with
  | [] => Some (st, w)
  | ev :: script' =>
      match reader self st ev w with
      | Some (st', w') => reader_run self script' st' w'
      | None => None
      end
  end.

(** *** The writer coroutine *)

(** Where the coroutine is: about to test the loop condition, suspended
    in [async_write] of [buffer], suspended in [timer_.async_wait], or
    returned. *)
Inductive writer_state :=
| AtLoop
| Writing (buffer : string)
| Waiting
| WriterDone.

Definition writer_spawned : writer_state := AtLoop.

(** What resumes it: the scheduler after [co_spawn], the end of the
    write (with the error, if any), the end of the wait.  The timer never
    expires, so a wait ends only by [cancel_one] or [cancel];
    [redirect_error] drops the error code. *)
Inductive writer_event :=
| Scheduled
| WriteCompleted (ec : option error_code)
| WaitCompleted.

Definition set_timer (n : nat) (s : ChatSession) : ChatSession :=
  {| socket_ := socket_ s; timer_ := n;
     write_message_ := write_message_ s; username_ := username_ s |}.

(** The end of a successful [async_write] followed by
    [write_message_.pop_front()]. *)
Definition written (buffer : string) (s : ChatSession) : ChatSession :=
  {| socket_ := {| is_open := is_open (socket_ s);
                   sent := sent (socket_ s) ++ [buffer] |};
     timer_ := timer_ s;
     write_message_ := tail (write_message_ s);
     username_ := username_ s |}.

(** From the test of [socket_.is_open()] to the next suspension. *)
Definition writer_loop (self : ptr) (w : World)
  : option (writer_state * World) :=
  match heap w !! self with
  | Some s =>
      if is_open (socket_ s) then
        match write_message_ s with
        | front :: _ => Some (Writing (front +:+ nl), w)
        | [] =>
            Some (Waiting,
                  set_heap (<[self := set_timer (S (timer_ s)) s]> (heap w)) w)
        end
      else Some (WriterDone, w)
  | None => None
  end.

(** [writer] resumed by an event.  A failed write throws, and the handler
    calls [stop()].  The wait of a suspended writer is over when it is no
    longer pending on the timer. *)
Definition writer (self : ptr) (st : writer_state) (ev : writer_event)
    (w : World) : option (writer_state * World) :=
  match st, ev with
  | AtLoop, Scheduled => writer_loop self w
  | Writing buffer, WriteCompleted None =>
      match heap w !! self with
      | Some s =>
          writer_loop self (set_heap (<[self := written buffer s]> (heap w)) w)
      | None => None
      end
  | Writing _, WriteCompleted (Some _) => Some (WriterDone, stop self w)
  | Waiting, WaitCompleted =>
      match heap w !! self with
      | Some s => if timer_ s =? 0 then writer_loop self w else None
      | None => None
      end
  | _, _ => None
  end.

(** *** One session over time *)

(** What happens to one session after [start]: calls of its [deliver]
    (from the room or from [start]), of [cancel], of [stop] by its
    reader, and resumptions of its writer. *)
Inductive event :=
| Deliver (msg : string)
| Cancel
| Stop
| Writer (ev : writer_event).

Definition call_cancel (self : ptr) (w : World) : World :=
  match heap w !! self with
  | Some s =>
      let '(s', out) := cancel s in
      print_cout out (set_heap (<[self := s']> (heap w)) w)
  | None => w
  end.

Definition step (self : ptr) (e : event) (c : writer_state * World)
  : option (writer_state * World) :=
  match e with
  | Deliver msg => Some (c.1, Users_deliver self msg c.2)
  | Cancel => Some (c.1, call_cancel self c.2)
  | Stop => Some (c.1, stop self c.2)
  | Writer ev => writer self c.1 ev c.2
  end.

Fixpoint run (self : ptr) (es : list event) (c : writer_state * World)
  : option (writer_state * World) :=
  match es with
  | [] => Some c
  | e :: es' =>
      match step self e c with
      | Some c' => run self es' c'
      | None => None
      end
  end.

(** The messages enqueued by a sequence of events, in order. *)
Definition enqueued (es : list event) : list string :=
  omap (fun e => match e with Deliver msg => Some msg | _ => None end) es.

(** A message as the writer puts it on the connection:
    [write_message_.front() + '\n']. *)
Definition on_wire (msg : string) : string := msg +:+ nl.

(** What holds of a session and its writer after any sequence of events
    that enqueued [enq] since the session was created: the connection has
    carried a prefix of [enq] and the queue holds the rest; at most one
    wait is pending on the timer, and only while the writer is suspended
    on it; a writer whose wait is still pending has an empty queue; a
    writer suspended in a write is sending the front of the queue. *)
Definition consistent (enq : list string) (st : writer_state)
    (s : ChatSession) : Prop :=
  sent (socket_ s) ++ map on_wire (write_message_ s) = map on_wire enq
  ∧ timer_ s ≤ 1
  ∧ (st ≠ Waiting → timer_ s = 0)
  ∧ (st = Waiting → timer_ s = 1 → write_message_ s = [])
  ∧ (∀ buffer, st = Writing buffer →
       ∃ front rest, write_message_ s = front :: rest ∧ buffer = on_wire front).

End Session.

(** ** A small scenario *)

(** Two sessions on the heap, as the listener creates them, in a world with
    an empty room; used to run the definitions on concrete inputs. *)
Module Scenario.

Definition ann : ptr := 1.
Definition bob : ptr := 2.

Definition created : World :=
  {| room := Room.init;
     heap := <[ann := Session.new "ann"]> (<[bob := Session.new "bob"]> ∅);
     cout := [];
     cerr := [] |}.

(** Both sessions started, [ann] first. *)
Definition started : World := Session.start bob (Session.start ann created).

(** 1024 bytes without a terminator. *)
Definition long_line : string :=
  String.string_of_list_ascii (repeat "a"%char 1024).

End Scenario.

(** ** Sequences of room operations *)

(** The messages delivered by a sequence of operations of the room, and the
    operations among them that act on the set of members. *)
Definition delivered_by (ops : list Room.op) : list string :=
  omap (fun o => match o with Room.Deliver m => Some m | _ => None end) ops.
Definition membership_of (ops : list Room.op) : list Room.op :=
  omap (fun o => match o with Room.Deliver _ => None | _ => Some o end) ops.
Definition run_ops (ops : list Room.op) (r : ChatRoom) : ChatRoom :=
  foldl (fun r o => Room.apply o r) r ops.

(** ** The listener and the server as a whole *)

Module Listener.

(** [std::getline(is, username)]: the characters before the first '\n',
    which is extracted and dropped; all characters when there is none. *)
Fixpoint getline (s : string) : string :=
  match s with
  | EmptyString => EmptyString
  | String c s' => if Ascii.eqb c LF then EmptyString else String c (getline s')
  end.

(** [co_await async_read_until(socket, buf, "\n", use_awaitable)] on the
    [streambuf] of the listener, which has no size limit: the operation
    completes as soon as the buffer holds a terminator, reading from the
    socket while it does not.  With [use_awaitable] a failed read throws;
    nothing in [listener] catches it and [ec] is never assigned. *)
Inductive handshake :=
| Line (buf : string) (rest : list Session.read_event)
| Threw (ec : error_code)
| Incomplete (buf : string).

Fixpoint read_handshake (buf : string) (script : list Session.read_event)
  : handshake :=
  match String.index 0 nl buf with
  | Some _ => Line buf script
  | None =>
      match script with
      | [] => Incomplete buf
      | Session.Data bytes :: script' => read_handshake (buf +:+ bytes) script'
      | Session.ReadFailed ec :: _ => Threw ec
      end
  end.

End Listener.

Module Server.

(** One listener with its room: the world, the two coroutines of every
    session, and whether the listener coroutine is still running.
    [ChatRoom room] is a local variable of [listener], and every session
    holds a reference to it ([ChatRoom& room_]): the room of [world] exists
    while [listening] is [true], and is destroyed when an exception leaves
    [listener]. *)
Record t := mk {
  world : World;
  readers : gmap ptr Session.reader_state;
  writers : gmap ptr Session.writer_state;
  listening : bool
}.

(** [ChatRoom room;] at the start of [listener]. *)
Definition init : t :=
  {| world := {| room := Room.init; heap := ∅; cout := []; cerr := [] |};
     readers := ∅;
     writers := ∅;
     listening := true |}.

(** [std::make_shared<ChatSession>(std::move(socket), room,
    std::move(username))->start();] the new object gets an address that no
    live session has. *)
Definition connect (username : string) (sv : t) : t :=
  let p := fresh (dom (heap (world sv))) in
  let w := set_heap (<[p := Session.new username]> (heap (world sv))) (world sv) in
  {| world := Session.start p w;
     readers := <[p := Session.reader_spawned]> (readers sv);
     writers := <[p := Session.writer_spawned]> (writers sv);
     listening := listening sv |}.

(** An exception leaves [listener]: the coroutine ends and its local
    [room] is destroyed, while the sessions keep their reference [room_]
    to it.  The record keeps the last value of the room, which nothing may
    use any more (see [use_after_free]). *)
Definition unwind (sv : t) : t :=
  {| world := world sv; readers := readers sv; writers := writers sv;
     listening := false |}.

(** One turn of the loop of [listener] for an accepted connection whose
    socket gives [script]: read the first line, take the username out of
    the buffer with [getline], create and start the session.  The buffer,
    with whatever followed the first line in it, is destroyed at the end of
    the turn.  A read that fails ends the coroutine, and with it the room
    (see [use_after_free]).  [None]: the listener is not running, or the
    script ends before the line does. *)
Definition accept (script : list Session.read_event) (sv : t) : option t :=
  if listening sv then
    match Listener.read_handshake EmptyString script with
    | Listener.Line buf _ => Some (connect (Listener.getline buf) sv)
    | Listener.Threw _ => Some (unwind sv)
    | Listener.Incomplete _ => None
    end
  else None.

(** What the scheduler runs: a turn of the listener, a resumption of the
    reader of [p], a resumption of the writer of [p]. *)
Inductive action :=
| Accept (script : list Session.read_event)
| Read (p : ptr) (ev : Session.read_event)
| Write (p : ptr) (ev : Session.writer_event).

(** Whether a resumption of [reader] or [writer] gets to [room_.deliver]
    or to [stop()], which calls [room_.leave]. *)
Definition reader_uses_room (st : Session.reader_state)
    (ev : Session.read_event) : bool :=
  match st, ev with
  | Session.Reading read_message, Session.Data bytes =>
      match Session.read_until (read_message +:+ bytes) with
      | Session.Match _ => true      (* room_.deliver(...) *)
      | Session.NotFound => true     (* stop() in the handler *)
      | Session.NeedMore => false
      end
  | Session.Reading _, Session.ReadFailed _ => true   (* stop() in the handler *)
  | Session.ReaderDone, _ => false
  end.

Definition writer_uses_room (st : Session.writer_state)
    (ev : Session.writer_event) : bool :=
  match st, ev with
  | Session.Writing _, Session.WriteCompleted (Some _) => true   (* stop() *)
  | _, _ => false
  end.

(** Once the listener has ended, the room that the sessions refer to is
    destroyed: an action that uses it has undefined behaviour. *)
Definition use_after_free (a : action) (sv : t) : bool :=
  negb (listening sv)
  && match a with
     | Accept _ => false
     | Read p ev =>
         match readers sv !! p with
         | Some st => reader_uses_room st ev
         | None => false
         end
     | Write p ev =>
         match writers sv !! p with
         | Some st => writer_uses_room st ev
         | None => false
         end
     end.

(** An action where the behaviour of the program is defined. *)
Definition resume (a : action) (sv : t) : option t :=
  match a with
  | Accept script => accept script sv
  | Read p ev =>
      match readers sv !! p with
      | Some st =>
          match Session.reader p st ev (world sv) with
          | Some (st', w') =>
              Some {| world := w'; readers := <[p := st']> (readers sv);
                      writers := writers sv; listening := listening sv |}
          | None => None
          end
      | None => None
      end
  | Write p ev =>
      match writers sv !! p with
      | Some st =>
          match Session.writer p st ev (world sv) with
          | Some (st', w') =>
              Some {| world := w'; readers := readers sv;
                      writers := <[p := st']> (writers sv);
                      listening := listening sv |}
          | None => None
          end
      | None => None
      end
  end.

(** [None]: the action cannot happen in that state, or the behaviour of
    the program is undefined there. *)
Definition step (a : action) (sv : t) : option t :=
  if use_after_free a sv then None else resume a sv.

Fixpoint run (acts : list action) (sv : t) : option t :=
  match acts with
  | [] => Some sv
  | a :: acts' =>
      match step a sv with
      | Some sv' => run acts' sv'
      | None => None
      end
  end.

(** Whether [p] points to a live session, and if so whether its socket is
    open. *)
Definition openness (w : World) (p : ptr) : option bool :=
  (fun s => is_open (socket_ s)) <$> heap w !! p.

(** What every state of the server satisfies while the room exists (see
    [server_invariant]): the members of the room are exactly the live
    sessions whose socket is open, the history is bounded, and every
    session has its two coroutines. *)
Definition world_sound (w : World) : Prop :=
  (∀ p, p ∈ users_ (room w) ↔ openness w p = Some true)
  ∧ length (recent_message_ (room w)) ≤ Room.max_recent_.
Definition sound (sv : t) : Prop :=
  world_sound (world sv)
  ∧ dom (readers sv) = dom (heap (world sv))
  ∧ dom (writers sv) = dom (heap (world sv)).

End Server.

(** ** [main] of the server *)

Module Main.

(** [std::atoi]: leading white space, an optional sign, then decimal digits
    up to the first other character.  [value] is the number so written;
    [atoi] returns it where an [int] can represent it, and has undefined
    behaviour where it cannot: [None]. *)
Definition is_space (c : ascii) : bool :=
  let n := nat_of_ascii c in (n =? 32) || ((9 <=? n) && (n <=? 13)).

Definition digit (c : ascii) : option Z :=
  let n := nat_of_ascii c in
  if (48 <=? n) && (n <=? 57) then Some (Z.of_nat (n - 48)) else None.

Fixpoint digits (acc : Z) (s : string) : Z :=
  match s with
  | EmptyString => acc
  | String c s' =>
      match digit c with
      | Some d => digits (10 * acc + d) s'
      | None => acc
      end
  end.

Fixpoint skip_space (s : string) : string :=
  match s with
  | EmptyString => EmptyString
  | String c s' => if is_space c then skip_space s' else s
  end.

Definition value (s : string) : Z :=
  match skip_space s with
  | String "-" s' => (- digits 0 s')%Z
  | String "+" s' => digits 0 s'
  | s' => digits 0 s'
  end.

Definition INT_MIN : Z := (-2147483648)%Z.
Definition INT_MAX : Z := 2147483647%Z.

Definition atoi (s : string) : option Z :=
  let v := value s in
  if ((INT_MIN <=? v) && (v <=? INT_MAX))%Z then Some v else None.

(** [unsigned short port = std::atoi(ports[i]);] the conversion of the
    [int] is modulo 2^16. *)
Definition port_of (arg : string) : option Z :=
  (fun v => v mod 65536)%Z <$> atoi arg.

(** What [main] comes to: [io_context.run()] is entered with a listener on
    each of [ports]; or [main] returns 0 from its handler without having
    run anything; or its behaviour is undefined.  [errors] are the lines
    written to [std::cerr]. *)
Inductive message :=
| NoPortProvided    (* "No port provided. Usage: ./chat_server <port1> ..." *)
| What (port : Z).  (* err.what() of the acceptor that could not be set up *)

Inductive outcome :=
| Runs (ports : list Z) (errors : list message)
| Returns (errors : list message)
| Undefined.

(** What the [for] loop comes to: an acceptor listens on each of [ports];
    or the constructor of the acceptor for [port] threw; or an argument
    was out of the range of [std::atoi]. *)
Inductive spawned :=
| Spawned (ports : list Z)
| Threw (port : Z)
| OutOfRange.

(** The [for] loop: [i] starts at 0, so [ports[0]], the name of the
    program, is converted like the rest.  The constructor of
    [tcp::acceptor] opens, binds and listens, and throws into the handler
    of [main] where one of these fails.  Whether it succeeds depends on
    the port and on the ports this process has bound already, in [bound]
    (a second acceptor on a port in use fails; port 0 asks for any free
    port): [can_listen bound port]. *)
Fixpoint spawn_listeners (can_listen : list Z → Z → bool) (args : list string)
    (bound : list Z) : spawned :=
  match args with
  | [] => Spawned bound
  | arg :: args' =>
      match port_of arg with
      | Some port =>
          if can_listen bound port
          then spawn_listeners can_listen args' (bound ++ [port])
          else Threw port
      | None => OutOfRange
      end
  end.

Definition main (can_listen : list Z → Z → bool) (ports : list string)
  : outcome :=
  let cnt_paraments := length ports in
  let errors := if cnt_paraments <? 2 then [NoPortProvided] else [] in
  match spawn_listeners can_listen ports [] with
  | Spawned bound => Runs bound errors
  | Threw port => Returns (errors ++ [What port])
  | OutOfRange => Undefined
  end.

(** Every acceptor of [ports] can be set up after the ones before it. *)
Definition all_listen (can_listen : list Z → Z → bool) (ports : list Z)
  : Prop :=
  ∀ (i : nat) (port : Z),
    ports !! i = Some port → can_listen (take i ports) port = true.

End Main.

(** ** The client *)

Module Client.

(** [tcp::socket socket_], as far as the client uses it: the connection
    attempt of [async_connect] is under way; the connection is
    established; the attempt has failed; the socket has been closed by
    [socket_.close()]. *)
Inductive socket_state :=
| Connecting
| Established
| Unconnected
| Closed.

(** [class Client]: the state of [socket_], and the other members. *)
Record t := mk {
  socket_ : socket_state;
  read_message_ : string;
  write_message_ : list string;
  username_ : string
}.

(** The constructor, which starts [async_connect]. *)
Definition new (username : string) : t :=
  {| socket_ := Connecting; read_message_ := EmptyString;
     write_message_ := []; username_ := username |}.

(** Which member function is bound as the completion handler. *)
Inductive handler := Reader | Writer.

(** What a member function asks of Boost.Asio and of the terminal.  The
    [buffer] of a write is given by the bytes it refers to when the write
    is started. *)
Inductive effect :=
| AsyncWrite (buffer : string) (h : handler)
| AsyncReadUntil
| Cout (text : string).   (* std::cout << text << std::endl *)

(** [boost::asio::buffer(data, max_size_in_bytes)]: the first
    [max_size_in_bytes] bytes of [data], all of it if it is shorter.  The
    buffer is a view: it does not own the bytes. *)
Definition buffer (data : string) (max_size_in_bytes : nat) : string :=
  String.substring 0 (String.length data `min` max_size_in_bytes) data.

Definition set_socket (st : socket_state) (c : t) : t :=
  {| socket_ := st; read_message_ := read_message_ c;
     write_message_ := write_message_ c; username_ := username_ c |}.
Definition set_read_message (s : string) (c : t) : t :=
  {| socket_ := socket_ c; read_message_ := s;
     write_message_ := write_message_ c; username_ := username_ c |}.
Definition set_write_message (q : list string) (c : t) : t :=
  {| socket_ := socket_ c; read_message_ := read_message_ c;
     write_message_ := q; username_ := username_ c |}.

(** [closeSocket]. *)
Definition closeSocket (c : t) : t * list effect := (set_socket Closed c, []).

(** [start(error)], the handler of [async_connect]. *)
Definition start (error : option error_code) (c : t) : t * list effect :=
  match error with
  | None =>
      (c, [AsyncWrite (buffer (username_ c +:+ nl)
                         (String.length (username_ c) + 1)) Reader])
  | Some _ => (c, [])
  end.

(** [reader(error)], the handler of the handshake write and of every
    [async_read_until]. *)
Definition reader (error : option error_code) (c : t) : t * list effect :=
  match error with
  | None =>
      (set_read_message EmptyString c, [Cout (read_message_ c); AsyncReadUntil])
  | Some _ => closeSocket c
  end.

(** The line a message is sent as, and [async_write()], which sends the
    front of the queue; it is only called on a queue that is not empty. *)
Definition format (username msg : string) : string :=
  "[" +:+ username +:+ "] " +:+ msg +:+ nl.

Definition async_write (c : t) : list effect :=
  match write_message_ c with
  | front :: _ =>
      [AsyncWrite (buffer (format (username_ c) front)
                     (String.length front + 4 + String.length (username_ c)))
                  Writer]
  | [] => []
  end.

(** [writer(error)], the handler of the writes of [async_write()]. *)
Definition writer (error : option error_code) (c : t) : t * list effect :=
  match error with
  | None =>
      let c' := set_write_message (tail (write_message_ c)) c in
      match write_message_ c' with
      | [] => (c', [])
      | _ :: _ => (c', async_write c')
      end
  | Some _ => closeSocket c
  end.

(** [writeSocket(msg)]. *)
Definition writeSocket (msg : string) (c : t) : t * list effect :=
  let write_in_progress :=
    match write_message_ c with [] => false | _ :: _ => true end in
  let c' := set_write_message (write_message_ c ++ [msg]) c in
  if write_in_progress then (c', []) else (c', async_write c').

(** The client with its surroundings: whether the handler of
    [async_connect] has still to run; the writes started and not yet
    completed, oldest first; whether an [async_read_until] is pending; the
    buffers of the writes that completed without error, with their
    handlers; the lines printed.

    The buffer of a write refers to a temporary [std::string] (the
    argument of [boost::asio::buffer] in [start] and in [async_write()]),
    which is destroyed at the end of the statement that starts the write.
    The bytes can therefore only be taken from it by the call that starts
    the write, which tries to send at once and can succeed when the
    connection is established by then: a pending write carries whether it
    was. *)
Record system := mkSystem {
  client : t;
  connecting : bool;
  writes : list (string * handler * bool);
  reading : bool;
  wire : list (string * handler);
  terminal : list string
}.

Definition boot (username : string) : system :=
  {| client := new username; connecting := true; writes := [];
     reading := false; wire := []; terminal := [] |}.

Definition established (c : t) : bool :=
  match socket_ c with
  | Established => true
  | _ => false
  end.

Definition perform (e : effect) (sys : system) : system :=
  match e with
  | AsyncWrite b h =>
      {| client := client sys; connecting := connecting sys;
         writes := writes sys ++ [(b, h, established (client sys))];
         reading := reading sys; wire := wire sys; terminal := terminal sys |}
  | AsyncReadUntil =>
      {| client := client sys; connecting := connecting sys;
         writes := writes sys;
         reading := true; wire := wire sys; terminal := terminal sys |}
  | Cout text =>
      {| client := client sys; connecting := connecting sys;
         writes := writes sys;
         reading := reading sys; wire := wire sys;
         terminal := terminal sys ++ [text] |}
  end.

(** The writes a list of effects starts, the lines it prints, and whether
    it starts a read. *)
Definition writes_of (effects : list effect) : list (string * handler) :=
  omap (fun e => match e with AsyncWrite b h => Some (b, h) | _ => None end)
    effects.
Definition printed_of (effects : list effect) : list string :=
  omap (fun e => match e with Cout text => Some text | _ => None end) effects.
Definition rearms (effects : list effect) : bool :=
  existsb (fun e => match e with AsyncReadUntil => true | _ => false end)
    effects.

(** A member function run on the client of the system. *)
Definition call (f : t → t * list effect) (sys : system) : system :=
  let '(c, effects) := f (client sys) in
  foldl (fun sys e => perform e sys)
    {| client := c; connecting := connecting sys; writes := writes sys;
       reading := reading sys; wire := wire sys; terminal := terminal sys |}
    effects.

Definition handle (h : handler) (error : option error_code) : t → t * list effect :=
  match h with
  | Reader => reader error
  | Writer => writer error
  end.

(** What happens to a client: the connection attempt ends in the network,
    established or not; the io thread runs the handler of [async_connect];
    it runs a posted [writeSocket(msg)] or [closeSocket()]; the oldest
    pending write completes, having taken its bytes in the call that
    started it; the reactor goes on with the oldest pending write, which
    that call did not finish; the socket gives bytes or an error to the
    pending [async_read_until], which is the operation of
    [Session.read_until] on [read_message_]. *)
Inductive event :=
| Reached (ok : bool)
| Connected (error : option error_code)
| Posted (msg : string)
| PostedClose
| WriteCompleted (error : option error_code)
| WriteResumed
| Received (ev : Session.read_event).

(** The connection attempt has ended in the network, and the handler of
    [async_connect] is about to run. *)
Definition reached (ok : bool) (sys : system) : system :=
  {| client := set_socket (if ok then Established else Unconnected) (client sys);
     connecting := connecting sys;
     writes := writes sys; reading := reading sys; wire := wire sys;
     terminal := terminal sys |}.

Definition handled (sys : system) : system :=
  {| client := client sys; connecting := false;
     writes := writes sys; reading := reading sys; wire := wire sys;
     terminal := terminal sys |}.

(** The oldest pending write has completed; without error, the bytes
    that its buffer referred to when it was started have been sent. *)
Definition completed (b : string) (h : handler)
    (rest : list (string * handler * bool))
    (error : option error_code) (sys : system) : system :=
  {| client := client sys; connecting := connecting sys; writes := rest;
     reading := reading sys;
     wire := match error with
             | None => wire sys ++ [(b, h)]
             | Some _ => wire sys
             end;
     terminal := terminal sys |}.

Definition stop_reading (sys : system) : system :=
  {| client := client sys; connecting := connecting sys;
     writes := writes sys; reading := false;
     wire := wire sys; terminal := terminal sys |}.

Definition append_read (bytes : string) (sys : system) : system :=
  {| client := set_read_message (read_message_ (client sys) +:+ bytes) (client sys);
     connecting := connecting sys;
     writes := writes sys; reading := reading sys;
     wire := wire sys; terminal := terminal sys |}.

(** A pending write that goes on after the call that started it reads
    its buffer again, and the temporary behind the buffer is gone: the
    behaviour of the program is undefined. *)
Definition undefined (e : event) (sys : system) : bool :=
  match e, writes sys with
  | WriteResumed, _ :: _ => true
  | _, _ => false
  end.

(** [None]: the event cannot happen in that state, or the behaviour of the
    program is undefined there.  The handler of [async_connect] runs once,
    after the attempt has ended or the socket has been closed; it is given
    no error if the connection is established, and an error if the attempt
    failed or the socket was closed in the meantime ([operation_aborted]).
    A write completes without error only if its bytes were taken when it
    was started. *)
Definition step (e : event) (sys : system) : option system :=
  if undefined e sys then None else
  match e with
  | Reached ok =>
      match socket_ (client sys) with
      | Connecting => Some (reached ok sys)
      | _ => None
      end
  | Connected error =>
      if connecting sys then
        match error, socket_ (client sys) with
        | None, Established => Some (call (start None) (handled sys))
        | Some ec, (Unconnected | Closed) =>
            Some (call (start (Some ec)) (handled sys))
        | _, _ => None
        end
      else None
  | Posted msg => Some (call (writeSocket msg) sys)
  | PostedClose => Some (call closeSocket sys)
  | WriteCompleted error =>
      match writes sys with
      | (b, h, at_once) :: rest =>
          match error with
          | None =>
              if at_once
              then Some (call (handle h None) (completed b h rest None sys))
              else None
          | Some ec =>
              Some (call (handle h (Some ec)) (completed b h rest (Some ec) sys))
          end
      | [] => None
      end
  | WriteResumed => None
  | Received ev =>
      if reading sys then
        match ev with
        | Session.Data bytes =>
            if Session.can_read (read_message_ (client sys)) bytes then
              let sys1 := append_read bytes sys in
              match Session.read_until (read_message_ (client sys1)) with
              | Session.Match _ => Some (call (reader None) (stop_reading sys1))
              | Session.NotFound =>
                  Some (call (reader (Some not_found)) (stop_reading sys1))
              | Session.NeedMore => Some sys1
              end
            else None
        | Session.ReadFailed ec =>
            Some (call (reader (Some ec)) (stop_reading sys))
        end
      else None
  end.

Fixpoint run (es : list event) (sys : system) : option system :=
  match es with
  | [] => Some sys
  | e :: es' =>
      match step e sys with
      | Some sys' => run es' sys'
      | None => None
      end
  end.

(** The loop of [main]: [std::getline] gives a line without its
    terminator, and a line that is not empty is handed to
    [client.write], which posts [writeSocket]. *)
Definition main_loop (stdin : list string) : list event :=
  flat_map (fun msg => if String.eqb msg EmptyString then [] else [Posted msg])
    stdin.

(** The messages posted by a sequence of events, and the buffers of the
    given handler in a list of writes. *)
Definition posted (es : list event) : list string :=
  omap (fun e => match e with Posted msg => Some msg | _ => None end) es.
Definition buffers_of (h : handler) (ws : list (string * handler)) : list string :=
  omap (fun w => match w.2, h with
                 | Reader, Reader | Writer, Writer => Some w.1
                 | _, _ => None
                 end) ws.

(** The buffers that [async_write()] has handed over and that have not
    completed. *)
Definition in_flight (sys : system) : list string :=
  buffers_of Writer (writes sys).*1.

(** The write queue is in order when the write in flight, if any, sends
    the front of the queue; it is stuck when messages are queued and no
    write is in flight. *)
Definition in_order (sys : system) : Prop :=
  match write_message_ (client sys) with
  | [] => in_flight sys = []
  | front :: _ =>
      in_flight sys = [format (username_ (client sys)) front]
      ∨ in_flight sys = []
  end.
Definition stuck (sys : system) : Prop :=
  write_message_ (client sys) ≠ [] ∧ in_flight sys = [].

(** The bytes the socket gave to reads, in order. *)
Definition received (es : list event) : list string :=
  omap (fun e => match e with
                 | Received (Session.Data bytes) => Some bytes
                 | _ => None
                 end) es.

(** The text printed, followed by the text [read_message_] holds. *)
Definition shown (sys : system) : string :=
  stream (terminal sys) +:+ read_message_ (client sys).

(** The events that [main] posts to the io thread, as opposed to the
    completions the io thread runs by itself; a schedule of [main] on the
    lines [stdin] has the events of its loop, in order, among events of the
    io thread. *)
Definition by_main (e : event) : bool :=
  match e with
  | Posted _ | PostedClose => true
  | _ => false
  end.
Definition schedule_of (stdin : list string) (es : list event) : Prop :=
  List.filter by_main es = main_loop stdin.

(** A client is blocked when no message has been written, messages are
    queued, and either no write of a message is in flight or the oldest
    pending write is one of a message that was started before the
    connection was established. *)
Definition blocked (sys : system) : Prop :=
  buffers_of Writer (wire sys) = []
  ∧ write_message_ (client sys) ≠ []
  ∧ (in_flight sys = []
     ∨ ∃ (b : string) rest,
         writes sys = (b, Writer, false) :: rest
         ∧ buffers_of Writer rest.*1 = []).

(** What holds of a client called [u] after events that posted the
    messages [P]: the writes of messages that have completed, followed by
    the queue, are the posted messages in order, each as its line; and the
    queue is in order. *)
Definition invariant (u : string) (P : list string) (sys : system) : Prop :=
  username_ (client sys) = u
  ∧ buffers_of Writer (wire sys) ++ map (format u) (write_message_ (client sys))
    = map (format u) P
  ∧ in_order sys.

End Client.

(** ** Reads of a stream *)

(** Reads that the socket can give, one after the other, to an
    [async_read_until] whose buffer holds [read_message]: every read
    brings at least one byte and no more than the room left in the buffer,
    which holds the unterminated rest of what came before. *)
Fixpoint reads_fit (read_message : string) (chunks : list string) : bool :=
  match chunks with
  | [] => true
  | bytes :: chunks' =>
      Session.can_read read_message bytes
      && reads_fit (lines (read_message +:+ bytes)).2 chunks'
  end.

(** * Properties *)

(** ** The room's history *)

Section History.

Implicit Types (q : list string) (r : ChatRoom).

Lemma pop_excess_drop q :
  Room.pop_excess q = drop (length q - Room.max_recent_) q.
Proof.
  induction q as [|x q IH]; [done|].
  cbn [Room.pop_excess].
  destruct (Nat.ltb_spec Room.max_recent_ (length (x :: q))) as [Hlt|Hge].
  - rewrite IH. cbn [length] in *.
    replace (S (length q) - Room.max_recent_)
      with (S (length q - Room.max_recent_)) by lia.
    done.
  - replace (length (x :: q) - Room.max_recent_) with 0 by lia. done.
Qed.

Lemma pop_excess_length q :
  length (Room.pop_excess q) = length q `min` Room.max_recent_.
Proof. rewrite pop_excess_drop, length_drop. lia. Qed.

Lemma pop_excess_app q1 q2 :
  Room.pop_excess (Room.pop_excess q1 ++ q2) = Room.pop_excess (q1 ++ q2).
Proof.
  rewrite !pop_excess_drop, !length_app, length_drop.
  set (k := length q1 - Room.max_recent_).
  assert (Hk : k ≤ length q1) by (unfold k; lia).
  replace (length q1 + length q2 - Room.max_recent_)
    with (k + (length q1 - k + length q2 - Room.max_recent_))
    by (unfold k; lia).
  rewrite <- drop_drop. f_equal.
  rewrite drop_app_le by done. done.
Qed.

Lemma deliver_all_recent messages r :
  length (recent_message_ r) ≤ Room.max_recent_ →
  recent_message_ (Room.deliver_all messages r).1
  = Room.pop_excess (recent_message_ r ++ messages).
Proof.
  revert r. induction messages as [|m ms IH]; intros r Hr.
  - cbn [Room.deliver_all fst]. rewrite app_nil_r, pop_excess_drop.
    replace (length (recent_message_ r) - Room.max_recent_) with 0 by lia.
    done.
  - cbn [Room.deliver_all].
    destruct (Room.deliver m r) as [r1 c1] eqn:E1.
    specialize (IH r1).
    destruct (Room.deliver_all ms r1) as [r2 c2]. cbn [fst] in *.
    injection E1 as <- _. cbn [recent_message_] in IH.
    rewrite IH by (rewrite pop_excess_length; lia).
    rewrite pop_excess_app, <- app_assoc. done.
Qed.

Lemma deliver_all_from_empty messages r :
  recent_message_ r = [] →
  recent_message_ (Room.deliver_all messages r).1
  = drop (length messages - Room.max_recent_) messages.
Proof.
  intros Hr. rewrite deliver_all_recent by (rewrite Hr; cbn; lia).
  rewrite Hr. apply pop_excess_drop.
Qed.

Lemma apply_recent_bounded (o : Room.op) r :
  length (recent_message_ r) ≤ Room.max_recent_ →
  length (recent_message_ (Room.apply o r)) ≤ Room.max_recent_.
Proof.
  destruct o; cbn; [done..|]. rewrite pop_excess_length. lia.
Qed.

Lemma foldl_apply_recent_bounded (ops : list Room.op) r :
  length (recent_message_ r) ≤ Room.max_recent_ →
  length (recent_message_ (foldl (fun r o => Room.apply o r) r ops))
  ≤ Room.max_recent_.
Proof.
  revert r. induction ops as [|o ops IH]; intros r Hr; [done|].
  cbn [foldl]. by apply IH, apply_recent_bounded.
Qed.

(** C1. From an empty history, [N] calls of [Room.deliver] leave exactly
    the last [min N 10] messages, in arrival order; the history never
    holds more than 10 entries after any operation; and a delivery to a
    full history evicts its oldest entry. *)
Theorem history_bound r (messages : list string) :
  recent_message_ r = [] →
  let h := recent_message_ (Room.deliver_all messages r).1 in
  h = drop (length messages - 10) messages
  ∧ length h = length messages `min` 10
  ∧ (∀ ops : list Room.op,
       length (recent_message_ (foldl (fun r o => Room.apply o r) r ops)) ≤ 10)
  ∧ (∀ r' oldest rest msg,
       recent_message_ r' = oldest :: rest → length rest = 9 →
       recent_message_ (Room.deliver msg r').1 = rest ++ [msg]).
Proof.
  intros Hr h. subst h. rewrite deliver_all_from_empty by done.
  split; [done|].
  split; [rewrite length_drop; unfold Room.max_recent_; lia|].
  split.
  - intros ops. apply foldl_apply_recent_bounded. rewrite Hr. cbn. lia.
  - intros r' oldest rest msg Hr' Hlen. cbn. rewrite Hr'.
    rewrite pop_excess_drop. cbn [app length]. rewrite length_app, Hlen. done.
Qed.

Lemma history_bound_witness :
  recent_message_
    (Room.deliver_all
       ["m1"; "m2"; "m3"; "m4"; "m5"; "m6"; "m7"; "m8"; "m9"; "m10"; "m11"]%string
       Room.init).1
  = ["m2"; "m3"; "m4"; "m5"; "m6"; "m7"; "m8"; "m9"; "m10"; "m11"]%string.
Proof.
  exact (proj1 (history_bound Room.init
    ["m1"; "m2"; "m3"; "m4"; "m5"; "m6"; "m7"; "m8"; "m9"; "m10"; "m11"]%string
    eq_refl)).
Defined.

End History.

(** ** Calls through the [Users] interface *)

Section Dispatch.

Implicit Types (w : World) (s : ChatSession) (u v : ptr) (msg : string).

Lemma cancel_fields s :
  socket_ (Session.cancel s).1 = socket_ s
  ∧ timer_ (Session.cancel s).1 = pred (timer_ s)
  ∧ write_message_ (Session.cancel s).1 = write_message_ s
  ∧ username_ (Session.cancel s).1 = username_ s.
Proof. unfold Session.cancel. by destruct (timer_ s). Qed.

Lemma deliver_fields msg s :
  socket_ (Session.deliver msg s).1 = socket_ s
  ∧ timer_ (Session.deliver msg s).1 = pred (timer_ s)
  ∧ write_message_ (Session.deliver msg s).1 = write_message_ s ++ [msg]
  ∧ username_ (Session.deliver msg s).1 = username_ s.
Proof.
  unfold Session.deliver.
  by destruct (cancel_fields
    {| socket_ := socket_ s; timer_ := timer_ s;
       write_message_ := write_message_ s ++ [msg];
       username_ := username_ s |}) as (-> & -> & -> & ->).
Qed.

Lemma deliver_each_fields (msgs : list string) s :
  socket_ (Session.deliver_each msgs s) = socket_ s
  ∧ write_message_ (Session.deliver_each msgs s) = write_message_ s ++ msgs
  ∧ username_ (Session.deliver_each msgs s) = username_ s.
Proof.
  revert s. induction msgs as [|m ms IH]; intros s.
  - cbn. by rewrite app_nil_r.
  - change (Session.deliver_each (m :: ms) s)
      with (Session.deliver_each ms (Session.deliver m s).1).
    destruct (IH (Session.deliver m s).1) as (-> & -> & ->).
    destruct (deliver_fields m s) as (-> & _ & -> & ->).
    by rewrite <- app_assoc.
Qed.

Lemma Users_deliver_room u msg w :
  room (Session.Users_deliver u msg w) = room w.
Proof.
  unfold Session.Users_deliver. destruct (heap w !! u); [|done].
  by destruct (Session.deliver msg _).
Qed.

Lemma Users_deliver_heap u msg w v :
  heap (Session.Users_deliver u msg w) !! v
  = if decide (u = v)
    then (fun s => (Session.deliver msg s).1) <$> heap w !! v
    else heap w !! v.
Proof.
  unfold Session.Users_deliver.
  destruct (heap w !! u) as [s|] eqn:E.
  - destruct (Session.deliver msg s) as [s' out] eqn:Ed. cbn.
    case_decide as Huv.
    + subst v. rewrite lookup_insert_eq, E. cbn. by rewrite Ed.
    + by rewrite lookup_insert_ne.
  - case_decide as Huv; [|done]. subst v. by rewrite E.
Qed.

Lemma dispatch_room (calls : list call) w :
  room (Session.dispatch calls w) = room w.
Proof.
  revert w. induction calls as [|c calls IH]; intros w; [done|].
  cbn. unfold Session.dispatch in IH. by rewrite IH, Users_deliver_room.
Qed.

Lemma dispatch_heap (calls : list call) w v :
  heap (Session.dispatch calls w) !! v
  = Session.deliver_each (Session.calls_on v calls).*2 <$> heap w !! v.
Proof.
  revert w. induction calls as [|[u msg] calls IH]; intros w.
  - cbn. by destruct (heap w !! v).
  - cbn [Session.dispatch foldl]. unfold Session.dispatch in IH.
    rewrite IH, Users_deliver_heap. unfold Session.calls_on.
    rewrite filter_cons. cbn [fst snd].
    destruct (decide (u = v)) as [->|Hne].
    + destruct (heap w !! v); [|done]. done.
    + done.
Qed.

Lemma calls_on_same u (msgs : list string) :
  Session.calls_on u (map (fun m => (u, m)) msgs) = map (fun m => (u, m)) msgs.
Proof.
  unfold Session.calls_on. induction msgs as [|m ms IH]; [done|].
  cbn [map]. rewrite filter_cons. cbn [fst].
  destruct (decide (u = u)); [|done]. f_equal. exact IH.
Qed.

Lemma calls_on_other u v (msgs : list string) :
  u ≠ v → Session.calls_on v (map (fun m => (u, m)) msgs) = [].
Proof.
  intros Hne. unfold Session.calls_on. induction msgs as [|m ms IH]; [done|].
  cbn [map]. rewrite filter_cons. cbn [fst].
  destruct (decide (u = v)); [done|]. exact IH.
Qed.

Lemma calls_on_absent v msg (l : list ptr) :
  v ∉ l → Session.calls_on v (map (fun u => (u, msg)) l) = [].
Proof.
  unfold Session.calls_on. induction l as [|x l IH]; intros Hv; [done|].
  cbn [map]. rewrite filter_cons. cbn [fst].
  apply not_elem_of_cons in Hv as [Hx Hl].
  destruct (decide (x = v)); [congruence|]. by apply IH.
Qed.

Lemma calls_on_once v msg (l : list ptr) :
  NoDup l → v ∈ l →
  Session.calls_on v (map (fun u => (u, msg)) l) = [(v, msg)].
Proof.
  unfold Session.calls_on. induction l as [|x l IH]; intros Hnd Hv.
  - by apply elem_of_nil in Hv.
  - apply NoDup_cons in Hnd as [Hx Hnd].
    cbn [map]. rewrite filter_cons. cbn [fst].
    destruct (decide (x = v)) as [->|Hne].
    + f_equal. by apply calls_on_absent.
    + apply elem_of_cons in Hv as [->|Hv]; [done|]. by apply IH.
Qed.

End Dispatch.

(** ** Fan-out, replay and membership *)

Section Broadcast.

Implicit Types (w : World) (s : ChatSession) (u v self : ptr) (msg : string).

Lemma room_deliver_heap msg w v :
  heap (Session.room_deliver msg w) !! v
  = Session.deliver_each
      (Session.calls_on v (Room.deliver msg (room w)).2).*2 <$> heap w !! v.
Proof. unfold Session.room_deliver. cbn. by rewrite dispatch_heap. Qed.

Lemma room_join_heap u w v :
  heap (Session.room_join u w) !! v
  = Session.deliver_each
      (Session.calls_on v (Room.join u (room w)).2).*2 <$> heap w !! v.
Proof. unfold Session.room_join. cbn. by rewrite dispatch_heap. Qed.

Lemma room_join_room u w :
  room (Session.room_join u w) = (Room.join u (room w)).1.
Proof. unfold Session.room_join. cbn. by rewrite dispatch_room. Qed.

Lemma fmap_snd_pair u (msgs : list string) :
  (map (fun m => (u, m)) msgs).*2 = msgs.
Proof. induction msgs as [|m ms IH]; [done|]. cbn. by rewrite IH. Qed.

(** C2. [Room.deliver msg] calls [deliver msg] exactly once on every
    member and on nobody else; [deliver] has no notion of a sender, so a
    member that sent the line gets it like the others.  Every member's
    queue grows by [msg], the other sessions are untouched. *)
Theorem fan_out w msg :
  let members := users_ (room w) in
  let calls := (Room.deliver msg (room w)).2 in
  let w' := Session.room_deliver msg w in
  (∀ u, u ∈ members → Session.calls_on u calls = [(u, msg)])
  ∧ (∀ u, u ∉ members → Session.calls_on u calls = [])
  ∧ (∀ u s, u ∈ members → heap w !! u = Some s →
       heap w' !! u = Some (Session.deliver msg s).1
       ∧ write_message_ (Session.deliver msg s).1 = write_message_ s ++ [msg])
  ∧ (∀ u, u ∉ members → heap w' !! u = heap w !! u).
Proof.
  intros members calls w'. subst members calls w'. cbn [Room.deliver snd].
  assert (Hin : ∀ u, u ∈ users_ (room w) →
    Session.calls_on u (map (fun user => (user, msg)) (elements (users_ (room w))))
    = [(u, msg)]).
  { intros u Hu. apply calls_on_once; [apply NoDup_elements|].
    by apply elem_of_elements. }
  assert (Hout : ∀ u, u ∉ users_ (room w) →
    Session.calls_on u (map (fun user => (user, msg)) (elements (users_ (room w))))
    = []).
  { intros u Hu. apply calls_on_absent. by rewrite elem_of_elements. }
  split; [exact Hin|]. split; [exact Hout|]. split.
  - intros u s Hu Hs. split; [|apply deliver_fields].
    rewrite room_deliver_heap. cbn [Room.deliver snd].
    rewrite Hin by done. by rewrite Hs.
  - intros u Hu. rewrite room_deliver_heap. cbn [Room.deliver snd].
    rewrite Hout by done. cbn. by destruct (heap w !! u).
Qed.

(** C4. After [m1..mk] ([k ≤ 10]) have been delivered to a room that
    started with an empty history, [join u] calls [u]'s [deliver] with
    exactly [m1..mk], in that order, makes no other call, and touches no
    other session. *)
Theorem replay_on_join (r0 : ChatRoom) (ms : list string) w u :
  recent_message_ r0 = [] →
  length ms ≤ 10 →
  room w = (Room.deliver_all ms r0).1 →
  let calls := (Room.join u (room w)).2 in
  let w' := Session.room_join u w in
  calls = map (fun m => (u, m)) ms
  ∧ heap w' !! u = Session.deliver_each ms <$> heap w !! u
  ∧ (∀ s, heap w !! u = Some s →
       write_message_ (Session.deliver_each ms s) = write_message_ s ++ ms)
  ∧ (∀ v, v ≠ u → Session.calls_on v calls = [] ∧ heap w' !! v = heap w !! v)
  ∧ recent_message_ (room w') = ms.
Proof.
  intros Hr0 Hk Hw calls w'. subst calls w'.
  assert (Hh : recent_message_ (room w) = ms).
  { rewrite Hw, deliver_all_from_empty by done.
    replace (length ms - Room.max_recent_) with 0 by (unfold Room.max_recent_; lia).
    done. }
  cbn [Room.join snd]. rewrite Hh.
  split; [done|]. split.
  { rewrite room_join_heap. cbn [Room.join snd].
    by rewrite Hh, calls_on_same, fmap_snd_pair. }
  split.
  { intros s _. apply deliver_each_fields. }
  split.
  { intros v Hv. rewrite room_join_heap. cbn [Room.join snd]. rewrite Hh.
    rewrite calls_on_other by done. split; [done|].
    cbn. by destruct (heap w !! v). }
  by rewrite room_join_room.
Qed.

(** C10. A second [join] of a member leaves the set of members as it is
    (no second entry) and calls the member's [deliver] once more with
    every message of the history, in order. *)
Theorem rejoin_replays w u :
  u ∈ users_ (room w) →
  let calls := (Room.join u (room w)).2 in
  let w' := Session.room_join u w in
  users_ (room w') = users_ (room w)
  ∧ recent_message_ (room w') = recent_message_ (room w)
  ∧ calls = map (fun m => (u, m)) (recent_message_ (room w))
  ∧ heap w' !! u = Session.deliver_each (recent_message_ (room w)) <$> heap w !! u
  ∧ (∀ s, heap w !! u = Some s →
       write_message_ (Session.deliver_each (recent_message_ (room w)) s)
       = write_message_ s ++ recent_message_ (room w))
  ∧ (∀ v, v ≠ u → heap w' !! v = heap w !! v).
Proof.
  intros Hu calls w'. subst calls w'. rewrite room_join_room.
  cbn [Room.join fst snd users_ recent_message_].
  split.
  { apply set_eq. intros x. rewrite elem_of_union, elem_of_singleton.
    split; [intros [->|Hx]; done | intros Hx; by right]. }
  split; [done|]. split; [done|]. split.
  { rewrite room_join_heap. cbn [Room.join snd].
    by rewrite calls_on_same, fmap_snd_pair. }
  split.
  { intros s _. apply deliver_each_fields. }
  intros v Hv. rewrite room_join_heap. cbn [Room.join snd].
  rewrite calls_on_other by done. cbn. by destruct (heap w !! v).
Qed.

Lemma fan_out_witness :
  let w := Scenario.started in
  Session.calls_on Scenario.ann (Room.deliver "hi" (room w)).2
  = [(Scenario.ann, "hi"%string)]
  ∧ write_message_ <$> heap (Session.room_deliver "hi" w) !! Scenario.bob
    = Some ["Welcome to the chat, bob!"; "hi"]%string.
Proof.
  intros w. destruct (fan_out w "hi") as (Hin & _ & Hheap & _).
  split.
  - apply Hin. apply (bool_decide_unpack _). vm_compute. exact I.
  - destruct (Hheap Scenario.bob
      (Session.deliver "Welcome to the chat, bob!" (Session.new "bob")).1)
      as [-> _]; [|reflexivity|reflexivity].
    apply (bool_decide_unpack _). vm_compute. exact I.
Defined.

Lemma replay_on_join_witness :
  let w := set_room (Room.deliver_all ["m1"; "m2"]%string Room.init).1
             Scenario.created in
  (Room.join Scenario.ann (room w)).2
  = [(Scenario.ann, "m1"); (Scenario.ann, "m2")]%string
  ∧ write_message_ <$> heap (Session.room_join Scenario.ann w) !! Scenario.ann
    = Some ["m1"; "m2"]%string.
Proof.
  intros w.
  destruct (replay_on_join Room.init ["m1"; "m2"]%string w Scenario.ann)
    as (Hcalls & Hheap & _); [reflexivity | cbn; lia | reflexivity |].
  split; [exact Hcalls|]. rewrite Hheap. reflexivity.
Defined.

Lemma rejoin_replays_witness :
  let w := Session.room_deliver "hello" (Session.start Scenario.ann Scenario.created) in
  users_ (room (Session.room_join Scenario.ann w)) = users_ (room w)
  ∧ (Room.join Scenario.ann (room w)).2 = [(Scenario.ann, "hello"%string)].
Proof.
  intros w.
  destruct (rejoin_replays w Scenario.ann) as (Hmem & _ & Hcalls & _).
  - apply (bool_decide_unpack _). vm_compute. exact I.
  - split; [exact Hmem | exact Hcalls].
Defined.

End Broadcast.

(** ** Starting and stopping a session *)

Section Lifecycle.

Implicit Types (w : World) (s : ChatSession) (u v self : ptr) (msg : string).

(** C6. [start] adds the session to the room and appends the welcome line
    to this session's queue only, after the replayed history: the room's
    history is what it was, and no other session object changes. *)
Theorem start_welcome_private w self s :
  heap w !! self = Some s →
  let welcome := ("Welcome to the chat, " +:+ username_ s +:+ "!")%string in
  let w' := Session.start self w in
  users_ (room w') = {[self]} ∪ users_ (room w)
  ∧ recent_message_ (room w') = recent_message_ (room w)
  ∧ (∃ s', heap w' !! self = Some s'
           ∧ write_message_ s'
             = write_message_ s ++ recent_message_ (room w) ++ [welcome])
  ∧ (∀ v, v ≠ self → heap w' !! v = heap w !! v).
Proof.
  intros Hs welcome w'. subst w'. unfold Session.start.
  assert (Hj : heap (Session.room_join self w) !! self
               = Some (Session.deliver_each (recent_message_ (room w)) s)).
  { rewrite room_join_heap. cbn [Room.join snd].
    by rewrite calls_on_same, fmap_snd_pair, Hs. }
  rewrite Hj.
  destruct (deliver_each_fields (recent_message_ (room w)) s)
    as (_ & Hq & Hname).
  rewrite Hname. fold welcome.
  rewrite Users_deliver_room, room_join_room. cbn [Room.join fst users_ recent_message_].
  split; [done|]. split; [done|]. split.
  - exists (Session.deliver welcome
              (Session.deliver_each (recent_message_ (room w)) s)).1.
    split.
    + rewrite Users_deliver_heap. destruct (decide (self = self)); [|done].
      by rewrite Hj.
    + destruct (deliver_fields welcome
        (Session.deliver_each (recent_message_ (room w)) s)) as (_ & _ & -> & _).
      by rewrite Hq, <- app_assoc.
  - intros v Hv. rewrite Users_deliver_heap.
    destruct (decide (self = v)); [congruence|].
    rewrite room_join_heap. cbn [Room.join snd].
    rewrite calls_on_other by done. cbn. by destruct (heap w !! v).
Qed.

Lemma start_welcome_private_witness :
  let w := Session.room_deliver "hello" (Session.start Scenario.ann Scenario.created) in
  recent_message_ (room (Session.start Scenario.bob w)) = ["hello"%string]
  ∧ write_message_ <$> heap (Session.start Scenario.bob w) !! Scenario.ann
    = write_message_ <$> heap w !! Scenario.ann.
Proof.
  intros w.
  destruct (start_welcome_private w Scenario.bob (Session.new "bob"))
    as (_ & Hhist & _ & Hframe); [reflexivity|].
  split; [exact Hhist|]. rewrite (Hframe Scenario.ann); [reflexivity|].
  unfold Scenario.ann, Scenario.bob. lia.
Defined.

Lemma close_and_cancel_idemp s :
  Session.close_and_cancel (Session.close_and_cancel s)
  = Session.close_and_cancel s.
Proof. done. Qed.

Lemma leave_non_member (r : ChatRoom) u :
  u ∉ users_ r → Room.leave u r = r.
Proof.
  intros Hu. destruct r as [members h]. unfold Room.leave. cbn in *.
  f_equal. apply set_eq. intros x. rewrite elem_of_difference, elem_of_singleton.
  split; [by intros [Hx _] | intros Hx; split; [done | congruence]].
Qed.

Lemma leave_not_member (r : ChatRoom) u : u ∉ users_ (Room.leave u r).
Proof.
  cbn. rewrite elem_of_difference, elem_of_singleton. by intros [_ Hx].
Qed.

(** C7. [stop] called twice in a row leaves the world exactly as one call
    does: the session is out of the room, its socket is closed and no
    wait is pending on its timer.  [stop] has no failing step, and
    [Room.leave] of a pointer that is not a member changes nothing. *)
Theorem stop_idempotent w self :
  Session.stop self (Session.stop self w) = Session.stop self w
  ∧ (self ∉ users_ (room (Session.stop self w)))
  ∧ (∀ s, heap w !! self = Some s →
       ∃ s', heap (Session.stop self w) !! self = Some s'
             ∧ is_open (socket_ s') = false ∧ timer_ s' = 0)
  ∧ (∀ (r : ChatRoom) u, u ∉ users_ r → Room.leave u r = r).
Proof.
  split; [|split; [|split]].
  - unfold Session.stop, Session.room_leave, set_heap, set_room. cbn.
    f_equal.
    + apply leave_non_member, leave_not_member.
    + rewrite alter_alter_eq. apply alter_ext. intros s _.
      apply close_and_cancel_idemp.
  - apply leave_not_member.
  - intros s Hs. exists (Session.close_and_cancel s). split; [|done].
    unfold Session.stop. cbn. by rewrite lookup_alter_eq, Hs.
  - apply leave_non_member.
Qed.

Lemma stop_idempotent_witness :
  Session.stop Scenario.ann (Session.stop Scenario.ann Scenario.started)
  = Session.stop Scenario.ann Scenario.started
  ∧ (Scenario.ann ∉ users_ (room (Session.stop Scenario.ann Scenario.started))).
Proof.
  destruct (stop_idempotent Scenario.started Scenario.ann) as (Htwice & Hout & _).
  split; [exact Htwice | exact Hout].
Defined.

End Lifecycle.

(** ** The outbound queue and the writer *)

Section Outbound.

Implicit Types (w : World) (s : ChatSession) (u v self : ptr) (msg : string).
Implicit Types (st : Session.writer_state) (es : list Session.event).

Lemma stop_heap self w v :
  heap (Session.stop self w) !! v
  = if decide (self = v) then Session.close_and_cancel <$> heap w !! v
    else heap w !! v.
Proof.
  unfold Session.stop. cbn. rewrite lookup_alter.
  by destruct (decide (self = v)) as [->|].
Qed.

Lemma call_cancel_heap self w v :
  heap (Session.call_cancel self w) !! v
  = if decide (self = v) then (fun s => (Session.cancel s).1) <$> heap w !! v
    else heap w !! v.
Proof.
  unfold Session.call_cancel.
  destruct (heap w !! self) as [s|] eqn:E.
  - destruct (Session.cancel s) as [s' out] eqn:Ec. cbn.
    case_decide as Hv.
    + subst v. rewrite lookup_insert_eq, E. cbn. by rewrite Ec.
    + by rewrite lookup_insert_ne.
  - case_decide as Hv; [|done]. subst v. by rewrite E.
Qed.

(** The three ways through the loop head. *)
Lemma writer_loop_cases self w s st' w' :
  heap w !! self = Some s →
  Session.writer_loop self w = Some (st', w') →
  (is_open (socket_ s) = false ∧ st' = Session.WriterDone
   ∧ heap w' !! self = Some s)
  ∨ (is_open (socket_ s) = true
     ∧ (∃ front rest, write_message_ s = front :: rest
                      ∧ st' = Session.Writing (Session.on_wire front))
     ∧ heap w' !! self = Some s)
  ∨ (is_open (socket_ s) = true ∧ write_message_ s = []
     ∧ st' = Session.Waiting
     ∧ heap w' !! self = Some (Session.set_timer (S (timer_ s)) s)).
Proof.
  intros Hs. unfold Session.writer_loop. rewrite Hs.
  destruct (is_open (socket_ s)) eqn:Ho.
  - destruct (write_message_ s) as [|front rest] eqn:Hq; intros [= <- <-].
    + right; right. cbn. by rewrite lookup_insert_eq.
    + right; left. eauto 10.
  - intros [= <- <-]. by left.
Qed.

Lemma writer_loop_consistent enq self w s st' w' :
  heap w !! self = Some s →
  sent (socket_ s) ++ map Session.on_wire (write_message_ s)
    = map Session.on_wire enq →
  timer_ s = 0 →
  Session.writer_loop self w = Some (st', w') →
  ∃ s', heap w' !! self = Some s' ∧ Session.consistent enq st' s'.
Proof.
  intros Hs Hflow Ht Hloop.
  destruct (writer_loop_cases _ _ _ _ _ Hs Hloop)
    as [(Ho & -> & Hs') | [(Ho & (front & rest & Hq & ->) & Hs')
                          | (Ho & Hq & -> & Hs')]].
  - exists s. split; [done|]. unfold Session.consistent.
    rewrite Ht. repeat split; try done; lia.
  - exists s. split; [done|]. unfold Session.consistent.
    rewrite Ht. repeat split; try done; try lia.
    intros buffer [= <-]. eauto.
  - eexists. split; [done|]. unfold Session.consistent. cbn.
    rewrite Ht. repeat split; try done; lia.
Qed.

Lemma step_consistent enq self e st w s st' w' :
  heap w !! self = Some s →
  Session.consistent enq st s →
  Session.step self e (st, w) = Some (st', w') →
  ∃ s', heap w' !! self = Some s'
        ∧ Session.consistent (enq ++ Session.enqueued [e]) st' s'.
Proof.
  intros Hs (Hflow & Hle & Hidle & Hwait & Hwr) Hstep.
  destruct e as [msg| | |ev]; cbn in Hstep.
  - (* deliver *)
    injection Hstep as <- <-.
    exists (Session.deliver msg s).1. split.
    { rewrite Users_deliver_heap. destruct (decide (self = self)); [|done].
      by rewrite Hs. }
    destruct (deliver_fields msg s) as (Hso & Hti & Hq & _).
    unfold Session.consistent. rewrite Hso, Hti, Hq. cbn [Session.enqueued omap].
    rewrite !map_app, app_assoc, Hflow. cbn.
    split; [done|]. split; [lia|]. split; [intros Hn; specialize (Hidle Hn); lia|].
    split; [lia|].
    intros buffer Hb. destruct (Hwr buffer Hb) as (front & rest & -> & ->).
    eauto.
  - (* cancel *)
    injection Hstep as <- <-.
    exists (Session.cancel s).1. split.
    { rewrite call_cancel_heap. destruct (decide (self = self)); [|done].
      by rewrite Hs. }
    destruct (cancel_fields s) as (Hso & Hti & Hq & _).
    unfold Session.consistent. rewrite Hso, Hti, Hq, app_nil_r.
    split; [done|]. split; [lia|]. split; [intros Hn; specialize (Hidle Hn); lia|].
    split; [lia|done].
  - (* stop *)
    injection Hstep as <- <-.
    exists (Session.close_and_cancel s). split.
    { rewrite stop_heap. destruct (decide (self = self)); [|done].
      by rewrite Hs. }
    unfold Session.consistent. cbn. rewrite app_nil_r.
    split; [done|]. split; [lia|]. split; [done|]. split; [lia|done].
  - (* the writer *)
    rewrite app_nil_r.
    destruct st as [|buffer| |], ev as [|[ec|]|]; cbn in Hstep; try done.
    + apply (writer_loop_consistent enq self w s); auto.
    + injection Hstep as <- <-.
      exists (Session.close_and_cancel s). split.
      { rewrite stop_heap. destruct (decide (self = self)); [|done].
        by rewrite Hs. }
      unfold Session.consistent. cbn.
      split; [done|]. split; [lia|]. split; [done|]. split; [done|done].
    + rewrite Hs in Hstep.
      destruct (Hwr buffer eq_refl) as (front & rest & Hq & ->).
      eapply writer_loop_consistent; [| | |exact Hstep].
      * cbn. apply lookup_insert_eq.
      * cbn. rewrite Hq. cbn. rewrite <- Hflow, Hq, <- app_assoc. done.
      * cbn. by apply Hidle.
    + rewrite Hs in Hstep.
      destruct (Nat.eqb_spec (timer_ s) 0) as [Ht|Ht]; [|done].
      apply (writer_loop_consistent enq self w s); auto.
Qed.

Lemma enqueued_app es1 es2 :
  Session.enqueued (es1 ++ es2) = Session.enqueued es1 ++ Session.enqueued es2.
Proof. unfold Session.enqueued. apply omap_app. Qed.

Lemma run_consistent enq self es st w s st' w' :
  heap w !! self = Some s →
  Session.consistent enq st s →
  Session.run self es (st, w) = Some (st', w') →
  ∃ s', heap w' !! self = Some s'
        ∧ Session.consistent (enq ++ Session.enqueued es) st' s'.
Proof.
  revert enq st w s. induction es as [|e es IH]; intros enq st w s Hs Hc Hrun.
  - injection Hrun as <- <-. exists s. by rewrite app_nil_r.
  - cbn [Session.run] in Hrun.
    destruct (Session.step self e (st, w)) as [[st1 w1]|] eqn:Hstep; [|done].
    destruct (step_consistent _ _ _ _ _ _ _ _ Hs Hc Hstep) as (s1 & Hs1 & Hc1).
    destruct (IH _ _ _ _ Hs1 Hc1 Hrun) as (s' & Hs' & Hc').
    exists s'. split; [done|].
    change (e :: es) with ([e] ++ es). by rewrite enqueued_app, app_assoc.
Qed.

Lemma new_consistent (username : string) :
  Session.consistent [] Session.writer_spawned (Session.new username).
Proof.
  unfold Session.consistent. cbn. repeat split; try done; try lia.
Qed.

(** With the socket open, the writer that reaches the loop head sends the
    whole queue, front first, one write after the other, and then waits
    on the timer. *)
Lemma writer_drains self (q : list string) w s :
  heap w !! self = Some s →
  is_open (socket_ s) = true →
  write_message_ s = q →
  ∃ st1 w1 w' s',
    Session.writer_loop self w = Some (st1, w1)
    ∧ Session.run self
        (repeat (Session.Writer (Session.WriteCompleted None)) (length q))
        (st1, w1) = Some (Session.Waiting, w')
    ∧ heap w' !! self = Some s'
    ∧ sent (socket_ s') = sent (socket_ s) ++ map Session.on_wire q
    ∧ write_message_ s' = [].
Proof.
  revert w s. induction q as [|front rest IH]; intros w s Hs Ho Hq.
  - unfold Session.writer_loop. rewrite Hs, Ho, Hq.
    do 4 eexists. split; [done|]. split; [done|]. cbn.
    rewrite lookup_insert_eq. split; [done|]. by rewrite app_nil_r.
  - set (s2 := Session.written (Session.on_wire front) s).
    set (w2 := set_heap (<[self := s2]> (heap w)) w).
    destruct (IH w2 s2) as (st1 & w1 & w' & s' & Hloop & Hrun & Hs' & Hsent & Hq').
    { cbn. apply lookup_insert_eq. }
    { done. }
    { cbn. by rewrite Hq. }
    exists (Session.Writing (Session.on_wire front)), w, w', s'.
    split. { unfold Session.writer_loop. by rewrite Hs, Ho, Hq. }
    split.
    { cbn [length repeat Session.run Session.step Session.writer fst snd].
      rewrite Hs. fold s2 w2. by rewrite Hloop. }
    split; [done|]. split; [|done].
    rewrite Hsent. cbn. by rewrite <- app_assoc.
Qed.

Lemma run_app self es1 es2 c :
  Session.run self (es1 ++ es2) c
  = match Session.run self es1 c with
    | Some c' => Session.run self es2 c'
    | None => None
    end.
Proof.
  revert c. induction es1 as [|e es1 IH]; intros c; [done|].
  cbn. destruct (Session.step self e c); [apply IH|done].
Qed.

Lemma run_delivers self (ms : list string) st w s :
  heap w !! self = Some s →
  ∃ w', Session.run self (map Session.Deliver ms) (st, w) = Some (st, w')
        ∧ heap w' !! self = Some (Session.deliver_each ms s).
Proof.
  revert w s. induction ms as [|m ms IH]; intros w s Hs.
  - exists w. done.
  - destruct (IH (Session.Users_deliver self m w) (Session.deliver m s).1)
      as (w' & Hrun & Hs').
    { rewrite Users_deliver_heap. destruct (decide (self = self)); [|done].
      by rewrite Hs. }
    exists w'. done.
Qed.

(** C5. [deliver] appends to the queue, completes the pending wait of the
    writer if there is one, leaves the socket alone, and is defined in
    every state (it has no suspension point and no failing step).  After
    any sequence of events on a session created by the listener, the
    buffers put on the connection followed by the queued messages are
    the enqueued messages in the order of their [deliver] calls, each
    followed by the terminator.  A writer suspended on the timer is
    resumed by one [deliver] and goes on to write the front of the queue;
    when every write succeeds, all enqueued messages reach the connection
    in that order. *)
Theorem session_fifo self (username : string) w0 es st w :
  heap w0 !! self = Some (Session.new username) →
  Session.run self es (Session.writer_spawned, w0) = Some (st, w) →
  ∃ s, heap w !! self = Some s
    ∧ sent (socket_ s) ++ map Session.on_wire (write_message_ s)
      = map Session.on_wire (Session.enqueued es)
    ∧ (∀ msg,
         write_message_ (Session.deliver msg s).1 = write_message_ s ++ [msg]
         ∧ timer_ (Session.deliver msg s).1 = 0
         ∧ socket_ (Session.deliver msg s).1 = socket_ s
         ∧ Session.step self (Session.Deliver msg) (st, w)
           = Some (st, Session.Users_deliver self msg w))
    ∧ (st = Session.Waiting → is_open (socket_ s) = true →
       ∀ msg, ∃ front rest w1,
         write_message_ s ++ [msg] = front :: rest
         ∧ Session.run self
             [Session.Deliver msg; Session.Writer Session.WaitCompleted] (st, w)
           = Some (Session.Writing (Session.on_wire front), w1))
    ∧ (∀ ms : list string, ∃ w' s',
         Session.run self
           (map Session.Deliver ms ++ [Session.Writer Session.Scheduled]
            ++ repeat (Session.Writer (Session.WriteCompleted None)) (length ms))
           (Session.writer_spawned, w0) = Some (Session.Waiting, w')
         ∧ heap w' !! self = Some s'
         ∧ sent (socket_ s') = map Session.on_wire ms
         ∧ write_message_ s' = []).
Proof.
  intros Hs0 Hrun.
  destruct (run_consistent [] self es _ _ _ _ _ Hs0 (new_consistent username) Hrun)
    as (s & Hs & Hflow & Hle & Hidle & Hwait & Hwr).
  exists s. split; [done|]. split; [done|]. split; [|split].
  - intros msg. destruct (deliver_fields msg s) as (Hso & Hti & Hq & _).
    rewrite Hso, Hti, Hq. repeat split; try done. lia.
  - intros -> Ho msg.
    destruct (deliver_fields msg s) as (Hso & Hti & Hq & _).
    destruct (write_message_ s ++ [msg]) as [|front rest] eqn:Hfr.
    { by destruct (write_message_ s). }
    exists front, rest. eexists. split; [done|].
    cbn [Session.run Session.step Session.writer fst snd].
    rewrite Users_deliver_heap. destruct (decide (self = self)); [|done].
    rewrite Hs. cbn [fmap option_fmap option_map].
    rewrite Hti. replace (pred (timer_ s) =? 0) with true
      by (symmetry; apply Nat.eqb_eq; lia).
    unfold Session.writer_loop.
    rewrite Users_deliver_heap. destruct (decide (self = self)); [|done].
    rewrite Hs. cbn [fmap option_fmap option_map].
    rewrite Hso, Ho, Hq. done.
  - intros ms.
    destruct (run_delivers self ms Session.writer_spawned w0 _ Hs0)
      as (w1 & Hrun1 & Hs1).
    destruct (deliver_each_fields ms (Session.new username)) as (Hso & Hq & _).
    destruct (writer_drains self ms w1 _ Hs1)
      as (st2 & w2 & w' & s' & Hloop & Hrun2 & Hs' & Hsent & Hq').
    { by rewrite Hso. }
    { by rewrite Hq. }
    exists w', s'. rewrite run_app, Hrun1.
    cbn [app Session.run Session.step Session.writer fst snd Session.writer_spawned].
    rewrite Hloop, Hrun2. split; [done|]. split; [done|].
    split; [|done]. by rewrite Hsent, Hso.
Qed.

Lemma session_fifo_witness :
  ∃ s, heap (Session.Users_deliver Scenario.ann "b"
               (Session.Users_deliver Scenario.ann "a" Scenario.created))
         !! Scenario.ann = Some s
       ∧ sent (socket_ s) ++ map Session.on_wire (write_message_ s)
         = map Session.on_wire ["a"; "b"]%string.
Proof.
  destruct (session_fifo Scenario.ann "ann" Scenario.created
              [Session.Deliver "a"; Session.Deliver "b"]
              Session.writer_spawned
              (Session.Users_deliver Scenario.ann "b"
                 (Session.Users_deliver Scenario.ann "a" Scenario.created)))
    as (s & Hs & Hflow & _); [reflexivity | reflexivity |].
  exists s. split; [exact Hs | exact Hflow].
Defined.

(** C9. [cancel] completes exactly one pending wait when there is one and
    prints the number it completed; with no wait pending the session is
    unchanged (and [0] is printed); the socket, the queue and the name
    are never touched.  A second [cancel] changes nothing in a session
    with at most one pending wait, which is every session the program
    reaches; [timer_.cancel()] as [stop] uses it is idempotent too. *)
Theorem cancel_wakes_one s :
  let s' := (Session.cancel s).1 in
  (Session.cancel s).2 = [NumCancelled (timer_ s - timer_ s')]
  ∧ (0 < timer_ s → timer_ s - timer_ s' = 1)
  ∧ (timer_ s = 0 → s' = s)
  ∧ (socket_ s' = socket_ s ∧ write_message_ s' = write_message_ s
     ∧ username_ s' = username_ s)
  ∧ (timer_ s ≤ 1 → (Session.cancel s').1 = s')
  ∧ (∀ self (username : string) w0 es st w,
       heap w0 !! self = Some (Session.new username) →
       Session.run self es (Session.writer_spawned, w0) = Some (st, w) →
       ∃ sr, heap w !! self = Some sr ∧ timer_ sr ≤ 1
             ∧ (Session.cancel (Session.cancel sr).1).1 = (Session.cancel sr).1)
  ∧ Session.close_and_cancel (Session.close_and_cancel s)
    = Session.close_and_cancel s.
Proof.
  assert (Hidem : ∀ s0, timer_ s0 ≤ 1 →
    (Session.cancel (Session.cancel s0).1).1 = (Session.cancel s0).1).
  { intros [so [|[|t]] q name] Ht; cbn in *; [done|done|lia]. }
  intros s'. subst s'. destruct s as [so t q name]. cbn [timer_].
  split. { destruct t; cbn; [done|]. do 2 f_equal. lia. }
  split. { destruct t; cbn; lia. }
  split. { intros ->. done. }
  split. { by destruct t. }
  split. { intros Ht. by apply Hidem. }
  split; [|done].
  intros self username w0 es st w Hs0 Hrun.
  destruct (run_consistent [] self es _ _ _ _ _ Hs0 (new_consistent username) Hrun)
    as (sr & Hsr & _ & Hle & _).
  exists sr. split; [done|]. split; [done|]. by apply Hidem.
Qed.

Lemma cancel_wakes_one_witness :
  let waiting := Session.set_timer 1 (Session.new "ann") in
  (Session.cancel waiting).2 = [NumCancelled 1]
  ∧ (Session.cancel (Session.new "ann")).1 = Session.new "ann".
Proof.
  intros waiting.
  destruct (cancel_wakes_one waiting) as (Hprint & _).
  destruct (cancel_wakes_one (Session.new "ann")) as (_ & _ & Hidle & _).
  split; [exact Hprint | apply Hidle; reflexivity].
Defined.

End Outbound.

(** ** The reader *)

Section Reader.

Implicit Types (w : World) (self : ptr) (s buf bytes l rest : string).

Lemma string_app_cons (c : ascii) (s1 s2 : string) :
  String c s1 +:+ s2 = String c (s1 +:+ s2).
Proof. reflexivity. Qed.

Lemma string_app_nil_l s : EmptyString +:+ s = s.
Proof. reflexivity. Qed.

Lemma string_app_nil_r s : s +:+ EmptyString = s.
Proof.
  induction s as [|c s IH]; [done|]. by rewrite string_app_cons, IH.
Qed.

Lemma string_app_assoc (s1 s2 s3 : string) :
  (s1 +:+ s2) +:+ s3 = s1 +:+ (s2 +:+ s3).
Proof.
  induction s1 as [|c s1 IH]; [done|]. by rewrite !string_app_cons, IH.
Qed.

Lemma string_length_app (s1 s2 : string) :
  String.length (s1 +:+ s2) = String.length s1 + String.length s2.
Proof.
  induction s1 as [|c s1 IH]; [done|].
  rewrite string_app_cons. cbn [String.length]. by rewrite IH.
Qed.

Lemma first_line_length s l rest :
  first_line s = Some (l, rest) →
  0 < String.length l ∧ s = l +:+ rest.
Proof.
  revert l rest. induction s as [|c s IH]; intros l rest; [done|].
  cbn [first_line]. destruct (Ascii.eqb c LF).
  - intros [= <- <-]. cbn [String.length]. split; [lia|done].
  - destruct (first_line s) as [[l' rest']|]; [|done].
    intros [= <- <-]. destruct (IH l' rest' eq_refl) as [Hl ->].
    cbn [String.length]. split; [lia|done].
Qed.

Lemma index_cons (c : ascii) s :
  String.index 0 nl (String c s)
  = if Ascii.eqb c LF then Some 0
    else match String.index 0 nl s with Some n => Some (S n) | None => None end.
Proof.
  change (String.index 0 nl (String c s)) with
    (if String.prefix nl (String c s) then Some 0
     else match String.index 0 nl s with Some n => Some (S n) | None => None end).
  change (String.prefix nl (String c s)) with
    (if ascii_dec LF c then String.prefix EmptyString s else false).
  destruct (Ascii.eqb_spec c LF) as [->|Hne].
  - destruct (ascii_dec LF LF); [|done]. by destruct s.
  - destruct (ascii_dec LF c); [congruence|done].
Qed.

(** [String.index] with the one-byte delimiter finds the first line. *)
Lemma index_first_line s :
  String.index 0 nl s
  = match first_line s with
    | Some (l, _) => Some (String.length l - 1)
    | None => None
    end.
Proof.
  induction s as [|c s IH]; [done|].
  rewrite index_cons. cbn [first_line].
  destruct (Ascii.eqb c LF); [done|].
  rewrite IH. destruct (first_line s) as [[l rest]|] eqn:E; [|done].
  destruct (first_line_length s l rest E) as [Hl _].
  cbn [String.length]. f_equal. lia.
Qed.

Lemma read_until_first_line s :
  Session.read_until s
  = match first_line s with
    | Some (l, _) => Session.Match (String.length l)
    | None =>
        if String.length s =? Session.max_size then Session.NotFound
        else Session.NeedMore
    end.
Proof.
  unfold Session.read_until. rewrite index_first_line.
  destruct (first_line s) as [[l rest]|] eqn:E; [|done].
  destruct (first_line_length s l rest E) as [Hl _].
  f_equal. cbn [nl String.length]. lia.
Qed.

Lemma substring_app_l (s1 s2 : string) :
  String.substring 0 (String.length s1) (s1 +:+ s2) = s1.
Proof.
  induction s1 as [|c s1 IH].
  - cbn. by destruct s2.
  - rewrite string_app_cons. cbn [String.length String.substring].
    by rewrite IH.
Qed.

Lemma substring_all s : String.substring 0 (String.length s) s = s.
Proof.
  rewrite <- (string_app_nil_r s) at 2. apply substring_app_l.
Qed.

Lemma substring_app_r (s1 s2 : string) (m : nat) :
  String.substring (String.length s1) m (s1 +:+ s2) = String.substring 0 m s2.
Proof.
  induction s1 as [|c s1 IH]; [done|].
  rewrite string_app_cons. cbn [String.length String.substring]. apply IH.
Qed.

(** What [substr(0, n)] and [erase(0, n)] do with the count that
    [async_read_until] returns. *)
Lemma substr_erase_first_line s l rest :
  first_line s = Some (l, rest) →
  Session.substr s 0 (String.length l) = l
  ∧ Session.erase s 0 (String.length l) = rest.
Proof.
  intros E. destruct (first_line_length s l rest E) as [_ ->].
  unfold Session.substr, Session.erase. split; [apply substring_app_l|].
  replace (String.substring 0 0 (l +:+ rest)) with EmptyString by (by destruct (l +:+ rest)).
  rewrite string_app_nil_l, string_length_app. cbn [Nat.add].
  rewrite substring_app_r.
  replace (String.length l + String.length rest - String.length l)
    with (String.length rest) by lia.
  apply substring_all.
Qed.

Lemma lines_from_first_line (acc s : string) :
  lines_from acc s
  = match first_line s with
    | Some (l, rest) => ((acc +:+ l) :: (lines rest).1, (lines rest).2)
    | None => ([], acc +:+ s)
    end.
Proof.
  revert acc. induction s as [|c s IH]; intros acc.
  - cbn. by rewrite string_app_nil_r.
  - cbn [lines_from first_line]. destruct (Ascii.eqb c LF).
    + unfold lines. by destruct (lines_from EmptyString s).
    + rewrite IH. destruct (first_line s) as [[l rest]|].
      * by rewrite string_app_assoc.
      * by rewrite string_app_assoc.
Qed.

Lemma lines_no_terminator s : first_line s = None → lines s = ([], s).
Proof. intros E. unfold lines. by rewrite lines_from_first_line, E. Qed.

Lemma lines_from_app (acc a b : string) :
  lines_from acc (a +:+ b)
  = ((lines_from acc a).1 ++ (lines_from (lines_from acc a).2 b).1,
     (lines_from (lines_from acc a).2 b).2).
Proof.
  revert acc. induction a as [|c a IH]; intros acc.
  - rewrite string_app_nil_l. cbn [lines_from fst snd app].
    by destruct (lines_from acc b).
  - rewrite string_app_cons. cbn [lines_from]. destruct (Ascii.eqb c LF).
    + rewrite (IH EmptyString). destruct (lines_from EmptyString a) as [ls rest].
      cbn [fst snd]. by destruct (lines_from rest b).
    + apply IH.
Qed.

Lemma first_line_app_none (a b : string) :
  first_line a = None →
  first_line (a +:+ b)
  = match first_line b with
    | Some (l, rest) => Some (a +:+ l, rest)
    | None => None
    end.
Proof.
  induction a as [|c a IH]; intros E.
  - rewrite string_app_nil_l. by destruct (first_line b) as [[l rest]|].
  - rewrite string_app_cons. cbn [first_line] in *.
    destruct (Ascii.eqb c LF); [done|].
    destruct (first_line a) as [[l rest]|]; [done|].
    rewrite IH by done. by destruct (first_line b) as [[l rest]|].
Qed.

Lemma first_line_app_some (a b l rest : string) :
  first_line a = Some (l, rest) →
  first_line (a +:+ b) = Some (l, rest +:+ b).
Proof.
  revert l rest. induction a as [|c a IH]; intros l rest; [done|].
  rewrite string_app_cons. cbn [first_line].
  destruct (Ascii.eqb c LF).
  - by intros [= <- <-].
  - destruct (first_line a) as [[l1 r1]|]; [|done].
    intros [= <- <-]. by rewrite (IH l1 r1).
Qed.

Lemma lines_from_rest (acc s : string) :
  first_line acc = None →
  first_line (lines_from acc s).2 = None
  ∧ String.length (lines_from acc s).2 ≤ String.length acc + String.length s.
Proof.
  revert acc. induction s as [|c s IH]; intros acc E.
  - cbn. split; [done|lia].
  - cbn [lines_from String.length].
    destruct (Ascii.eqb_spec c LF) as [->|Hc].
    + destruct (IH EmptyString eq_refl) as [H1 H2].
      destruct (lines_from EmptyString s) as [ls rest]. cbn in *. split; [done|lia].
    + destruct (IH (acc +:+ String c EmptyString)) as [H1 H2].
      { rewrite first_line_app_none by done. cbn.
        by destruct (Ascii.eqb_spec c LF). }
      rewrite string_length_app in H2. cbn in H2. split; [done|lia].
Qed.

Lemma forward_app (ls1 ls2 : list string) w :
  Session.forward (ls1 ++ ls2) w = Session.forward ls2 (Session.forward ls1 w).
Proof. unfold Session.forward. apply foldl_app. Qed.

(** The loop of the reader, in one step: it hands every terminated line of
    the buffer to the room, terminator included, and stops at the
    remainder.  Any fuel above the length of the buffer is enough. *)
Lemma reader_loop_lines (fuel : nat) self s w :
  String.length s < fuel →
  Session.reader_loop fuel self s w
  = Some (Session.settle self (lines s).2 (Session.forward (lines s).1 w)).
Proof.
  revert s w. induction fuel as [|fuel IH]; intros s w Hfuel; [lia|].
  cbn [Session.reader_loop]. rewrite read_until_first_line.
  destruct (first_line s) as [[l rest]|] eqn:E.
  - destruct (substr_erase_first_line s l rest E) as [-> ->].
    destruct (first_line_length s l rest E) as [Hl Hs].
    rewrite IH.
    2:{ rewrite Hs, string_length_app in Hfuel. lia. }
    unfold lines at 3 4. rewrite lines_from_first_line, E. done.
  - rewrite lines_no_terminator by done. cbn [fst snd Session.forward foldl].
    unfold Session.settle. by destruct (String.length s =? Session.max_size).
Qed.

Lemma can_read_length buf bytes :
  Session.can_read buf bytes = true →
  0 < String.length bytes
  ∧ String.length (buf +:+ bytes) ≤ Session.max_size.
Proof.
  unfold Session.can_read. rewrite andb_true_iff, Nat.ltb_lt, Nat.leb_le.
  rewrite string_length_app. lia.
Qed.

Lemma reader_data self buf bytes w :
  Session.can_read buf bytes = true →
  Session.reader self (Session.Reading buf) (Session.Data bytes) w
  = Some (Session.settle self (lines (buf +:+ bytes)).2
            (Session.forward (lines (buf +:+ bytes)).1 w)).
Proof.
  intros Hc. cbn [Session.reader]. rewrite Hc. cbv zeta.
  apply reader_loop_lines, Nat.lt_succ_diag_r.
Qed.

(** What the reader does with the bytes it is given: every terminated
    line of the stream goes to [Room.deliver], in order and with its
    terminator; the unterminated remainder stays in [read_message]; the
    reader stops when that remainder fills the buffer. *)
Theorem reader_run_lines self (chunks : list string) buf w st' w' :
  first_line buf = None →
  String.length buf < Session.max_size →
  Session.reader_run self (map Session.Data chunks) (Session.Reading buf) w
    = Some (st', w') →
  (st', w')
  = Session.settle self (lines (buf +:+ stream chunks)).2
      (Session.forward (lines (buf +:+ stream chunks)).1 w)
  ∧ String.length (lines (buf +:+ stream chunks)).2 ≤ Session.max_size.
Proof.
  revert buf w. induction chunks as [|chunk cs IH]; intros buf w Hbuf Hlen Hrun.
  - cbn in Hrun. injection Hrun as <- <-. cbn [stream].
    rewrite string_app_nil_r, lines_no_terminator by done.
    unfold Session.settle. cbn [fst snd Session.forward foldl].
    split; [|lia].
    destruct (Nat.eqb_spec (String.length buf) Session.max_size); [lia|done].
  - cbn [map Session.reader_run] in Hrun.
    destruct (Session.can_read buf chunk) eqn:Hc.
    2:{ cbn [Session.reader] in Hrun. by rewrite Hc in Hrun. }
    rewrite reader_data in Hrun by done.
    destruct (can_read_length buf chunk Hc) as [_ Hle].
    destruct (lines_from_rest EmptyString (buf +:+ chunk) eq_refl) as [Hrest Hrlen].
    fold (lines (buf +:+ chunk)) in Hrest, Hrlen.
    cbn [stream]. rewrite <- string_app_assoc.
    unfold lines at 1 2 3. rewrite lines_from_app.
    fold (lines (buf +:+ chunk)). cbn [fst snd].
    set (ls1 := (lines (buf +:+ chunk)).1) in *.
    set (rest1 := (lines (buf +:+ chunk)).2) in *.
    unfold Session.settle in Hrun at 1.
    destruct (Nat.eqb_spec (String.length rest1) Session.max_size) as [Hfull|Hroom].
    + destruct cs as [|c cs]; [|done]. cbn in Hrun. injection Hrun as <- <-.
      cbn [stream lines_from app fst snd]. rewrite app_nil_r.
      unfold Session.settle. split; [|lia].
      destruct (Nat.eqb_spec (String.length rest1) Session.max_size); [done|lia].
    + apply IH in Hrun; [|done|cbn [String.length] in Hrlen; lia].
      destruct Hrun as [Hrun Hbound]. revert Hbound.
      rewrite Hrun. unfold lines at 1 2 3. rewrite lines_from_app.
      fold (lines rest1). rewrite (lines_no_terminator rest1) by done.
      cbn [fst snd app]. by rewrite forward_app.
Qed.

Example reader_run_lines_example :
  (Session.Reading "wor", Session.room_deliver ("hello" +:+ nl) Scenario.started)
  = Session.settle Scenario.ann
      (lines (EmptyString +:+ stream ["hel"; "lo" +:+ nl +:+ "wor"])).2
      (Session.forward (lines (EmptyString +:+ stream ["hel"; "lo" +:+ nl +:+ "wor"])).1
         Scenario.started).
Proof.
  eapply proj1.
  apply (reader_run_lines Scenario.ann ["hel"; "lo" +:+ nl +:+ "wor"] EmptyString
           Scenario.started).
  - reflexivity.
  - unfold Session.max_size. cbn. lia.
  - vm_compute. reflexivity.
Qed.

(** C3.  The reader does not strip the terminator.  The session [ann] of
    the scenario reads the bytes "hi\n": the line handed to
    [Room.deliver], stored in the history and put in the queues of both
    members is "hi\n", not "hi", and the writer sends it followed by a
    second terminator. *)
Theorem reader_keeps_terminator :
  let w := Scenario.started in
  let w' := Session.room_deliver ("hi" +:+ nl) w in
  Session.read_until ("hi" +:+ nl) = Session.Match 3
  ∧ Session.substr ("hi" +:+ nl) 0 3 = "hi" +:+ nl
  ∧ Session.reader Scenario.ann Session.reader_spawned
      (Session.Data ("hi" +:+ nl)) w
    = Some (Session.Reading EmptyString, w')
  ∧ recent_message_ (room w') = ["hi" +:+ nl]
  ∧ write_message_ <$> heap w' !! Scenario.bob
    = Some ["Welcome to the chat, bob!"; "hi" +:+ nl]
  ∧ "hi" +:+ nl ≠ "hi"
  ∧ Session.on_wire ("hi" +:+ nl) = "hi" +:+ nl +:+ nl.
Proof.
  intros w w'. subst w w'.
  split; [reflexivity|]. split; [reflexivity|].
  split; [vm_compute; reflexivity|].
  split; [reflexivity|]. split; [vm_compute; reflexivity|].
  split; [discriminate|reflexivity].
Qed.

Lemma index_none_first_line s :
  String.index 0 nl s = None → first_line s = None.
Proof.
  rewrite index_first_line. by destruct (first_line s) as [[l rest]|].
Qed.

(** C8. Once the reads have accumulated [max_size] bytes without a
    terminator, [async_read_until] fails with [not_found]; the exception
    reaches the same handler as any failed read, which prints the error
    and calls [stop()]: the session is taken out of the room, its socket
    is closed and the wait on its timer is cancelled, as after a read that
    fails with any other error.  Nothing is handed to the room, nothing is
    queued for the client, and no other session changes. *)
Theorem oversized_line_stops self (chunks : list string) buf w st' w' :
  String.index 0 nl (buf +:+ stream chunks) = None →
  String.length buf < Session.max_size →
  Session.max_size ≤ String.length (buf +:+ stream chunks) →
  Session.reader_run self (map Session.Data chunks) (Session.Reading buf) w
    = Some (st', w') →
  st' = Session.ReaderDone
  ∧ w' = Session.reader_catch (system_error not_found) self w
  ∧ (∀ ec buf0,
       Session.reader self (Session.Reading buf0) (Session.ReadFailed ec) w
       = Some (Session.ReaderDone, Session.reader_catch (system_error ec) self w))
  ∧ (∀ ec, Session.reader_catch (system_error ec) self w
           = Session.stop self (print_cerr [AsyncReadError ec] w))
  ∧ (∀ buf0 bytes,
       Session.can_read buf0 bytes = true →
       String.index 0 nl (buf0 +:+ bytes) = None →
       String.length (buf0 +:+ bytes) = Session.max_size →
       Session.reader self (Session.Reading buf0) (Session.Data bytes) w
       = Some (Session.ReaderDone,
               Session.reader_catch (system_error not_found) self w))
  ∧ recent_message_ (room w') = recent_message_ (room w)
  ∧ (self ∉ users_ (room w'))
  ∧ heap w' !! self = Session.close_and_cancel <$> heap w !! self
  ∧ users_ (room w') = users_ (room w) ∖ {[self]}
  ∧ (∀ session : ChatSession, heap w !! self = Some session →
       heap w' !! self
       = Some {| socket_ := {| is_open := false;
                               sent := sent (socket_ session) |};
                 timer_ := 0;
                 write_message_ := write_message_ session;
                 username_ := username_ session |})
  ∧ (∀ v, v ≠ self → heap w' !! v = heap w !! v)
  ∧ cout w' = cout w
  ∧ cerr w' = cerr w ++ [AsyncReadError not_found]
  ∧ (∀ ec buf0,
       ∃ w'', Session.reader self (Session.Reading buf0)
                (Session.ReadFailed ec) w
              = Some (Session.ReaderDone, w'')
              ∧ room w'' = room w' ∧ heap w'' = heap w'
              ∧ cout w'' = cout w'
              ∧ cerr w'' = cerr w ++ [AsyncReadError ec]).
Proof.
  intros Hidx Hlen Hmax Hrun.
  apply index_none_first_line in Hidx.
  assert (Hbuf : first_line buf = None).
  { destruct (first_line buf) as [[l rest]|] eqn:E; [|done].
    by rewrite (first_line_app_some _ _ _ _ E) in Hidx. }
  apply reader_run_lines in Hrun; [|done..].
  rewrite lines_no_terminator in Hrun by done.
  cbn [fst snd Session.forward foldl] in Hrun. destruct Hrun as [Hrun Hbound].
  unfold Session.settle in Hrun.
  assert (Hst : (st', w')
                = (Session.ReaderDone,
                   Session.reader_catch (system_error not_found) self w)).
  { destruct (Nat.eqb_spec (String.length (buf +:+ stream chunks))
                Session.max_size) as [_|Hne]; [done|lia]. }
  injection Hst as -> ->.
  split; [done|]. split; [done|]. split; [done|]. split; [done|]. split.
  { intros buf0 bytes Hc Hi Hfull. rewrite reader_data by done.
    rewrite lines_no_terminator by (by apply index_none_first_line).
    cbn [fst snd Session.forward foldl]. unfold Session.settle.
    by rewrite Hfull, Nat.eqb_refl. }
  cbn [Session.reader_catch]. split; [done|]. split.
  { apply leave_not_member. }
  split; [by rewrite stop_heap, decide_True|].
  split; [done|]. split.
  { intros session Hs. rewrite stop_heap, decide_True by done.
    cbn [print_cerr heap]. by rewrite Hs. }
  split.
  { intros v Hv. by rewrite stop_heap, decide_False. }
  split; [done|]. split; [done|].
  intros ec buf0. eexists. split; [reflexivity|]. done.
Qed.

Lemma oversized_line_stops_witness :
  let w' := Session.stop Scenario.ann
              (print_cerr [AsyncReadError not_found] Scenario.started) in
  Session.reader_run Scenario.ann (map Session.Data [Scenario.long_line])
    Session.reader_spawned Scenario.started
  = Some (Session.ReaderDone, w')
  ∧ recent_message_ (room w') = recent_message_ (room Scenario.started)
  ∧ (Scenario.ann ∉ users_ (room w'))
  ∧ (is_open ∘ socket_) <$> heap w' !! Scenario.ann = Some false
  ∧ (is_open ∘ socket_) <$> heap Scenario.started !! Scenario.ann = Some true.
Proof.
  intros w'.
  assert (Hrun :
    Session.reader_run Scenario.ann (map Session.Data [Scenario.long_line])
      (Session.Reading EmptyString) Scenario.started
    = Some (Session.ReaderDone, w')) by (vm_compute; reflexivity).
  destruct (heap Scenario.started !! Scenario.ann) as [session|] eqn:Hs;
    [|vm_compute in Hs; discriminate Hs].
  destruct (oversized_line_stops Scenario.ann [Scenario.long_line] EmptyString
              Scenario.started Session.ReaderDone w')
    as (_ & _ & _ & _ & _ & Hhist & Hmem & _ & _ & Hclosed & _).
  - vm_compute. reflexivity.
  - unfold Session.max_size. cbn. lia.
  - apply Nat.leb_le. vm_compute. reflexivity.
  - exact Hrun.
  - split; [exact Hrun|]. split; [exact Hhist|]. split; [exact Hmem|].
    rewrite (Hclosed session Hs). split; [reflexivity|].
    vm_compute in Hs. by injection Hs as <-.
Defined.

End Reader.

(** ** The scenario of the specification, run *)

Section Run.

(** Eleven messages are delivered to an empty room; a user joins and gets
    the last ten in order; a second one joins and "hello" is delivered:
    both queues end with it and the history has dropped "m2". *)
Example eleven_messages_then_join :
  let ms := ["m1"; "m2"; "m3"; "m4"; "m5"; "m6"; "m7"; "m8"; "m9"; "m10"; "m11"]%string in
  let w1 := Session.forward ms Scenario.created in
  let w2 := Session.room_join Scenario.ann w1 in
  let w3 := Session.room_deliver "hello" (Session.room_join Scenario.bob w2) in
  recent_message_ (room w1) = tail ms
  ∧ write_message_ <$> heap w2 !! Scenario.ann = Some (tail ms)
  ∧ write_message_ <$> heap w2 !! Scenario.bob = Some []
  ∧ write_message_ <$> heap w3 !! Scenario.ann = Some (tail ms ++ ["hello"%string])
  ∧ write_message_ <$> heap w3 !! Scenario.bob = Some (tail ms ++ ["hello"%string])
  ∧ recent_message_ (room w3) = tail (tail ms) ++ ["hello"%string].
Proof. vm_compute. repeat split. Qed.

(** Two lines arrive in one read; a started writer sends the welcome line
    and then the first relayed line, which carries two terminators. *)
Example relay_on_the_wire :
  ∃ w st w',
    Session.reader Scenario.ann Session.reader_spawned
      (Session.Data ("one" +:+ nl +:+ "two" +:+ nl)) Scenario.started
    = Some (Session.Reading EmptyString, w)
    ∧ Session.run Scenario.bob
        [Session.Writer Session.Scheduled;
         Session.Writer (Session.WriteCompleted None);
         Session.Writer (Session.WriteCompleted None)]
        (Session.writer_spawned, w) = Some (st, w')
    ∧ sent <$> (socket_ <$> heap w' !! Scenario.bob)
      = Some ["Welcome to the chat, bob!" +:+ nl; "one" +:+ nl +:+ nl].
Proof. do 3 eexists. vm_compute. repeat split. Qed.

End Run.

(** * Further properties *)

(** ** The room under interleaved operations *)

Section RoomOps.

Implicit Types (r : ChatRoom) (ops : list Room.op) (u : ptr).

Lemma deliver_all_recent_eq (ms : list string) r r' :
  recent_message_ r = recent_message_ r' →
  recent_message_ (Room.deliver_all ms r).1
  = recent_message_ (Room.deliver_all ms r').1.
Proof.
  revert r r'. induction ms as [|m ms IH]; intros r r' Hr; [done|].
  cbn [Room.deliver_all].
  destruct (Room.deliver m r) as [r1 c1] eqn:E1.
  destruct (Room.deliver m r') as [r1' c1'] eqn:E1'.
  specialize (IH r1 r1').
  destruct (Room.deliver_all ms r1) as [r2 c2].
  destruct (Room.deliver_all ms r1') as [r2' c2'].
  cbn [fst] in *. apply IH.
  injection E1 as <- _. injection E1' as <- _. cbn. by rewrite Hr.
Qed.

Lemma run_ops_recent ops r :
  recent_message_ (run_ops ops r)
  = recent_message_ (Room.deliver_all (delivered_by ops) r).1.
Proof.
  unfold run_ops. revert r. induction ops as [|o ops IH]; intros r; [done|].
  cbn [foldl]. rewrite IH. destruct o as [u|u|m].
  - change (delivered_by (Room.Join u :: ops)) with (delivered_by ops).
    by apply deliver_all_recent_eq.
  - change (delivered_by (Room.Leave u :: ops)) with (delivered_by ops).
    by apply deliver_all_recent_eq.
  - change (delivered_by (Room.Deliver m :: ops)) with (m :: delivered_by ops).
    cbn [Room.apply Room.deliver_all].
    destruct (Room.deliver m r) as [r1 c1]. cbn [fst].
    by destruct (Room.deliver_all (delivered_by ops) r1).
Qed.

Lemma run_ops_users_eq ops r r' :
  users_ r = users_ r' → users_ (run_ops ops r) = users_ (run_ops ops r').
Proof.
  unfold run_ops. revert r r'. induction ops as [|o ops IH]; intros r r' Hr; [done|].
  cbn [foldl]. apply IH. destruct o as [u|u|m]; cbn; by rewrite ?Hr.
Qed.

Lemma run_ops_users ops r :
  users_ (run_ops ops r) = users_ (run_ops (membership_of ops) r).
Proof.
  revert r. induction ops as [|o ops IH]; intros r; [done|].
  destruct o as [u|u|m].
  - apply (IH (Room.apply (Room.Join u) r)).
  - apply (IH (Room.apply (Room.Leave u) r)).
  - change (membership_of (Room.Deliver m :: ops)) with (membership_of ops).
    change (run_ops (Room.Deliver m :: ops) r)
      with (run_ops ops (Room.apply (Room.Deliver m) r)).
    rewrite <- IH. by apply run_ops_users_eq.
Qed.

(** However joins and leaves are interleaved with deliveries, the history
    of a room that started empty is the last ten of the messages delivered,
    in order; and the set of members is the one the joins and leaves alone
    produce. *)
Theorem history_ignores_membership ops r :
  recent_message_ r = [] →
  recent_message_ (run_ops ops r)
  = drop (length (delivered_by ops) - 10) (delivered_by ops)
  ∧ users_ (run_ops ops r) = users_ (run_ops (membership_of ops) r).
Proof.
  intros Hr. split; [|apply run_ops_users].
  rewrite run_ops_recent. by apply deliver_all_from_empty.
Qed.

Lemma history_ignores_membership_witness :
  recent_message_
    (run_ops [Room.Join 1; Room.Deliver "a"; Room.Leave 1; Room.Deliver "b"]
       Room.init)
  = ["a"; "b"].
Proof.
  exact (proj1 (history_ignores_membership
    [Room.Join 1; Room.Deliver "a"; Room.Leave 1; Room.Deliver "b"]
    Room.init eq_refl)).
Defined.

Lemma join_then_leave r u :
  u ∉ users_ r →
  Room.leave u (Room.join u r).1 = r
  ∧ (u ∈ users_ (Room.join u r).1).
Proof.
  intros Hu. destruct r as [members h]. cbn in *. split.
  - unfold Room.leave. cbn. f_equal. apply set_eq. intros x.
    rewrite elem_of_difference, elem_of_union, !elem_of_singleton.
    split; [intros [[->|Hx] Hne]; done|].
    intros Hx. split; [by right|]. congruence.
  - apply elem_of_union_l. by apply elem_of_singleton.
Qed.

End RoomOps.

(** ** Sessions that stop *)

Section Stopping.

Implicit Types (w : World) (s : ChatSession) (u v self : ptr) (msg : string).
Implicit Types (st : Session.writer_state) (es : list Session.event).

Lemma start_room self w :
  room (Session.start self w) = (Room.join self (room w)).1.
Proof.
  unfold Session.start. destruct (heap (Session.room_join self w) !! self).
  - by rewrite Users_deliver_room, room_join_room.
  - apply room_join_room.
Qed.

(** A session that is started and stopped leaves the room as it found it,
    members and history, and is closed; no other session object changes.
    Only its own queue keeps the replayed history and the welcome line. *)
Theorem start_then_stop w self s :
  heap w !! self = Some s →
  self ∉ users_ (room w) →
  let w' := Session.stop self (Session.start self w) in
  room w' = room w
  ∧ (∀ v, v ≠ self → heap w' !! v = heap w !! v)
  ∧ (∃ s', heap w' !! self = Some s'
           ∧ is_open (socket_ s') = false
           ∧ write_message_ s'
             = write_message_ s ++ recent_message_ (room w)
               ++ [("Welcome to the chat, " +:+ username_ s +:+ "!")%string]).
Proof.
  intros Hs Hu w'. subst w'.
  assert (Hj : heap (Session.room_join self w) !! self
               = Some (Session.deliver_each (recent_message_ (room w)) s)).
  { rewrite room_join_heap. cbn [Room.join snd].
    by rewrite calls_on_same, fmap_snd_pair, Hs. }
  destruct (deliver_each_fields (recent_message_ (room w)) s) as (_ & Hq & Hname).
  split; [|split].
  - unfold Session.stop, Session.room_leave. cbn [room set_heap set_room].
    rewrite start_room. by apply join_then_leave.
  - intros v Hv. rewrite stop_heap, decide_False by done.
    unfold Session.start. rewrite Hj, Users_deliver_heap, decide_False by done.
    rewrite room_join_heap. cbn [Room.join snd].
    rewrite calls_on_other by done. cbn. by destruct (heap w !! v).
  - rewrite stop_heap, decide_True by done.
    unfold Session.start. rewrite Hj, Users_deliver_heap, decide_True by done.
    rewrite Hj. cbn [fmap option_fmap option_map]. eexists. split; [done|].
    split; [done|]. cbn [Session.close_and_cancel write_message_].
    destruct (deliver_fields
      ("Welcome to the chat, "
       +:+ username_ (Session.deliver_each (recent_message_ (room w)) s) +:+ "!")
      (Session.deliver_each (recent_message_ (room w)) s)) as (_ & _ & -> & _).
    by rewrite Hq, Hname, <- app_assoc.
Qed.

Lemma start_then_stop_witness :
  room (Session.stop Scenario.ann (Session.start Scenario.ann Scenario.created))
  = room Scenario.created.
Proof.
  destruct (start_then_stop Scenario.created Scenario.ann (Session.new "ann"))
    as (Hroom & _); [reflexivity | apply not_elem_of_empty | exact Hroom].
Defined.


Lemma closed_run_step self e st w s st1 w1 :
  heap w !! self = Some s →
  is_open (socket_ s) = false →
  Session.step self e (st, w) = Some (st1, w1) →
  ∃ s1, heap w1 !! self = Some s1
        ∧ is_open (socket_ s1) = false
        ∧ ((st1 = st ∧ sent (socket_ s1) = sent (socket_ s))
           ∨ (st1 = Session.WriterDone
              ∧ (sent (socket_ s1) = sent (socket_ s)
                 ∨ ∃ buffer, st = Session.Writing buffer
                             ∧ sent (socket_ s1) = sent (socket_ s) ++ [buffer]))).
Proof.
  intros Hs Hc Hstep. destruct e as [msg| | |ev]; cbn in Hstep.
  - injection Hstep as <- <-. exists (Session.deliver msg s).1.
    rewrite Users_deliver_heap, decide_True, Hs by done.
    destruct (deliver_fields msg s) as (-> & _). eauto 10.
  - injection Hstep as <- <-. exists (Session.cancel s).1.
    rewrite call_cancel_heap, decide_True, Hs by done.
    destruct (cancel_fields s) as (-> & _). eauto 10.
  - injection Hstep as <- <-. exists (Session.close_and_cancel s).
    rewrite stop_heap, decide_True, Hs by done. eauto 10.
  - destruct st as [|buffer| |], ev as [|[ec|]|]; cbn in Hstep; try done.
    + unfold Session.writer_loop in Hstep. rewrite Hs, Hc in Hstep.
      injection Hstep as <- <-. exists s. eauto 10.
    + injection Hstep as <- <-. exists (Session.close_and_cancel s).
      rewrite stop_heap, decide_True, Hs by done. eauto 10.
    + rewrite Hs in Hstep. unfold Session.writer_loop in Hstep. cbn in Hstep.
      rewrite lookup_insert_eq in Hstep. cbn in Hstep. rewrite Hc in Hstep.
      injection Hstep as <- <-. exists (Session.written buffer s).
      cbn. rewrite lookup_insert_eq. split; [done|]. split; [done|].
      right. split; [done|]. right. by exists buffer.
    + rewrite Hs in Hstep. destruct (timer_ s =? 0); [|done].
      unfold Session.writer_loop in Hstep. rewrite Hs, Hc in Hstep.
      injection Hstep as <- <-. exists s. eauto 10.
Qed.

(** Once the socket of a session is closed, nothing that is enqueued and no
    resumption of the writer puts anything more on the connection, except
    the one write that was in flight when the socket was closed. *)
Theorem closed_socket_sends_no_more self es st w s st' w' :
  heap w !! self = Some s →
  is_open (socket_ s) = false →
  Session.run self es (st, w) = Some (st', w') →
  ∃ s', heap w' !! self = Some s'
        ∧ is_open (socket_ s') = false
        ∧ (sent (socket_ s') = sent (socket_ s)
           ∨ ∃ buffer, st = Session.Writing buffer
                       ∧ sent (socket_ s') = sent (socket_ s) ++ [buffer]).
Proof.
  revert st w s. induction es as [|e es IH]; intros st w s Hs Hc Hrun.
  - injection Hrun as <- <-. exists s. auto.
  - cbn [Session.run] in Hrun.
    destruct (Session.step self e (st, w)) as [[st1 w1]|] eqn:Hstep; [|done].
    destruct (closed_run_step _ _ _ _ _ _ _ Hs Hc Hstep)
      as (s1 & Hs1 & Hc1 & Hcase).
    destruct (IH _ _ _ Hs1 Hc1 Hrun) as (s' & Hs' & Hc' & Hsent).
    exists s'. split; [done|]. split; [done|].
    destruct Hcase as [[-> Heq] | [-> Hdone]].
    + rewrite <- Heq. exact Hsent.
    + destruct Hsent as [Hsame | (b & Hb & _)]; [|done].
      rewrite Hsame. exact Hdone.
Qed.

Lemma closed_socket_sends_no_more_witness :
  let w := Session.stop Scenario.ann Scenario.started in
  ∃ s', heap (Session.Users_deliver Scenario.ann "late" w) !! Scenario.ann = Some s'
        ∧ sent (socket_ s') = [].
Proof.
  intros w.
  destruct (closed_socket_sends_no_more Scenario.ann
              [Session.Deliver "late"; Session.Writer Session.Scheduled]
              Session.AtLoop w
              (Session.close_and_cancel
                 (Session.deliver "Welcome to the chat, ann!" (Session.new "ann")).1)
              Session.WriterDone (Session.Users_deliver Scenario.ann "late" w))
    as (s' & Hs' & _ & [Hsent | (b & Hb & _)]);
    [reflexivity | reflexivity | reflexivity | | discriminate Hb].
  exists s'. split; [exact Hs' | exact Hsent].
Defined.

End Stopping.

(** ** The writer never sleeps on a queued message *)

Section Wakeups.

Implicit Types (w : World) (s : ChatSession) (self : ptr).
Implicit Types (st : Session.writer_state) (es : list Session.event).

Lemma step_done_closed self e st w s st1 w1 :
  heap w !! self = Some s →
  (st = Session.WriterDone → is_open (socket_ s) = false) →
  Session.step self e (st, w) = Some (st1, w1) →
  ∃ s1, heap w1 !! self = Some s1
        ∧ (st1 = Session.WriterDone → is_open (socket_ s1) = false).
Proof.
  intros Hs Hd Hstep. destruct e as [msg| | |ev]; cbn in Hstep.
  - injection Hstep as <- <-. exists (Session.deliver msg s).1.
    rewrite Users_deliver_heap, decide_True, Hs by done.
    destruct (deliver_fields msg s) as (-> & _). done.
  - injection Hstep as <- <-. exists (Session.cancel s).1.
    rewrite call_cancel_heap, decide_True, Hs by done.
    destruct (cancel_fields s) as (-> & _). done.
  - injection Hstep as <- <-. exists (Session.close_and_cancel s).
    rewrite stop_heap, decide_True, Hs by done. done.
  - assert (Hloop : ∀ w0 s0, heap w0 !! self = Some s0 →
      Session.writer_loop self w0 = Some (st1, w1) →
      ∃ s1, heap w1 !! self = Some s1
            ∧ (st1 = Session.WriterDone → is_open (socket_ s1) = false)).
    { intros w0 s0 Hs0 Hl.
      destruct (writer_loop_cases _ _ _ _ _ Hs0 Hl)
        as [(Ho & -> & Hs') | [(Ho & (front & rest & Hq & ->) & Hs')
                              | (Ho & Hq & -> & Hs')]];
        (eexists; split; [exact Hs'|]; by intros ?). }
    destruct st as [|buffer| |], ev as [|[ec|]|]; cbn in Hstep; try done.
    + by apply (Hloop w s).
    + injection Hstep as <- <-. exists (Session.close_and_cancel s).
      rewrite stop_heap, decide_True, Hs by done. done.
    + rewrite Hs in Hstep. eapply Hloop; [|exact Hstep].
      cbn. apply lookup_insert_eq.
    + rewrite Hs in Hstep. destruct (timer_ s =? 0); [|done].
      by apply (Hloop w s).
Qed.

Lemma run_done_closed self es st w s st' w' :
  heap w !! self = Some s →
  (st = Session.WriterDone → is_open (socket_ s) = false) →
  Session.run self es (st, w) = Some (st', w') →
  ∃ s', heap w' !! self = Some s'
        ∧ (st' = Session.WriterDone → is_open (socket_ s') = false).
Proof.
  revert st w s. induction es as [|e es IH]; intros st w s Hs Hd Hrun.
  - injection Hrun as <- <-. eauto.
  - cbn [Session.run] in Hrun.
    destruct (Session.step self e (st, w)) as [[st1 w1]|] eqn:Hstep; [|done].
    destruct (step_done_closed _ _ _ _ _ _ _ Hs Hd Hstep) as (s1 & Hs1 & Hd1).
    eauto.
Qed.

(** In every state a session reaches after its creation, an open socket
    and a queued message mean that the writer is sending the front of the
    queue, or that it can be resumed at once and then starts to send it: no
    message waits behind a writer that sleeps on a pending wait, and the
    writer has not returned. *)
Theorem no_message_stranded self (username : string) w0 es st w :
  heap w0 !! self = Some (Session.new username) →
  Session.run self es (Session.writer_spawned, w0) = Some (st, w) →
  ∃ s, heap w !! self = Some s
    ∧ (is_open (socket_ s) = true →
       ∀ front rest, write_message_ s = front :: rest →
       match st with
       | Session.AtLoop =>
           Session.writer self st Session.Scheduled w
           = Some (Session.Writing (Session.on_wire front), w)
       | Session.Writing buffer => buffer = Session.on_wire front
       | Session.Waiting =>
           Session.writer self st Session.WaitCompleted w
           = Some (Session.Writing (Session.on_wire front), w)
       | Session.WriterDone => False
       end).
Proof.
  intros Hs0 Hrun.
  destruct (run_consistent [] self es _ _ _ _ _ Hs0 (new_consistent username) Hrun)
    as (s & Hs & _ & Hle & Hidle & Hwait & Hwr).
  assert (Hinit : Session.writer_spawned = Session.WriterDone →
                  is_open (socket_ (Session.new username)) = false) by done.
  destruct (run_done_closed self es _ _ _ _ _ Hs0 Hinit Hrun)
    as (s2 & Hs2 & Hdone).
  rewrite Hs in Hs2. injection Hs2 as <-.
  exists s. split; [done|]. intros Ho front rest Hq.
  destruct st as [|buffer| |].
  - cbn. unfold Session.writer_loop. by rewrite Hs, Ho, Hq.
  - destruct (Hwr buffer eq_refl) as (front' & rest' & Hq' & ->).
    rewrite Hq in Hq'. by injection Hq' as <- _.
  - assert (Ht : timer_ s = 0).
    { destruct (decide (timer_ s = 1)) as [H1|H1]; [|lia].
      specialize (Hwait eq_refl H1). by rewrite Hq in Hwait. }
    cbn. rewrite Hs, Ht. cbn. unfold Session.writer_loop.
    by rewrite Hs, Ho, Hq.
  - rewrite Hdone in Ho by done. done.
Qed.

Lemma no_message_stranded_witness :
  let w := Session.Users_deliver Scenario.ann "a" Scenario.created in
  Session.writer Scenario.ann Session.AtLoop Session.Scheduled w
  = Some (Session.Writing (Session.on_wire "a"), w).
Proof.
  intros w.
  destruct (no_message_stranded Scenario.ann "ann" Scenario.created
              [Session.Deliver "a"] Session.AtLoop w)
    as (s & Hs & Hfront); [reflexivity | reflexivity |].
  assert (s = (Session.deliver "a" (Session.new "ann")).1) as ->.
  { assert (heap w !! Scenario.ann
            = Some (Session.deliver "a" (Session.new "ann")).1) as Hw
      by reflexivity.
    rewrite Hw in Hs. by injection Hs. }
  exact (Hfront eq_refl "a" [] eq_refl).
Defined.

End Wakeups.

(** ** Lines at the reader *)

Section ReaderBounds.

Implicit Types (w : World) (self : ptr) (buf bytes content : string).

Lemma lines_one_line content :
  first_line content = None →
  lines (content +:+ nl) = ([content +:+ nl], EmptyString).
Proof.
  intros Hc. unfold lines.
  rewrite lines_from_first_line, first_line_app_none by done.
  cbn [first_line nl]. rewrite Ascii.eqb_refl. done.
Qed.

(** A line of up to 1023 bytes and its terminator is accepted, however the
    reads split it: when the read that brings the terminator completes, the
    line goes to the room, terminator included, and the buffer is empty
    again.  (At 1024 bytes without a terminator the session is stopped.) *)
Theorem line_within_limit_forwarded self buf bytes content w :
  buf +:+ bytes = content +:+ nl →
  String.index 0 nl content = None →
  String.length content < Session.max_size →
  0 < String.length bytes →
  Session.reader self (Session.Reading buf) (Session.Data bytes) w
  = Some (Session.Reading EmptyString,
          Session.room_deliver (content +:+ nl) w).
Proof.
  intros Heq Hidx Hlen Hbytes.
  assert (Hsum : String.length buf + String.length bytes
                 = String.length content + 1).
  { pose proof (f_equal String.length Heq) as Hl.
    by rewrite !string_length_app in Hl. }
  rewrite reader_data.
  2:{ unfold Session.can_read. apply andb_true_iff.
      rewrite Nat.ltb_lt, Nat.leb_le. lia. }
  rewrite Heq, lines_one_line by (by apply index_none_first_line).
  done.
Qed.

Lemma line_within_limit_forwarded_witness :
  Session.reader Scenario.ann (Session.Reading "hel")
    (Session.Data ("lo" +:+ nl)) Scenario.started
  = Some (Session.Reading EmptyString,
          Session.room_deliver ("hello" +:+ nl) Scenario.started).
Proof.
  apply (line_within_limit_forwarded Scenario.ann "hel" ("lo" +:+ nl) "hello").
  - reflexivity.
  - reflexivity.
  - unfold Session.max_size. cbn. lia.
  - apply Nat.ltb_lt. vm_compute. reflexivity.
Defined.

Lemma reader_run_app self (script1 script2 : list Session.read_event) st w :
  Session.reader_run self (script1 ++ script2) st w
  = match Session.reader_run self script1 st w with
    | Some (st1, w1) => Session.reader_run self script2 st1 w1
    | None => None
    end.
Proof.
  revert st w. induction script1 as [|ev script1 IH]; intros st w; [done|].
  cbn. destruct (Session.reader self st ev w) as [[st1 w1]|]; [apply IH|done].
Qed.

Lemma Users_deliver_cerr (u : ptr) (msg : string) w :
  cerr (Session.Users_deliver u msg w) = cerr w.
Proof.
  unfold Session.Users_deliver. destruct (heap w !! u); [|done].
  by destruct (Session.deliver msg _).
Qed.

Lemma dispatch_cerr (calls : list call) w :
  cerr (Session.dispatch calls w) = cerr w.
Proof.
  revert w. induction calls as [|c calls IH]; intros w; [done|].
  cbn. unfold Session.dispatch in IH. by rewrite IH, Users_deliver_cerr.
Qed.

Lemma room_deliver_frame (msg : string) w (v : ptr) :
  users_ (room (Session.room_deliver msg w)) = users_ (room w)
  ∧ cerr (Session.room_deliver msg w) = cerr w
  ∧ (is_Some (heap w !! v) → is_Some (heap (Session.room_deliver msg w) !! v)).
Proof.
  split; [|split].
  - unfold Session.room_deliver. cbn. by rewrite dispatch_room.
  - unfold Session.room_deliver. cbn. by rewrite dispatch_cerr.
  - rewrite room_deliver_heap. intros [s0 ->]. by eexists.
Qed.

Lemma forward_frame (ls : list string) w (v : ptr) :
  users_ (room (Session.forward ls w)) = users_ (room w)
  ∧ cerr (Session.forward ls w) = cerr w
  ∧ (is_Some (heap w !! v) → is_Some (heap (Session.forward ls w) !! v)).
Proof.
  revert w. induction ls as [|l ls IH]; intros w; [done|].
  change (Session.forward (l :: ls) w)
    with (Session.forward ls (Session.room_deliver l w)).
  destruct (IH (Session.room_deliver l w)) as (-> & -> & Hheap).
  destruct (room_deliver_frame l w v) as (-> & -> & Hheap1). auto.
Qed.

(** When the connection ends, the bytes read since the last terminator are
    dropped: the room has received exactly the terminated lines of the
    stream, and the handler of the failed read prints the error and stops
    the session: it is taken out of the room, its socket is closed and the
    wait on its timer is cancelled, while the history and the other
    sessions stay as the forwarded lines left them. *)
Theorem unterminated_tail_dropped self (chunks : list string)
    (ec : error_code) w st' w' :
  Session.reader_run self
    (map Session.Data chunks ++ [Session.ReadFailed ec])
    Session.reader_spawned w = Some (st', w') →
  st' = Session.ReaderDone
  ∧ w' = Session.reader_catch (system_error ec) self
           (Session.forward (lines (stream chunks)).1 w)
  ∧ recent_message_ (room w')
    = recent_message_ (room (Session.forward (lines (stream chunks)).1 w))
  ∧ users_ (room w') = users_ (room w) ∖ {[self]}
  ∧ (∀ session : ChatSession,
       heap (Session.forward (lines (stream chunks)).1 w) !! self
         = Some session →
       heap w' !! self
       = Some {| socket_ := {| is_open := false;
                               sent := sent (socket_ session) |};
                 timer_ := 0;
                 write_message_ := write_message_ session;
                 username_ := username_ session |})
  ∧ (is_Some (heap w !! self) →
     ∃ session' : ChatSession,
       heap w' !! self = Some session'
       ∧ is_open (socket_ session') = false ∧ timer_ session' = 0)
  ∧ (∀ v, v ≠ self →
       heap w' !! v
       = heap (Session.forward (lines (stream chunks)).1 w) !! v)
  ∧ cerr w' = cerr w ++ [AsyncReadError ec].
Proof.
  rewrite reader_run_app. intros Hrun.
  destruct (Session.reader_run self (map Session.Data chunks)
              Session.reader_spawned w) as [[st1 w1]|] eqn:Hdata; [|done].
  apply reader_run_lines in Hdata; [|done|unfold Session.max_size; cbn; lia].
  destruct Hdata as [Hdata _]. rewrite string_app_nil_l in Hdata.
  unfold Session.settle in Hdata.
  destruct (String.length (lines (stream chunks)).2 =? Session.max_size).
  - injection Hdata as -> ->. done.
  - injection Hdata as -> ->. cbn [Session.reader_run Session.reader] in Hrun.
    injection Hrun as <- <-.
    destruct (forward_frame (lines (stream chunks)).1 w self)
      as (Husers & Hcerr & Hheap).
    cbn [Session.reader_catch].
    split; [done|]. split; [done|]. split; [done|]. split.
    { cbn. by rewrite Husers. }
    split.
    { intros session Hs. rewrite stop_heap, decide_True by done.
      cbn [print_cerr heap]. by rewrite Hs. }
    split.
    { intros [session Hs]%Hheap.
      rewrite stop_heap, decide_True by done.
      cbn [print_cerr heap]. rewrite Hs.
      by exists (Session.close_and_cancel session). }
    split.
    { intros v Hv. by rewrite stop_heap, decide_False. }
    cbn. by rewrite Hcerr.
Qed.

Lemma unterminated_tail_dropped_witness :
  match Session.reader_run Scenario.ann
          (map Session.Data ["one" +:+ nl +:+ "tw"; "o"]
             ++ [Session.ReadFailed eof])
          Session.reader_spawned Scenario.started with
  | Some (st', w') =>
      recent_message_ (room w') = ["one" +:+ nl]
      ∧ Scenario.ann ∈ users_ (room Scenario.started)
      ∧ users_ (room w') = users_ (room Scenario.started) ∖ {[Scenario.ann]}
      ∧ (is_open ∘ socket_) <$> heap w' !! Scenario.ann = Some false
  | None => False
  end.
Proof.
  destruct (Session.reader_run Scenario.ann _ Session.reader_spawned
              Scenario.started) as [[st' w']|] eqn:Hrun;
    [|vm_compute in Hrun; discriminate Hrun].
  destruct (unterminated_tail_dropped Scenario.ann
              ["one" +:+ nl +:+ "tw"; "o"] eof Scenario.started st' w' Hrun)
    as (_ & Hw' & Hhist & Husers & _ & Hclosed & _).
  split.
  { rewrite Hhist. vm_compute. reflexivity. }
  split.
  { apply (bool_decide_unpack _). vm_compute. exact I. }
  split; [exact Husers|].
  destruct Hclosed as (session' & -> & Hopen & _).
  { vm_compute. eexists. reflexivity. }
  cbn. by rewrite Hopen.
Defined.

(** What the reader hands to the room depends on the bytes it is given
    and not on how the reads split them: two sequences of reads with the
    same bytes end in the same state, with every terminated line forwarded
    in order and the unterminated rest kept in the buffer. *)
Theorem reader_ignores_read_boundaries self (chunks1 chunks2 : list string) w
    (r1 r2 : Session.reader_state * World) :
  stream chunks1 = stream chunks2 →
  Session.reader_run self (map Session.Data chunks1) Session.reader_spawned w
    = Some r1 →
  Session.reader_run self (map Session.Data chunks2) Session.reader_spawned w
    = Some r2 →
  r1 = r2
  ∧ r1 = Session.settle self (lines (stream chunks1)).2
           (Session.forward (lines (stream chunks1)).1 w).
Proof.
  intros Heq H1 H2. destruct r1 as [st1 w1], r2 as [st2 w2].
  apply reader_run_lines in H1 as [H1 _];
    [|done|unfold Session.max_size; cbn; lia].
  apply reader_run_lines in H2 as [H2 _];
    [|done|unfold Session.max_size; cbn; lia].
  rewrite string_app_nil_l in H1, H2. rewrite <- Heq in H2.
  split; [congruence|done].
Qed.

Lemma reader_ignores_read_boundaries_witness :
  Session.reader_run Scenario.ann
    (map Session.Data ["hel"; "lo" +:+ nl +:+ "wor"])
    Session.reader_spawned Scenario.started
  = Session.reader_run Scenario.ann
      (map Session.Data ["hello" +:+ nl; "w"; "or"])
      Session.reader_spawned Scenario.started.
Proof.
  destruct (Session.reader_run Scenario.ann
              (map Session.Data ["hel"; "lo" +:+ nl +:+ "wor"])
              Session.reader_spawned Scenario.started) as [r1|] eqn:H1.
  2:{ vm_compute in H1. discriminate H1. }
  destruct (Session.reader_run Scenario.ann
              (map Session.Data ["hello" +:+ nl; "w"; "or"])
              Session.reader_spawned Scenario.started) as [r2|] eqn:H2.
  2:{ vm_compute in H2. discriminate H2. }
  f_equal.
  apply (reader_ignores_read_boundaries Scenario.ann
           ["hel"; "lo" +:+ nl +:+ "wor"] ["hello" +:+ nl; "w"; "or"]
           Scenario.started r1 r2); [reflexivity | exact H1 | exact H2].
Defined.

End ReaderBounds.

(** ** The server as a whole *)

Section ServerInvariant.

Implicit Types (w : World) (s : ChatSession) (u v p self : ptr) (msg : string).
Implicit Types (sv : Server.t) (acts : list Server.action).

Lemma openness_Users_deliver u msg w v :
  Server.openness (Session.Users_deliver u msg w) v = Server.openness w v.
Proof.
  unfold Server.openness. rewrite Users_deliver_heap.
  destruct (decide (u = v)) as [->|Hne]; [|done].
  destruct (heap w !! v) as [s|]; [|done]. cbn.
  by destruct (deliver_fields msg s) as (-> & _).
Qed.

Lemma dom_Users_deliver u msg w :
  dom (heap (Session.Users_deliver u msg w)) = dom (heap w).
Proof.
  unfold Session.Users_deliver. destruct (heap w !! u) as [s|] eqn:E; [|done].
  destruct (Session.deliver msg s) as [s' out]. cbn.
  by apply dom_insert_lookup_L.
Qed.

Lemma openness_dispatch (calls : list call) w v :
  Server.openness (Session.dispatch calls w) v = Server.openness w v.
Proof.
  revert w. induction calls as [|c calls IH]; intros w; [done|].
  cbn. unfold Session.dispatch in IH. by rewrite IH, openness_Users_deliver.
Qed.

Lemma dom_dispatch (calls : list call) w :
  dom (heap (Session.dispatch calls w)) = dom (heap w).
Proof.
  revert w. induction calls as [|c calls IH]; intros w; [done|].
  cbn. unfold Session.dispatch in IH. by rewrite IH, dom_Users_deliver.
Qed.

Lemma room_deliver_room msg w :
  room (Session.room_deliver msg w) = (Room.deliver msg (room w)).1.
Proof. unfold Session.room_deliver. cbn. by rewrite dispatch_room. Qed.

Lemma world_sound_room_deliver msg w :
  Server.world_sound w →
  Server.world_sound (Session.room_deliver msg w)
  ∧ dom (heap (Session.room_deliver msg w)) = dom (heap w).
Proof.
  intros [Hmem Hlen]. split; [split|].
  - intros p. rewrite room_deliver_room. cbn [Room.deliver fst users_].
    unfold Session.room_deliver. cbn. rewrite openness_dispatch. apply Hmem.
  - rewrite room_deliver_room. cbn. rewrite pop_excess_length. lia.
  - unfold Session.room_deliver. cbn. by rewrite dom_dispatch.
Qed.

Lemma openness_stop self w v :
  Server.openness (Session.stop self w) v
  = if decide (self = v) then (fun _ => false) <$> Server.openness w v
    else Server.openness w v.
Proof.
  unfold Server.openness. rewrite stop_heap.
  destruct (decide (self = v)); [|done]. by destruct (heap w !! v).
Qed.

Lemma world_sound_stop self w :
  Server.world_sound w →
  Server.world_sound (Session.stop self w)
  ∧ dom (heap (Session.stop self w)) = dom (heap w).
Proof.
  intros [Hmem Hlen]. split; [split|].
  - intros p. rewrite openness_stop. unfold Session.stop. cbn.
    rewrite elem_of_difference, elem_of_singleton, Hmem.
    destruct (decide (self = p)) as [->|Hne].
    + split; [by intros [_ Hp]|]. by destruct (Server.openness w p).
    + split; [by intros [Hp _]|]. intros Hp. split; [done|congruence].
  - done.
  - unfold Session.stop. cbn. apply dom_alter_L.
Qed.

Lemma world_sound_print_cerr (ls : list line) w :
  Server.world_sound w → Server.world_sound (print_cerr ls w).
Proof. done. Qed.

Lemma world_sound_reader_catch (e : exn) self w :
  Server.world_sound w →
  Server.world_sound (Session.reader_catch e self w)
  ∧ dom (heap (Session.reader_catch e self w)) = dom (heap w).
Proof.
  intros Hw. destruct e as [ec|]; cbn.
  - by apply (world_sound_stop self (print_cerr [AsyncReadError ec] w)).
  - by apply world_sound_stop.
Qed.

Lemma world_sound_reader_loop (fuel : nat) self (buf : string) w st' w' :
  Server.world_sound w →
  Session.reader_loop fuel self buf w = Some (st', w') →
  Server.world_sound w' ∧ dom (heap w') = dom (heap w).
Proof.
  revert buf w. induction fuel as [|fuel IH]; intros buf w Hw; [done|].
  cbn [Session.reader_loop]. destruct (Session.read_until buf) as [n| |].
  - intros Hloop. apply IH in Hloop as [Hw' Hdom].
    + split; [done|]. rewrite Hdom. by apply world_sound_room_deliver.
    + by apply world_sound_room_deliver.
  - intros [= <- <-].
    by apply (world_sound_reader_catch (system_error not_found) self w).
  - by intros [= <- <-].
Qed.

Lemma world_sound_reader self (st : Session.reader_state)
    (ev : Session.read_event) w st' w' :
  Server.world_sound w →
  Session.reader self st ev w = Some (st', w') →
  Server.world_sound w' ∧ dom (heap w') = dom (heap w).
Proof.
  intros Hw. destruct st as [buf|], ev as [bytes|ec];
    cbn [Session.reader]; try done.
  - destruct (Session.can_read buf bytes); [|done]. cbv zeta.
    by apply world_sound_reader_loop.
  - intros [= <- <-].
    by apply (world_sound_reader_catch (system_error ec) self w).
Qed.

Lemma world_sound_update p s s' w :
  Server.world_sound w →
  heap w !! p = Some s →
  is_open (socket_ s') = is_open (socket_ s) →
  Server.world_sound (set_heap (<[p := s']> (heap w)) w)
  ∧ dom (heap (set_heap (<[p := s']> (heap w)) w)) = dom (heap w).
Proof.
  intros [Hmem Hlen] Hs Ho. split; [split; [|done]|].
  - intros v. rewrite Hmem. unfold Server.openness. cbn [heap set_heap].
    destruct (decide (p = v)) as [->|Hne].
    + rewrite lookup_insert_eq, Hs. cbn. by rewrite Ho.
    + by rewrite lookup_insert_ne.
  - cbn. by apply dom_insert_lookup_L.
Qed.

Lemma world_sound_writer_loop self w st' w' :
  Server.world_sound w →
  Session.writer_loop self w = Some (st', w') →
  Server.world_sound w' ∧ dom (heap w') = dom (heap w).
Proof.
  intros Hw. unfold Session.writer_loop.
  destruct (heap w !! self) as [s|] eqn:Hs; [|done].
  destruct (is_open (socket_ s)); [|by intros [= <- <-]].
  destruct (write_message_ s); intros [= <- <-]; [|done].
  by apply (world_sound_update self s).
Qed.

Lemma world_sound_writer self (st : Session.writer_state)
    (ev : Session.writer_event) w st' w' :
  Server.world_sound w →
  Session.writer self st ev w = Some (st', w') →
  Server.world_sound w' ∧ dom (heap w') = dom (heap w).
Proof.
  intros Hw. destruct st as [|buffer| |], ev as [|[ec|]|];
    cbn [Session.writer]; try done.
  - by apply world_sound_writer_loop.
  - intros [= <- <-]. by apply world_sound_stop.
  - destruct (heap w !! self) as [s|] eqn:Hs; [|done]. intros Hloop.
    destruct (world_sound_update self s (Session.written buffer s) w Hw Hs eq_refl)
      as [Hw1 Hdom1].
    apply world_sound_writer_loop in Hloop as [Hw' Hdom]; [|done].
    split; [done|]. by rewrite Hdom.
  - destruct (heap w !! self) as [s|]; [|done].
    destruct (timer_ s =? 0); [|done]. by apply world_sound_writer_loop.
Qed.

Lemma openness_start self w v :
  Server.openness (Session.start self w) v = Server.openness w v.
Proof.
  assert (Hj : Server.openness (Session.room_join self w) v = Server.openness w v).
  { unfold Session.room_join. cbn. by rewrite openness_dispatch. }
  unfold Session.start. destruct (heap (Session.room_join self w) !! self); [|done].
  by rewrite openness_Users_deliver.
Qed.

Lemma dom_start self w : dom (heap (Session.start self w)) = dom (heap w).
Proof.
  assert (Hj : dom (heap (Session.room_join self w)) = dom (heap w)).
  { unfold Session.room_join. cbn. by rewrite dom_dispatch. }
  unfold Session.start. destruct (heap (Session.room_join self w) !! self); [|done].
  by rewrite dom_Users_deliver.
Qed.

Lemma sound_connect (username : string) sv :
  Server.sound sv → Server.sound (Server.connect username sv).
Proof.
  intros ([Hmem Hlen] & Hr & Hwr). unfold Server.connect.
  set (p := fresh (dom (heap (Server.world sv)))).
  set (w0 := set_heap (<[p := Session.new username]> (heap (Server.world sv)))
               (Server.world sv)).
  split; [split|]; cbn [Server.world Server.readers Server.writers].
  - intros v. rewrite openness_start, start_room. cbn [Room.join fst users_].
    change (room w0) with (room (Server.world sv)).
    rewrite elem_of_union, elem_of_singleton, Hmem.
    unfold Server.openness, w0. cbn [heap set_heap].
    destruct (decide (p = v)) as [->|Hne].
    + rewrite lookup_insert_eq. cbn. split; [done|by left].
    + rewrite lookup_insert_ne by done. split; [|by right].
      intros [->|Hv]; done.
  - by rewrite start_room.
  - rewrite dom_start. unfold w0. cbn. rewrite !dom_insert_L. by rewrite Hr, Hwr.
Qed.

Lemma step_resume (a : Server.action) sv sv' :
  Server.step a sv = Some sv' →
  Server.resume a sv = Some sv' ∧ Server.use_after_free a sv = false.
Proof.
  unfold Server.step. by destruct (Server.use_after_free a sv).
Qed.

Lemma step_accept (script : list Session.read_event) sv :
  Server.step (Server.Accept script) sv = Server.accept script sv.
Proof.
  unfold Server.step, Server.use_after_free. by rewrite andb_false_r.
Qed.

Lemma sound_step (a : Server.action) sv sv' :
  Server.sound sv → Server.step a sv = Some sv' → Server.sound sv'.
Proof.
  intros Hsv [Hstep _]%step_resume. revert Hstep.
  destruct a as [script|p ev|p ev]; cbn.
  - unfold Server.accept. destruct (Server.listening sv); [|done].
    destruct (Listener.read_handshake EmptyString script) as [buf rest|ec|buf];
      [| |done].
    + intros [= <-]. by apply sound_connect.
    + by intros [= <-].
  - destruct Hsv as (Hw & Hr & Hwr).
    destruct (Server.readers sv !! p) as [st|] eqn:Hst; [|done].
    destruct (Session.reader p st ev (Server.world sv)) as [[st' w']|] eqn:Hrd;
      [|done].
    intros [= <-]. destruct (world_sound_reader _ _ _ _ _ _ Hw Hrd) as [Hw' Hdom].
    split; [done|]. cbn. rewrite Hdom. split; [|done].
    rewrite <- Hr. by apply dom_insert_lookup_L.
  - destruct Hsv as (Hw & Hr & Hwr).
    destruct (Server.writers sv !! p) as [st|] eqn:Hst; [|done].
    destruct (Session.writer p st ev (Server.world sv)) as [[st' w']|] eqn:Hwt;
      [|done].
    intros [= <-]. destruct (world_sound_writer _ _ _ _ _ _ Hw Hwt) as [Hw' Hdom].
    split; [done|]. cbn. rewrite Hdom. split; [done|].
    rewrite <- Hwr. by apply dom_insert_lookup_L.
Qed.

Lemma sound_run acts sv sv' :
  Server.sound sv → Server.run acts sv = Some sv' → Server.sound sv'.
Proof.
  revert sv. induction acts as [|a acts IH]; intros sv Hsv; cbn.
  - by intros [= <-].
  - destruct (Server.step a sv) as [sv1|] eqn:Hstep; [|done].
    apply IH. by apply (sound_step a sv).
Qed.

Lemma sound_init : Server.sound Server.init.
Proof.
  split; [split|]; cbn.
  - intros p. unfold Server.openness. cbn. rewrite lookup_empty. cbn.
    split; [|done]. intros Hp. by apply not_elem_of_empty in Hp.
  - lia.
  - by rewrite !dom_empty_L.
Qed.

(** Whatever connections are accepted and however the readers and writers
    of the sessions are resumed, as long as the behaviour of the program is
    defined every session has one reader and one writer; and while the
    listener runs, that is, while its room exists, the members of the room
    are exactly the sessions whose socket is open and the history holds at
    most ten messages. *)
Theorem server_invariant acts sv :
  Server.run acts Server.init = Some sv →
  dom (Server.readers sv) = dom (heap (Server.world sv))
  ∧ dom (Server.writers sv) = dom (heap (Server.world sv))
  ∧ (Server.listening sv = true →
     (∀ p, p ∈ users_ (room (Server.world sv))
           ↔ ∃ s, heap (Server.world sv) !! p = Some s
                  ∧ is_open (socket_ s) = true)
     ∧ length (recent_message_ (room (Server.world sv))) ≤ 10).
Proof.
  intros Hrun. destruct (sound_run _ _ _ sound_init Hrun) as ([Hmem Hlen] & Hr & Hw).
  split; [done|]. split; [done|]. intros _.
  split; [|done]. intros p. rewrite Hmem. unfold Server.openness.
  destruct (heap (Server.world sv) !! p) as [s|]; cbn.
  - split; [intros [= Ho]; eauto | intros (s' & [= <-] & ->); done].
  - split; [done | intros (s' & Hs' & _); done].
Qed.

Lemma server_invariant_witness :
  match Server.run
          [Server.Accept [Session.Data ("ann" +:+ nl)];
           Server.Accept [Session.Data "bo"; Session.Data ("b" +:+ nl)];
           Server.Read 0 (Session.Data ("hi" +:+ nl));
           Server.Write 1 Session.Scheduled;
           Server.Read 1 (Session.ReadFailed eof)]
          Server.init with
  | Some sv =>
      Server.listening sv = true
      ∧ dom (Server.readers sv) = dom (heap (Server.world sv))
      ∧ (0 ∈ users_ (room (Server.world sv))
         ↔ ∃ s, heap (Server.world sv) !! 0 = Some s
                ∧ is_open (socket_ s) = true)
      ∧ length (recent_message_ (room (Server.world sv))) ≤ 10
  | None => False
  end.
Proof.
  destruct (Server.run _ Server.init) as [sv|] eqn:Hrun.
  - assert (Hlistening : Server.listening sv = true).
    { vm_compute in Hrun. by injection Hrun as <-. }
    destruct (server_invariant _ sv Hrun) as (Hreaders & _ & Hroom).
    destruct (Hroom Hlistening) as [Hmem Hlen].
    split; [exact Hlistening|]. split; [exact Hreaders|].
    split; [exact (Hmem 0) | exact Hlen].
  - vm_compute in Hrun. discriminate Hrun.
Defined.

End ServerInvariant.

(** ** The handshake *)

Section Handshake.

Implicit Types (w : World) (s : ChatSession) (p self : ptr) (sv : Server.t).
Implicit Types (buf b u : string) (script rest : list Session.read_event).

Lemma read_handshake_unfold buf script :
  Listener.read_handshake buf script
  = match String.index 0 nl buf with
    | Some _ => Listener.Line buf script
    | None =>
        match script with
        | [] => Listener.Incomplete buf
        | Session.Data bytes :: script' =>
            Listener.read_handshake (buf +:+ bytes) script'
        | Session.ReadFailed ec :: _ => Listener.Threw ec
        end
    end.
Proof. by destruct script. Qed.

Lemma read_handshake_line buf script b rest :
  Listener.read_handshake buf script = Listener.Line b rest →
  ∃ chunks : list string,
    script = map Session.Data chunks ++ rest
    ∧ b = buf +:+ stream chunks
    ∧ String.index 0 nl b ≠ None.
Proof.
  revert buf. induction script as [|ev script IH]; intros buf;
    rewrite read_handshake_unfold;
    destruct (String.index 0 nl buf) as [i|] eqn:Hi.
  - intros [= <- <-]. exists []. by rewrite string_app_nil_r, Hi.
  - done.
  - intros [= <- <-]. exists []. by rewrite string_app_nil_r, Hi.
  - destruct ev as [bytes|ec]; [|done]. intros Hline.
    destruct (IH _ Hline) as (chunks & -> & -> & Hb).
    exists (bytes :: chunks). by rewrite string_app_assoc in *.
Qed.

Lemma getline_first_line (s l rest0 : string) :
  first_line s = Some (l, rest0) → l = Listener.getline s +:+ nl.
Proof.
  revert l rest0. induction s as [|c s IH]; intros l rest0; [done|].
  cbn [first_line Listener.getline].
  destruct (Ascii.eqb_spec c LF) as [->|Hc].
  - by intros [= <- <-].
  - destruct (first_line s) as [[l1 r1]|]; [|done].
    intros [= <- <-]. rewrite string_app_cons. f_equal. by apply (IH l1 r1).
Qed.


Lemma start_heap_self self w s :
  heap w !! self = Some s →
  ∃ s', heap (Session.start self w) !! self = Some s'
        ∧ username_ s' = username_ s
        ∧ socket_ s' = socket_ s
        ∧ write_message_ s'
          = write_message_ s ++ recent_message_ (room w)
            ++ [("Welcome to the chat, " +:+ username_ s +:+ "!")%string].
Proof.
  intros Hs.
  assert (Hj : heap (Session.room_join self w) !! self
               = Some (Session.deliver_each (recent_message_ (room w)) s)).
  { rewrite room_join_heap. cbn [Room.join snd].
    by rewrite calls_on_same, fmap_snd_pair, Hs. }
  destruct (deliver_each_fields (recent_message_ (room w)) s) as (Hso & Hq & Hname).
  unfold Session.start. rewrite Hj, Users_deliver_heap, decide_True by done.
  rewrite Hj. cbn [fmap option_fmap option_map]. eexists. split; [done|].
  destruct (deliver_fields
    ("Welcome to the chat, "
     +:+ username_ (Session.deliver_each (recent_message_ (room w)) s) +:+ "!")
    (Session.deliver_each (recent_message_ (room w)) s)) as (-> & _ & -> & ->).
  by rewrite Hso, Hq, Hname, <- app_assoc.
Qed.

(** The listener takes as username the bytes before the first terminator
    of what it has read, however the reads split them.  Bytes that came
    with the same read after that terminator are lost: the session starts
    with an empty read buffer, and its first queued line after the replay
    is the welcome to that username. *)
Theorem handshake_username script b rest sv :
  Listener.read_handshake EmptyString script = Listener.Line b rest →
  Server.listening sv = true →
  ∃ (chunks : list string) (dropped : string),
    script = map Session.Data chunks ++ rest
    ∧ b = stream chunks
    ∧ first_line b = Some (Listener.getline b +:+ nl, dropped)
    ∧ Server.accept script sv = Some (Server.connect (Listener.getline b) sv)
    ∧ let p := fresh (dom (heap (Server.world sv))) in
      let sv' := Server.connect (Listener.getline b) sv in
      Server.readers sv' !! p = Some (Session.Reading EmptyString)
      ∧ ∃ s, heap (Server.world sv') !! p = Some s
             ∧ username_ s = Listener.getline b
             ∧ write_message_ s
               = recent_message_ (room (Server.world sv))
                 ++ [("Welcome to the chat, " +:+ Listener.getline b +:+ "!")%string].
Proof.
  intros Hline Hlisten.
  destruct (read_handshake_line _ _ _ _ Hline) as (chunks & -> & Hb & Hidx).
  rewrite string_app_nil_l in Hb. subst b.
  destruct (first_line (stream chunks)) as [[l dropped]|] eqn:Hfl.
  2:{ by rewrite index_first_line, Hfl in Hidx. }
  exists chunks, dropped. split; [done|]. split; [done|]. split.
  { by rewrite (getline_first_line _ _ _ Hfl). }
  split.
  { unfold Server.accept. by rewrite Hlisten, Hline. }
  intros p sv'. subst sv'. unfold Server.connect. fold p.
  cbn [Server.readers Server.world]. split; [apply lookup_insert_eq|].
  set (w0 := set_heap _ (Server.world sv)).
  destruct (start_heap_self p w0 (Session.new (Listener.getline (stream chunks))))
    as (s & Hs & Hname & _ & Hq).
  { unfold w0. cbn. apply lookup_insert_eq. }
  exists s. split; [done|]. split; [done|]. by rewrite Hq.
Qed.

Lemma handshake_username_witness :
  Server.accept [Session.Data "bo"; Session.Data ("b" +:+ nl +:+ "hi" +:+ nl)]
    Server.init
  = Some (Server.connect "bob" Server.init).
Proof.
  destruct (handshake_username
              [Session.Data "bo"; Session.Data ("b" +:+ nl +:+ "hi" +:+ nl)]
              ("bob" +:+ nl +:+ "hi" +:+ nl) [] Server.init)
    as (chunks & dropped & _ & _ & _ & Haccept & _);
    [reflexivity | reflexivity | exact Haccept].
Defined.

Lemma buffer_whole (data : string) :
  Client.buffer data (String.length data) = data.
Proof. unfold Client.buffer. rewrite Nat.min_id. apply substring_all. Qed.




End Handshake.

(** ** Closed sessions and a dead listener *)

Section Afterwards.

Implicit Types (w : World) (s : ChatSession) (p q self : ptr) (sv : Server.t).
Implicit Types (acts : list Server.action).

Lemma start_heap_other self w v :
  v ≠ self → heap (Session.start self w) !! v = heap w !! v.
Proof.
  intros Hv.
  assert (Hj : heap (Session.room_join self w) !! v = heap w !! v).
  { rewrite room_join_heap. cbn [Room.join snd].
    rewrite calls_on_other by done. by destruct (heap w !! v). }
  unfold Session.start. destruct (heap (Session.room_join self w) !! self); [|done].
  by rewrite Users_deliver_heap, decide_False.
Qed.

Lemma room_deliver_non_member (msg : string) w p :
  p ∉ users_ (room w) →
  heap (Session.room_deliver msg w) !! p = heap w !! p
  ∧ users_ (room (Session.room_deliver msg w)) = users_ (room w).
Proof.
  intros Hp. split; [|by rewrite room_deliver_room].
  rewrite room_deliver_heap. cbn [Room.deliver snd].
  rewrite calls_on_absent by (by rewrite elem_of_elements).
  by destruct (heap w !! p).
Qed.

Lemma reader_loop_non_member (fuel : nat) self (buf : string) w p st' w' :
  p ∉ users_ (room w) →
  Session.reader_loop fuel self buf w = Some (st', w') →
  heap w' !! p = heap w !! p
  ∨ heap w' !! p = Session.close_and_cancel <$> heap w !! p.
Proof.
  revert buf w. induction fuel as [|fuel IH]; intros buf w Hp; [done|].
  cbn [Session.reader_loop]. destruct (Session.read_until buf) as [n| |].
  - intros Hloop.
    destruct (room_deliver_non_member (Session.substr buf 0 n) w p Hp) as [Hh Hu].
    apply IH in Hloop; [|by rewrite Hu]. by rewrite Hh in Hloop.
  - intros [= <- <-]. rewrite stop_heap. cbn [print_cerr heap].
    case_decide; auto.
  - intros [= <- <-]. by left.
Qed.

Lemma tail_suffix (l : list string) : tail l `suffix_of` l.
Proof. destruct l; [done|]. by apply suffix_cons_r. Qed.

Lemma writer_loop_heap self w st' w' p :
  Session.writer_loop self w = Some (st', w') →
  (p ≠ self → heap w' !! p = heap w !! p)
  ∧ (∀ s, heap w !! self = Some s → is_open (socket_ s) = false → w' = w).
Proof.
  unfold Session.writer_loop. destruct (heap w !! self) as [s|] eqn:Hs; [|done].
  destruct (is_open (socket_ s)) eqn:Ho.
  - destruct (write_message_ s); intros [= <- <-].
    + split; [|intros s1 [= <-]; congruence].
      intros Hp. cbn. by rewrite lookup_insert_ne.
    + split; [done|]. intros s1 [= <-]. congruence.
  - by intros [= <- <-].
Qed.

Lemma closed_stays_closed (a : Server.action) sv sv' p s :
  Server.sound sv →
  heap (Server.world sv) !! p = Some s →
  is_open (socket_ s) = false →
  Server.step a sv = Some sv' →
  ∃ s', heap (Server.world sv') !! p = Some s'
        ∧ is_open (socket_ s') = false
        ∧ write_message_ s' `suffix_of` write_message_ s.
Proof.
  intros ([Hmem _] & _) Hs Hc [Hstep _]%step_resume. revert Hstep.
  assert (Hp : p ∉ users_ (room (Server.world sv))).
  { rewrite Hmem. unfold Server.openness. rewrite Hs. cbn. by rewrite Hc. }
  destruct a as [script|q ev|q ev]; cbn [Server.resume].
  - unfold Server.accept. destruct (Server.listening sv); [|done].
    destruct (Listener.read_handshake EmptyString script) as [buf rest|ec|buf];
      [| |done]; intros [= <-]; [|by exists s].
    exists s. split; [|done]. unfold Server.connect. cbn [Server.world].
    assert (Hne : p ≠ fresh (dom (heap (Server.world sv)))).
    { intros ->. apply (is_fresh (dom (heap (Server.world sv)))).
      apply elem_of_dom. by rewrite Hs. }
    rewrite start_heap_other by done. cbn. by rewrite lookup_insert_ne.
  - destruct (Server.readers sv !! q) as [st|]; [|done].
    destruct (Session.reader q st ev (Server.world sv)) as [[st' w']|] eqn:Hrd;
      [|done].
    intros [= <-]. cbn [Server.world].
    assert (Hcase : heap w' !! p = heap (Server.world sv) !! p
                    ∨ heap w' !! p
                      = Session.close_and_cancel <$> heap (Server.world sv) !! p).
    { destruct st as [buf|], ev as [bytes|ec]; cbn [Session.reader] in Hrd;
        try done.
      - destruct (Session.can_read buf bytes); [|done].
        by apply (reader_loop_non_member _ _ _ _ _ _ _ Hp Hrd).
      - injection Hrd as <- <-. rewrite stop_heap. cbn [print_cerr heap].
        case_decide; auto. }
    destruct Hcase as [-> | ->]; rewrite Hs; [by exists s|].
    by exists (Session.close_and_cancel s).
  - destruct (Server.writers sv !! q) as [st|]; [|done].
    destruct (Session.writer q st ev (Server.world sv)) as [[st' w']|] eqn:Hwt;
      [|done].
    intros [= <-]. cbn [Server.world].
    destruct st as [|buffer| |], ev as [|[ec|]|]; cbn [Session.writer] in Hwt;
      try done.
    + destruct (writer_loop_heap _ _ _ _ p Hwt) as [Hother Hself].
      destruct (decide (p = q)) as [->|Hne].
      * rewrite (Hself s Hs Hc). by exists s.
      * rewrite Hother by done. by exists s.
    + injection Hwt as <- <-. rewrite stop_heap, Hs.
      case_decide; [by exists (Session.close_and_cancel s) | by exists s].
    + destruct (heap (Server.world sv) !! q) as [sq|] eqn:Hq; [|done].
      destruct (writer_loop_heap _ _ _ _ p Hwt) as [Hother Hself].
      destruct (decide (p = q)) as [->|Hne].
      * rewrite Hq in Hs. injection Hs as ->.
        rewrite (Hself (Session.written buffer s));
          [|cbn; apply lookup_insert_eq|done].
        exists (Session.written buffer s). cbn. rewrite lookup_insert_eq.
        split; [done|]. split; [done|]. apply tail_suffix.
      * rewrite Hother by done. cbn. rewrite lookup_insert_ne by done.
        by exists s.
    + destruct (heap (Server.world sv) !! q) as [sq|] eqn:Hq; [|done].
      destruct (timer_ sq =? 0); [|done].
      destruct (writer_loop_heap _ _ _ _ p Hwt) as [Hother Hself].
      destruct (decide (p = q)) as [->|Hne].
      * rewrite (Hself s Hs Hc). by exists s.
      * rewrite Hother by done. by exists s.
Qed.

(** Once the socket of a session is closed, whatever the server does next
    (as long as its behaviour is defined), the socket stays closed and
    nothing is added to the queue of the session; and while the room
    exists the session is not a member of it. *)
Theorem closed_session_frozen acts1 sv acts2 sv' p s :
  Server.run acts1 Server.init = Some sv →
  heap (Server.world sv) !! p = Some s →
  is_open (socket_ s) = false →
  Server.run acts2 sv = Some sv' →
  ∃ s', heap (Server.world sv') !! p = Some s'
        ∧ is_open (socket_ s') = false
        ∧ write_message_ s' `suffix_of` write_message_ s
        ∧ (Server.listening sv' = true →
           p ∉ users_ (room (Server.world sv'))).
Proof.
  intros Hinit. apply (sound_run _ _ _ sound_init) in Hinit. clear acts1.
  revert sv s Hinit. induction acts2 as [|a acts IH]; intros sv s Hsv Hs Hc; cbn.
  - intros [= <-]. exists s. split; [done|]. split; [done|]. split; [done|].
    intros _.
    destruct Hsv as ([Hmem _] & _). rewrite Hmem. unfold Server.openness.
    rewrite Hs. cbn. by rewrite Hc.
  - destruct (Server.step a sv) as [sv1|] eqn:Hstep; [|done]. intros Hrun.
    destruct (closed_stays_closed _ _ _ _ _ Hsv Hs Hc Hstep) as (s1 & Hs1 & Hc1 & Hq1).
    destruct (IH sv1 s1 (sound_step _ _ _ Hsv Hstep) Hs1 Hc1 Hrun)
      as (s' & Hs' & Hc' & Hq' & Hout).
    exists s'. split; [done|]. split; [done|]. split; [by etrans|done].
Qed.

Lemma closed_session_frozen_witness :
  match Server.run [Server.Accept [Session.Data ("zoe" +:+ nl)];
                    Server.Read 0 (Session.ReadFailed eof);
                    Server.Accept [Session.Data ("ann" +:+ nl)]]
          Server.init with
  | Some sv =>
      match Server.run [Server.Read 1 (Session.Data ("hi" +:+ nl));
                        Server.Write 0 Session.Scheduled] sv with
      | Some sv' =>
          Server.listening sv' = true
          ∧ (0 ∉ users_ (room (Server.world sv')))
          ∧ (∃ s', heap (Server.world sv') !! 0 = Some s'
                   ∧ is_open (socket_ s') = false)
      | None => False
      end
  | None => False
  end.
Proof.
  destruct (Server.run _ Server.init) as [sv|] eqn:Hrun1.
  2:{ vm_compute in Hrun1. discriminate Hrun1. }
  pose proof Hrun1 as Hsv. vm_compute in Hsv. injection Hsv as Hsv.
  destruct (Server.run _ sv) as [sv'|] eqn:Hrun2.
  - assert (Hlistening : Server.listening sv' = true).
    { rewrite <- Hsv in Hrun2. vm_compute in Hrun2. by injection Hrun2 as <-. }
    destruct (closed_session_frozen
                [Server.Accept [Session.Data ("zoe" +:+ nl)];
                 Server.Read 0 (Session.ReadFailed eof);
                 Server.Accept [Session.Data ("ann" +:+ nl)]] sv
                [Server.Read 1 (Session.Data ("hi" +:+ nl));
                 Server.Write 0 Session.Scheduled] sv' 0
                (Session.close_and_cancel
                   (Session.deliver "Welcome to the chat, zoe!" (Session.new "zoe")).1)
                Hrun1) as (s' & Hs' & Hclosed & _ & Hout).
    + rewrite <- Hsv. vm_compute. reflexivity.
    + reflexivity.
    + exact Hrun2.
    + split; [exact Hlistening|]. split; [exact (Hout Hlistening)|].
      exists s'. split; [exact Hs' | exact Hclosed].
  - rewrite <- Hsv in Hrun2. vm_compute in Hrun2. discriminate Hrun2.
Defined.

Lemma writer_loop_room self w (st' : Session.writer_state) w' :
  Session.writer_loop self w = Some (st', w') → room w' = room w.
Proof.
  unfold Session.writer_loop. destruct (heap w !! self) as [s|]; [|done].
  destruct (is_open (socket_ s)); [|by intros [= <- <-]].
  by destruct (write_message_ s); intros [= <- <-].
Qed.

Lemma deaf_step (a : Server.action) sv sv' :
  Server.sound sv →
  Server.listening sv = false →
  Server.step a sv = Some sv' →
  Server.listening sv' = false
  ∧ dom (heap (Server.world sv')) = dom (heap (Server.world sv))
  ∧ (∀ script, a ≠ Server.Accept script)
  ∧ room (Server.world sv') = room (Server.world sv).
Proof.
  intros (Hw & _) Hdeaf [Hstep Hsafe]%step_resume. revert Hstep Hsafe.
  unfold Server.use_after_free. rewrite Hdeaf. cbn [negb andb].
  destruct a as [script|q ev|q ev]; cbn [Server.resume].
  - unfold Server.accept. by rewrite Hdeaf.
  - destruct (Server.readers sv !! q) as [st|]; [|done].
    destruct (Session.reader q st ev (Server.world sv)) as [[st' w']|] eqn:Hrd;
      [|done].
    intros [= <-] Hsafe.
    destruct (world_sound_reader _ _ _ _ _ _ Hw Hrd) as [_ Hdom].
    split; [done|]. split; [done|]. split; [done|]. cbn [Server.world].
    destruct st as [buf|], ev as [bytes|ec]; cbn [Session.reader] in Hrd;
      cbn [Server.reader_uses_room] in Hsafe; try done.
    destruct (Session.can_read buf bytes); [|done].
    cbn [Session.reader_loop] in Hrd.
    destruct (Session.read_until (buf +:+ bytes)); try done.
    by injection Hrd as <- <-.
  - destruct (Server.writers sv !! q) as [st|]; [|done].
    destruct (Session.writer q st ev (Server.world sv)) as [[st' w']|] eqn:Hwt;
      [|done].
    intros [= <-] Hsafe.
    destruct (world_sound_writer _ _ _ _ _ _ Hw Hwt) as [_ Hdom].
    split; [done|]. split; [done|]. split; [done|]. cbn [Server.world].
    destruct st as [|buffer| |], ev as [|[ec|]|]; cbn [Session.writer] in Hwt;
      cbn [Server.writer_uses_room] in Hsafe; try done.
    + by apply writer_loop_room in Hwt.
    + destruct (heap (Server.world sv) !! q) as [sq|]; [|done].
      by apply writer_loop_room in Hwt.
    + destruct (heap (Server.world sv) !! q) as [sq|]; [|done].
      destruct (timer_ sq =? 0); [|done].
      by apply writer_loop_room in Hwt.
Qed.

Lemma deaf_run acts sv sv' :
  Server.sound sv →
  Server.listening sv = false →
  Server.run acts sv = Some sv' →
  Server.listening sv' = false
  ∧ dom (heap (Server.world sv')) = dom (heap (Server.world sv))
  ∧ Forall (fun a => ∀ script, a ≠ Server.Accept script) acts
  ∧ room (Server.world sv') = room (Server.world sv).
Proof.
  revert sv. induction acts as [|a acts IH]; intros sv Hsv Hdeaf; cbn.
  - by intros [= <-].
  - destruct (Server.step a sv) as [sv1|] eqn:Hstep; [|done]. intros Hrun.
    destruct (deaf_step _ _ _ Hsv Hdeaf Hstep) as (Hdeaf1 & Hdom1 & Ha & Hroom1).
    destruct (IH sv1 (sound_step _ _ _ Hsv Hstep) Hdeaf1 Hrun)
      as (Hdeaf' & Hdom' & Hacts & Hroom').
    split; [done|]. split; [by rewrite Hdom', Hdom1|].
    split; [by constructor|]. by rewrite Hroom', Hroom1.
Qed.

(** A connection whose first read fails ends the listener: the exception
    leaves the coroutine and destroys its local room, to which every
    session still refers.  No connection is accepted and no session is
    created on that port again; and from then on a read that completes a
    line or fails, and a write that fails, of any session that exists has
    undefined behaviour, because it calls into the destroyed room.  What
    remains defined leaves the room alone. *)
Theorem failed_handshake_ends_listener acts1 sv script (ec : error_code)
    acts2 sv' :
  Server.run acts1 Server.init = Some sv →
  Listener.read_handshake EmptyString script = Listener.Threw ec →
  Server.run (Server.Accept script :: acts2) sv = Some sv' →
  Server.listening sv' = false
  ∧ dom (heap (Server.world sv')) = dom (heap (Server.world sv))
  ∧ Forall (fun a => ∀ script', a ≠ Server.Accept script') acts2
  ∧ (∀ script', Server.step (Server.Accept script') sv' = None)
  ∧ (∀ q (read_message bytes : string) (n : nat),
       Server.readers sv' !! q = Some (Session.Reading read_message) →
       Session.read_until (read_message +:+ bytes) = Session.Match n →
       Server.use_after_free (Server.Read q (Session.Data bytes)) sv' = true
       ∧ Server.step (Server.Read q (Session.Data bytes)) sv' = None)
  ∧ (∀ q (read_message : string) (ec' : error_code),
       Server.readers sv' !! q = Some (Session.Reading read_message) →
       Server.use_after_free (Server.Read q (Session.ReadFailed ec')) sv' = true
       ∧ Server.step (Server.Read q (Session.ReadFailed ec')) sv' = None)
  ∧ (∀ q (buffer : string) (ec' : error_code),
       Server.writers sv' !! q = Some (Session.Writing buffer) →
       Server.use_after_free
         (Server.Write q (Session.WriteCompleted (Some ec'))) sv' = true
       ∧ Server.step (Server.Write q (Session.WriteCompleted (Some ec'))) sv'
         = None)
  ∧ room (Server.world sv') = room (Server.world sv).
Proof.
  intros Hinit Hthrew. apply (sound_run _ _ _ sound_init) in Hinit.
  cbn [Server.run]. rewrite step_accept. unfold Server.accept at 1.
  destruct (Server.listening sv); [|done]. rewrite Hthrew. intros Hrun.
  apply deaf_run in Hrun as (Hdeaf & Hdom & Hacts & Hroom);
    [|by destruct Hinit|done].
  split; [done|]. split; [done|]. split; [done|]. split.
  { intros script'. rewrite step_accept. unfold Server.accept.
    by rewrite Hdeaf. }
  split.
  { intros q read_message bytes n Hq Hmatch.
    assert (Server.use_after_free (Server.Read q (Session.Data bytes)) sv'
            = true) as Hfree.
    { unfold Server.use_after_free. rewrite Hdeaf, Hq. cbn. by rewrite Hmatch. }
    split; [done|]. unfold Server.step. by rewrite Hfree. }
  split.
  { intros q read_message ec' Hq.
    assert (Server.use_after_free (Server.Read q (Session.ReadFailed ec')) sv'
            = true) as Hfree.
    { unfold Server.use_after_free. by rewrite Hdeaf, Hq. }
    split; [done|]. unfold Server.step. by rewrite Hfree. }
  split; [|done].
  intros q buffer ec' Hq.
  assert (Server.use_after_free
            (Server.Write q (Session.WriteCompleted (Some ec'))) sv'
          = true) as Hfree.
  { unfold Server.use_after_free. by rewrite Hdeaf, Hq. }
  split; [done|]. unfold Server.step. by rewrite Hfree.
Qed.

Lemma failed_handshake_ends_listener_witness :
  match Server.run [Server.Accept [Session.Data ("ann" +:+ nl)]] Server.init with
  | Some sv =>
      match Server.run
              [Server.Accept [Session.Data "bo"; Session.ReadFailed eof];
               Server.Read 0 (Session.Data "h");
               Server.Write 0 Session.Scheduled] sv with
      | Some sv' =>
          Server.listening sv' = false
          ∧ Server.use_after_free
              (Server.Read 0 (Session.Data ("i" +:+ nl))) sv' = true
          ∧ Server.step (Server.Read 0 (Session.Data ("i" +:+ nl))) sv' = None
      | None => False
      end
  | None => False
  end.
Proof.
  destruct (Server.run _ Server.init) as [sv|] eqn:Hrun1.
  2:{ vm_compute in Hrun1. discriminate Hrun1. }
  pose proof Hrun1 as Hsv. vm_compute in Hsv. injection Hsv as Hsv.
  destruct (Server.run _ sv) as [sv'|] eqn:Hrun2.
  - assert (Hreader : Server.readers sv' !! 0 = Some (Session.Reading "h")).
    { rewrite <- Hsv in Hrun2. vm_compute in Hrun2. by injection Hrun2 as <-. }
    destruct (failed_handshake_ends_listener
                [Server.Accept [Session.Data ("ann" +:+ nl)]] sv
                [Session.Data "bo"; Session.ReadFailed eof] eof
                [Server.Read 0 (Session.Data "h");
                 Server.Write 0 Session.Scheduled] sv' Hrun1)
      as (Hdeaf & _ & _ & _ & Hline & _); [reflexivity | exact Hrun2 |].
    split; [exact Hdeaf|].
    apply (Hline 0 "h" ("i" +:+ nl) 3 Hreader). reflexivity.
  - rewrite <- Hsv in Hrun2. vm_compute in Hrun2. discriminate Hrun2.
Defined.

End Afterwards.

(** ** [main] of the server *)

Section ServerMain.

Implicit Types (can_listen : list Z → Z → bool) (args : list string).
Implicit Types (bound ports : list Z).

Lemma spawn_listeners_all can_listen args bound ports :
  Forall2 (fun arg port => Main.port_of arg = Some port) args ports →
  (∀ (i : nat) (port : Z),
     ports !! i = Some port → can_listen (bound ++ take i ports) port = true) →
  Main.spawn_listeners can_listen args bound = Main.Spawned (bound ++ ports).
Proof.
  intros Hports. revert bound.
  induction Hports as [|arg port args ports Harg _ IH]; intros bound Hall.
  - cbn. by rewrite app_nil_r.
  - cbn [Main.spawn_listeners]. rewrite Harg.
    pose proof (Hall 0 port eq_refl) as Hfirst. cbn [take] in Hfirst.
    rewrite app_nil_r in Hfirst. rewrite Hfirst.
    rewrite IH; [by rewrite <- app_assoc|].
    intros i port' Hi. rewrite <- app_assoc. apply (Hall (S i) port' Hi).
Qed.

Lemma spawn_listeners_fail can_listen (pre post : list string) (arg : string)
    bound ports (port : Z) :
  Forall2 (fun a p => Main.port_of a = Some p) pre ports →
  (∀ (i : nat) (p : Z),
     ports !! i = Some p → can_listen (bound ++ take i ports) p = true) →
  Main.port_of arg = Some port →
  can_listen (bound ++ ports) port = false →
  Main.spawn_listeners can_listen (pre ++ arg :: post) bound = Main.Threw port.
Proof.
  intros Hpre. revert bound.
  induction Hpre as [|a p pre ports Ha _ IH]; intros bound Hall Harg Hfail.
  - cbn. rewrite app_nil_r in Hfail. by rewrite Harg, Hfail.
  - cbn [app Main.spawn_listeners]. rewrite Ha.
    pose proof (Hall 0 p eq_refl) as Hfirst. cbn [take] in Hfirst.
    rewrite app_nil_r in Hfirst. rewrite Hfirst.
    apply IH; [|done|].
    + intros i p' Hi. rewrite <- app_assoc. apply (Hall (S i) p' Hi).
    + by rewrite <- app_assoc.
Qed.

(** [main] starts a listener for every element of [argv], the name of the
    program included, in order, when every element is in the range of
    [std::atoi] and every acceptor can be set up after the ones before it.
    A name that does not begin with white space, a sign or a digit is
    port 0; so is a missing port argument, which is reported but does not
    stop the server. *)
Theorem main_listens_for_program_name can_listen (prog : string) args ports :
  Forall2 (fun arg port => Main.port_of arg = Some port) (prog :: args) ports →
  Main.all_listen can_listen ports →
  Main.main can_listen (prog :: args)
  = Main.Runs ports
      (match args with [] => [Main.NoPortProvided] | _ :: _ => [] end)
  ∧ length ports = S (length args)
  ∧ (∀ (c : ascii) (rest : string),
       prog = String c rest →
       Main.is_space c = false → Main.digit c = None →
       c ≠ "-"%char → c ≠ "+"%char →
       Main.port_of prog = Some 0%Z ∧ ports !! 0 = Some 0%Z).
Proof.
  intros Hports Hall. split; [|split].
  - unfold Main.main. rewrite (spawn_listeners_all _ _ [] ports) by done.
    cbn [app length]. by destruct args.
  - apply Forall2_length in Hports. by rewrite <- Hports.
  - intros c rest -> Hsp Hd Hm Hp.
    assert (Hport : Main.port_of (String c rest) = Some 0%Z).
    { unfold Main.port_of, Main.atoi, Main.value.
      cbn [Main.skip_space]. rewrite Hsp.
      assert (Hdigits : Main.digits 0 (String c rest) = 0%Z).
      { cbn [Main.digits]. by rewrite Hd. }
      destruct c as [[] [] [] [] [] [] [] []]; try done;
        by rewrite Hdigits. }
    split; [done|]. apply Forall2_cons_inv_l in Hports as (p & ports' & Hp0 & _ & ->).
    cbn. congruence.
Qed.

Lemma main_listens_for_program_name_witness :
  Main.main (fun bound port => (port =? 0)%Z || negb (bool_decide (port ∈ bound)))
    ["./chat_server"; "8080"; "nine"]
  = Main.Runs [0%Z; 8080%Z; 0%Z] [].
Proof.
  refine (proj1 (main_listens_for_program_name
                   (fun bound port =>
                      (port =? 0)%Z || negb (bool_decide (port ∈ bound)))
                   "./chat_server" ["8080"; "nine"] [0%Z; 8080%Z; 0%Z] _ _)).
  - repeat constructor.
  - intros [|[|[|i]]] port [= <-]; reflexivity.
Defined.

(** If the acceptor of an argument cannot be set up, as when its port
    repeats the port of an earlier argument, [main] prints what the
    exception says and returns without running anything: the listeners
    already spawned for the earlier arguments never start, and the
    arguments after it are not looked at. *)
Theorem main_gives_up can_listen (pre post : list string) (arg : string)
    bound (port : Z) :
  Forall2 (fun a p => Main.port_of a = Some p) pre bound →
  Main.all_listen can_listen bound →
  Main.port_of arg = Some port →
  can_listen bound port = false →
  Main.main can_listen (pre ++ arg :: post)
  = Main.Returns
      ((if length (pre ++ arg :: post) <? 2 then [Main.NoPortProvided] else [])
         ++ [Main.What port]).
Proof.
  intros Hpre Hall Harg Hfail. unfold Main.main.
  by rewrite (spawn_listeners_fail _ _ _ _ [] bound port).
Qed.

Lemma main_gives_up_witness :
  Main.main (fun bound port => (port =? 0)%Z || negb (bool_decide (port ∈ bound)))
    ["./chat_server"; "8080"; "8080"; "99999999999999999999"]
  = Main.Returns [Main.What 8080%Z].
Proof.
  refine (main_gives_up
            (fun bound port =>
               (port =? 0)%Z || negb (bool_decide (port ∈ bound)))
            ["./chat_server"; "8080"] ["99999999999999999999"] "8080"
            [0%Z; 8080%Z] 8080%Z _ _ _ _).
  - repeat constructor.
  - intros [|[|i]] port [= <-]; reflexivity.
  - reflexivity.
  - reflexivity.
Defined.

End ServerMain.

(** ** The client *)

Section ClientQueue.

Implicit Types (c : Client.t) (sys : Client.system) (u msg : string).
Implicit Types (es : list Client.event) (effects : list Client.effect).

Lemma tagged_fst (flag : bool) (l : list (string * Client.handler)) :
  (map (fun w => (w, flag)) l).*1 = l.
Proof. induction l as [|w l IH]; [done|]. cbn. by rewrite IH. Qed.

Lemma perform_fields effects sys :
  let sys' := foldl (fun sys e => Client.perform e sys) sys effects in
  Client.client sys' = Client.client sys
  ∧ Client.connecting sys' = Client.connecting sys
  ∧ Client.writes sys'
    = Client.writes sys
      ++ map (fun w => (w, Client.established (Client.client sys)))
           (Client.writes_of effects)
  ∧ Client.wire sys' = Client.wire sys
  ∧ Client.terminal sys' = Client.terminal sys ++ Client.printed_of effects
  ∧ Client.reading sys' = Client.reading sys || Client.rearms effects.
Proof.
  revert sys. induction effects as [|e effects IH]; intros sys.
  - cbn. by rewrite !app_nil_r, orb_false_r.
  - cbn [foldl].
    destruct (IH (Client.perform e sys)) as (-> & -> & -> & -> & -> & ->).
    destruct e as [b h| |text]; cbn; rewrite <- ?app_assoc; try done.
    by rewrite orb_true_r.
Qed.

Lemma call_fields (f : Client.t → Client.t * list Client.effect) sys :
  Client.client (Client.call f sys) = (f (Client.client sys)).1
  ∧ Client.connecting (Client.call f sys) = Client.connecting sys
  ∧ Client.writes (Client.call f sys)
    = Client.writes sys
      ++ map (fun w => (w, Client.established (f (Client.client sys)).1))
           (Client.writes_of (f (Client.client sys)).2)
  ∧ Client.wire (Client.call f sys) = Client.wire sys
  ∧ Client.terminal (Client.call f sys)
    = Client.terminal sys ++ Client.printed_of (f (Client.client sys)).2
  ∧ Client.reading (Client.call f sys)
    = Client.reading sys || Client.rearms (f (Client.client sys)).2.
Proof.
  unfold Client.call. destruct (f (Client.client sys)) as [c effects].
  apply (perform_fields effects
           {| Client.client := c; Client.connecting := Client.connecting sys;
              Client.writes := Client.writes sys;
              Client.reading := Client.reading sys; Client.wire := Client.wire sys;
              Client.terminal := Client.terminal sys |}).
Qed.

Lemma format_length u msg :
  String.length (Client.format u msg)
  = String.length msg + 4 + String.length u.
Proof.
  unfold Client.format. rewrite !string_length_app. cbn. lia.
Qed.

(** The byte counts that [start] and [async_write] pass to
    [boost::asio::buffer] are the lengths of the strings: neither buffer is
    cut short. *)
Lemma message_buffer_whole u msg :
  Client.buffer (Client.format u msg) (String.length msg + 4 + String.length u)
  = Client.format u msg.
Proof. rewrite <- format_length. apply buffer_whole. Qed.

Lemma async_write_front c (front : string) (rest : list string) :
  Client.write_message_ c = front :: rest →
  Client.async_write c
  = [Client.AsyncWrite (Client.format (Client.username_ c) front) Client.Writer].
Proof.
  intros Hq. unfold Client.async_write. by rewrite Hq, message_buffer_whole.
Qed.

Lemma buffers_of_app (h : Client.handler) (l1 l2 : list (string * Client.handler)) :
  Client.buffers_of h (l1 ++ l2) = Client.buffers_of h l1 ++ Client.buffers_of h l2.
Proof. apply omap_app. Qed.

Lemma posted_app es1 es2 :
  Client.posted (es1 ++ es2) = Client.posted es1 ++ Client.posted es2.
Proof. apply omap_app. Qed.

Lemma in_flight_call (f : Client.t → Client.t * list Client.effect) sys :
  Client.in_flight (Client.call f sys)
  = Client.in_flight sys
    ++ Client.buffers_of Client.Writer (Client.writes_of (f (Client.client sys)).2).
Proof.
  unfold Client.in_flight. destruct (call_fields f sys) as (_ & _ & -> & _).
  by rewrite fmap_app, tagged_fst, buffers_of_app.
Qed.

(** The events whose outcome depends on the state. *)
Lemma step_reached (ok : bool) sys sys' :
  Client.step (Client.Reached ok) sys = Some sys' →
  sys' = Client.reached ok sys
  ∧ Client.socket_ (Client.client sys) = Client.Connecting.
Proof.
  unfold Client.step, Client.undefined.
  destruct (Client.socket_ (Client.client sys)), (Client.writes sys);
    by intros [= <-].
Qed.

Lemma step_connected (error : option error_code) sys sys' :
  Client.step (Client.Connected error) sys = Some sys' →
  sys' = Client.call (Client.start error) (Client.handled sys)
  ∧ Client.connecting sys = true
  ∧ (error = None →
     Client.socket_ (Client.client sys) = Client.Established).
Proof.
  unfold Client.step, Client.undefined.
  destruct (Client.connecting sys); [|by destruct (Client.writes sys)].
  destruct error as [ec|], (Client.socket_ (Client.client sys)) eqn:Hsocket;
    destruct (Client.writes sys); by intros [= <-].
Qed.

Lemma step_write_completed (error : option error_code) sys sys' :
  Client.step (Client.WriteCompleted error) sys = Some sys' →
  ∃ (b : string) (h : Client.handler) (at_once : bool) rest,
    Client.writes sys = (b, h, at_once) :: rest
    ∧ sys' = Client.call (Client.handle h error)
               (Client.completed b h rest error sys)
    ∧ (error = None → at_once = true).
Proof.
  unfold Client.step, Client.undefined.
  destruct (Client.writes sys) as [|[[b h] at_once] rest]; [done|].
  destruct error as [ec|].
  - intros [= <-]. by exists b, h, at_once, rest.
  - destruct at_once; [|done]. intros [= <-]. by exists b, h, true, rest.
Qed.

Lemma step_other (e : Client.event) sys :
  match e with
  | Client.Reached _ | Client.Connected _ | Client.WriteCompleted _ => True
  | Client.Posted msg =>
      Client.step e sys = Some (Client.call (Client.writeSocket msg) sys)
  | Client.PostedClose =>
      Client.step e sys = Some (Client.call Client.closeSocket sys)
  | Client.WriteResumed => Client.step e sys = None
  | Client.Received ev =>
      Client.step e sys
      = if Client.reading sys then
          match ev with
          | Session.Data bytes =>
              if Session.can_read (Client.read_message_ (Client.client sys)) bytes
              then
                let sys1 := Client.append_read bytes sys in
                match Session.read_until
                        (Client.read_message_ (Client.client sys1)) with
                | Session.Match _ =>
                    Some (Client.call (Client.reader None)
                            (Client.stop_reading sys1))
                | Session.NotFound =>
                    Some (Client.call (Client.reader (Some not_found))
                            (Client.stop_reading sys1))
                | Session.NeedMore => Some sys1
                end
              else None
          | Session.ReadFailed ec =>
              Some (Client.call (Client.reader (Some ec))
                      (Client.stop_reading sys))
          end
        else None
  end.
Proof.
  destruct e; try done; unfold Client.step, Client.undefined;
    by destruct (Client.writes sys).
Qed.

Lemma quiet_call u (P : list string)
    (f : Client.t → Client.t * list Client.effect) sys0 sys :
  Client.invariant u P sys →
  Client.write_message_ (Client.client sys0)
    = Client.write_message_ (Client.client sys) →
  Client.username_ (Client.client sys0) = Client.username_ (Client.client sys) →
  Client.in_flight sys0 = Client.in_flight sys →
  Client.buffers_of Client.Writer (Client.wire sys0)
    = Client.buffers_of Client.Writer (Client.wire sys) →
  (∀ c, Client.write_message_ (f c).1 = Client.write_message_ c
        ∧ Client.username_ (f c).1 = Client.username_ c
        ∧ Client.buffers_of Client.Writer (Client.writes_of (f c).2) = []) →
  Client.invariant u P (Client.call f sys0).
Proof.
  intros (Hu & Hflow & Hord) Hq0 Hu0 Hws0 Hwi0 Hf.
  unfold Client.invariant, Client.in_order in *.
  rewrite in_flight_call.
  destruct (call_fields f sys0) as (-> & _ & _ & -> & _).
  destruct (Hf (Client.client sys0)) as (-> & -> & Hnone).
  by rewrite Hnone, app_nil_r, Hq0, Hu0, Hws0, Hwi0.
Qed.

Lemma start_quiet (error : option error_code) c :
  Client.write_message_ (Client.start error c).1 = Client.write_message_ c
  ∧ Client.username_ (Client.start error c).1 = Client.username_ c
  ∧ Client.buffers_of Client.Writer (Client.writes_of (Client.start error c).2) = [].
Proof. by destruct error. Qed.

Lemma reader_quiet (error : option error_code) c :
  Client.write_message_ (Client.reader error c).1 = Client.write_message_ c
  ∧ Client.username_ (Client.reader error c).1 = Client.username_ c
  ∧ Client.buffers_of Client.Writer (Client.writes_of (Client.reader error c).2) = [].
Proof. by destruct error. Qed.

Lemma closeSocket_quiet c :
  Client.write_message_ (Client.closeSocket c).1 = Client.write_message_ c
  ∧ Client.username_ (Client.closeSocket c).1 = Client.username_ c
  ∧ Client.buffers_of Client.Writer (Client.writes_of (Client.closeSocket c).2) = [].
Proof. done. Qed.

Lemma in_flight_completed_reader (b : string) rest
    (error : option error_code) sys (at_once : bool) :
  Client.writes sys = (b, Client.Reader, at_once) :: rest →
  Client.in_flight (Client.completed b Client.Reader rest error sys)
  = Client.in_flight sys.
Proof. unfold Client.in_flight. cbn. by intros ->. Qed.

Lemma wire_completed_reader (b : string) rest (error : option error_code) sys :
  Client.buffers_of Client.Writer
    (Client.wire (Client.completed b Client.Reader rest error sys))
  = Client.buffers_of Client.Writer (Client.wire sys).
Proof.
  destruct error; cbn [Client.completed Client.wire]; [done|].
  rewrite buffers_of_app. apply app_nil_r.
Qed.

Lemma step_invariant u (P : list string) (e : Client.event) sys sys' :
  Client.step e sys = Some sys' →
  Client.invariant u P sys →
  Client.invariant u (P ++ Client.posted [e]) sys'.
Proof.
  intros Hstep Hinv. pose proof (step_other e sys) as Hother.
  destruct e as [ok|error|msg| |error| |ev]; try rewrite app_nil_r.
  - by apply step_reached in Hstep as [-> _].
  - apply step_connected in Hstep as (-> & _).
    apply (quiet_call u P _ _ sys); try done. apply start_quiet.
  - (* writeSocket *)
    rewrite Hother in Hstep. injection Hstep as <-.
    destruct Hinv as (Hu & Hflow & Hord).
    unfold Client.invariant, Client.in_order in *. rewrite in_flight_call.
    destruct (call_fields (Client.writeSocket msg) sys) as (-> & _ & _ & -> & _).
    change (Client.posted [Client.Posted msg]) with [msg].
    unfold Client.writeSocket.
    destruct (Client.write_message_ (Client.client sys)) as [|front rest] eqn:Hq.
    + rewrite (async_write_front _ msg []) by done.
      cbn [fst snd Client.set_write_message Client.write_message_
             Client.username_ Client.writes_of omap app].
      rewrite Hord, Hu.
      split; [done|]. split; [|by left].
      rewrite map_app, <- Hflow. cbn [map]. by rewrite app_nil_r.
    + cbn [fst snd Client.set_write_message Client.write_message_
             Client.username_ Client.writes_of omap app].
      rewrite app_nil_r. split; [done|]. split; [|done].
      change (front :: rest ++ [msg]) with ((front :: rest) ++ [msg]).
      by rewrite !map_app, app_assoc, <- Hflow.
  - rewrite Hother in Hstep. injection Hstep as <-.
    apply (quiet_call u P _ sys sys); try done.
  - (* a write completes *)
    apply step_write_completed in Hstep
      as (b & h & at_once & rest & Hws & -> & _).
    destruct h; cbn [Client.handle].
    + (* the handshake: handler [reader] *)
      apply (quiet_call u P _ _ sys); try done.
      * by apply (in_flight_completed_reader _ _ _ _ at_once).
      * apply wire_completed_reader.
      * apply reader_quiet.
    + (* a message: handler [writer] *)
      destruct Hinv as (Hu & Hflow & Hord).
      unfold Client.invariant, Client.in_order in *.
      assert (Hflight : Client.in_flight sys
                        = b :: Client.buffers_of Client.Writer rest.*1).
      { unfold Client.in_flight. by rewrite Hws. }
      rewrite Hflight in Hord.
      destruct (Client.write_message_ (Client.client sys)) as [|front q] eqn:Hq;
        [done|].
      destruct Hord as [[= -> Hrest]|Hord]; [|done].
      rewrite in_flight_call.
      destruct (call_fields (Client.writer error)
                  (Client.completed
                     (Client.format (Client.username_ (Client.client sys)) front)
                     Client.Writer rest error sys)) as (-> & _ & _ & -> & _).
      assert (Hflight' :
        Client.in_flight
          (Client.completed
             (Client.format (Client.username_ (Client.client sys)) front)
             Client.Writer rest error sys) = []).
      { unfold Client.in_flight. cbn. exact Hrest. }
      rewrite Hflight'.
      cbn [Client.completed Client.client Client.writes Client.wire app].
      destruct error as [ec|]; cbn [Client.writer].
      * cbn [Client.closeSocket fst snd Client.set_socket Client.write_message_
               Client.username_ Client.writes_of omap Client.buffers_of].
        rewrite Hq. split; [done|]. split; [done|]. by right.
      * unfold Client.set_write_message at 1. cbn [Client.write_message_].
        rewrite Hq. cbn [tail]. rewrite buffers_of_app.
        cbn [Client.buffers_of omap snd fst app].
        destruct q as [|next q'].
        -- cbn [fst snd Client.set_write_message Client.write_message_
                  Client.username_ Client.writes_of omap].
           split; [done|]. split; [|done].
           rewrite <- Hflow, Hu. cbn. by rewrite app_nil_r.
        -- rewrite (async_write_front _ next q') by done.
           cbn [fst snd Client.set_write_message Client.write_message_
                  Client.username_ Client.writes_of omap
                  Client.buffers_of].
           split; [done|]. split; [|by left].
           rewrite <- Hflow, Hu. cbn. by rewrite <- app_assoc.
  - by rewrite Hother in Hstep.
  - (* the reading side *)
    rewrite Hother in Hstep. destruct (Client.reading sys); [|done].
    destruct ev as [bytes|ec].
    + destruct (Session.can_read _ bytes); [|done]. cbv zeta in Hstep.
      destruct (Session.read_until _) as [n| |]; injection Hstep as <-.
      * apply (quiet_call u P _ _ sys); try done; try apply reader_quiet.
      * apply (quiet_call u P _ _ sys); try done; try apply reader_quiet.
      * done.
    + injection Hstep as <-.
      apply (quiet_call u P _ _ sys); try done; try apply reader_quiet.
Qed.

Lemma run_invariant u (P : list string) es sys sys' :
  Client.run es sys = Some sys' →
  Client.invariant u P sys →
  Client.invariant u (P ++ Client.posted es) sys'.
Proof.
  revert P sys. induction es as [|e es IH]; intros P sys; cbn [Client.run].
  - intros [= <-]. by rewrite app_nil_r.
  - destruct (Client.step e sys) as [sys1|] eqn:Hstep; [|done].
    intros Hrun Hinv. change (e :: es) with ([e] ++ es).
    rewrite posted_app, app_assoc. apply (IH _ sys1); [done|].
    by apply (step_invariant u P e sys).
Qed.

Lemma client_run_app es1 es2 sys :
  Client.run (es1 ++ es2) sys
  = match Client.run es1 sys with
    | Some sys1 => Client.run es2 sys1
    | None => None
    end.
Proof.
  revert sys. induction es1 as [|e es1 IH]; intros sys; [done|].
  cbn. destruct (Client.step e sys) as [sys1|]; [apply IH|done].
Qed.

Lemma boot_invariant u : Client.invariant u [] (Client.boot u).
Proof. done. Qed.

Lemma run_never_resumes es sys sys' :
  Client.run es sys = Some sys' → Client.WriteResumed ∉ es.
Proof.
  revert sys. induction es as [|e es IH]; intros sys; cbn [Client.run].
  - intros _. apply not_elem_of_nil.
  - destruct (Client.step e sys) as [sys1|] eqn:Hstep; [|done].
    intros Hrun [<-|Hin]%elem_of_cons; [|by apply (IH sys1)].
    pose proof (step_other Client.WriteResumed sys) as Hnone. cbn in Hnone.
    congruence.
Qed.

Lemma quiet_fields (f : Client.t → Client.t * list Client.effect) sys :
  (∀ c, Client.write_message_ (f c).1 = Client.write_message_ c
        ∧ Client.username_ (f c).1 = Client.username_ c
        ∧ Client.buffers_of Client.Writer (Client.writes_of (f c).2) = []) →
  Client.write_message_ (Client.client (Client.call f sys))
    = Client.write_message_ (Client.client sys)
  ∧ Client.in_flight (Client.call f sys) = Client.in_flight sys
  ∧ Client.wire (Client.call f sys) = Client.wire sys.
Proof.
  intros Hf. rewrite in_flight_call.
  destruct (call_fields f sys) as (-> & _ & _ & -> & _).
  destruct (Hf (Client.client sys)) as (-> & _ & Hnone).
  by rewrite Hnone, app_nil_r.
Qed.

Lemma stuck_step (e : Client.event) sys sys' :
  Client.step e sys = Some sys' →
  Client.stuck sys →
  Client.stuck sys'
  ∧ Client.buffers_of Client.Writer (Client.wire sys')
    = Client.buffers_of Client.Writer (Client.wire sys)
  ∧ Client.write_message_ (Client.client sys')
    = Client.write_message_ (Client.client sys) ++ Client.posted [e].
Proof.
  intros Hstep [Hq Hws]. unfold Client.stuck.
  pose proof (step_other e sys) as Hother.
  destruct e as [ok|error|msg| |error| |ev].
  - apply step_reached in Hstep as [-> _]. cbn. by rewrite app_nil_r.
  - apply step_connected in Hstep as (-> & _).
    destruct (quiet_fields _ (Client.handled sys) (start_quiet error))
      as (-> & -> & ->).
    cbn. by rewrite app_nil_r.
  - rewrite Hother in Hstep. injection Hstep as <-. rewrite in_flight_call.
    destruct (call_fields (Client.writeSocket msg) sys) as (-> & _ & _ & -> & _).
    unfold Client.writeSocket.
    destruct (Client.write_message_ (Client.client sys)) as [|front rest] eqn:Hfront;
      [done|].
    cbn [fst snd Client.set_write_message Client.write_message_
           Client.writes_of omap Client.buffers_of].
    rewrite app_nil_r. done.
  - rewrite Hother in Hstep. injection Hstep as <-.
    destruct (quiet_fields _ sys closeSocket_quiet) as (-> & -> & ->).
    by rewrite app_nil_r.
  - apply step_write_completed in Hstep
      as (b & h & at_once & rest & Hwrites & -> & _).
    destruct h.
    2:{ unfold Client.in_flight in Hws. by rewrite Hwrites in Hws. }
    cbn [Client.handle].
    destruct (quiet_fields _ (Client.completed b Client.Reader rest error sys)
                (reader_quiet error)) as (-> & -> & ->).
    rewrite (in_flight_completed_reader _ _ _ _ at_once) by done.
    rewrite wire_completed_reader.
    cbn [Client.completed Client.client]. by rewrite app_nil_r.
  - by rewrite Hother in Hstep.
  - rewrite Hother in Hstep. destruct (Client.reading sys); [|done].
    destruct ev as [bytes|ec].
    + destruct (Session.can_read _ bytes); [|done]. cbv zeta in Hstep.
      destruct (Session.read_until _) as [n| |]; injection Hstep as <-.
      * destruct (quiet_fields _ (Client.stop_reading (Client.append_read bytes sys))
                    (reader_quiet None)) as (-> & -> & ->).
        cbn. by rewrite app_nil_r.
      * destruct (quiet_fields _ (Client.stop_reading (Client.append_read bytes sys))
                    (reader_quiet (Some not_found))) as (-> & -> & ->).
        cbn. by rewrite app_nil_r.
      * cbn. by rewrite app_nil_r.
    + injection Hstep as <-.
      destruct (quiet_fields _ (Client.stop_reading sys)
                  (reader_quiet (Some ec))) as (-> & -> & ->).
      cbn. by rewrite app_nil_r.
Qed.

Lemma stuck_run es sys sys' :
  Client.run es sys = Some sys' →
  Client.stuck sys →
  Client.stuck sys'
  ∧ Client.buffers_of Client.Writer (Client.wire sys')
    = Client.buffers_of Client.Writer (Client.wire sys)
  ∧ Client.write_message_ (Client.client sys')
    = Client.write_message_ (Client.client sys) ++ Client.posted es.
Proof.
  revert sys. induction es as [|e es IH]; intros sys; cbn [Client.run].
  - intros [= <-] Hstuck. by rewrite app_nil_r.
  - destruct (Client.step e sys) as [sys1|] eqn:Hstep; [|done].
    intros Hrun Hstuck.
    destruct (stuck_step e sys sys1 Hstep Hstuck) as (Hstuck1 & Hw1 & Hq1).
    destruct (IH sys1 Hrun Hstuck1) as (Hstuck' & -> & ->).
    rewrite Hw1, Hq1, <- app_assoc. change (e :: es) with ([e] ++ es).
    by rewrite posted_app.
Qed.

(** A call that starts no write of a message, made while the oldest
    pending write is one of a message that cannot succeed. *)
Lemma waiting_call (f : Client.t → Client.t * list Client.effect) sys0
    (b : string) rest :
  (∀ c, Client.write_message_ (f c).1 = Client.write_message_ c
        ∧ Client.username_ (f c).1 = Client.username_ c
        ∧ Client.buffers_of Client.Writer (Client.writes_of (f c).2) = []) →
  Client.writes sys0 = (b, Client.Writer, false) :: rest →
  Client.buffers_of Client.Writer rest.*1 = [] →
  Client.write_message_ (Client.client (Client.call f sys0))
    = Client.write_message_ (Client.client sys0)
  ∧ Client.wire (Client.call f sys0) = Client.wire sys0
  ∧ ∃ rest', Client.writes (Client.call f sys0)
             = (b, Client.Writer, false) :: rest'
             ∧ Client.buffers_of Client.Writer rest'.*1 = [].
Proof.
  intros Hf Hws Hrest.
  destruct (call_fields f sys0) as (-> & _ & -> & -> & _).
  destruct (Hf (Client.client sys0)) as (-> & _ & Hnone).
  split; [done|]. split; [done|]. rewrite Hws.
  exists (rest ++ map (fun w => (w, Client.established (f (Client.client sys0)).1))
                    (Client.writes_of (f (Client.client sys0)).2)).
  split; [done|].
  by rewrite fmap_app, tagged_fst, buffers_of_app, Hrest, Hnone.
Qed.

Lemma blocked_step (e : Client.event) sys sys' :
  Client.step e sys = Some sys' → Client.blocked sys → Client.blocked sys'.
Proof.
  intros Hstep (Hwire & Hq & [Hnone|(b & rest & Hws & Hrest)]).
  { destruct (stuck_step e sys sys' Hstep (conj Hq Hnone))
      as ([Hq' Hnone'] & Hwire' & _).
    split; [by rewrite Hwire'|]. split; [done|by left]. }
  unfold Client.blocked. pose proof (step_other e sys) as Hother.
  destruct e as [ok|error|msg| |error| |ev].
  - apply step_reached in Hstep as [-> _]. cbn. eauto 10.
  - apply step_connected in Hstep as (-> & _).
    destruct (waiting_call _ (Client.handled sys) b rest (start_quiet error)
                Hws Hrest) as (-> & -> & rest' & Hws' & Hrest').
    cbn. eauto 10.
  - rewrite Hother in Hstep. injection Hstep as <-.
    destruct (call_fields (Client.writeSocket msg) sys) as (-> & _ & -> & -> & _).
    unfold Client.writeSocket.
    destruct (Client.write_message_ (Client.client sys)) as [|front q] eqn:Hfront;
      [done|].
    cbn [fst snd Client.set_write_message Client.write_message_
           Client.writes_of omap map].
    rewrite app_nil_r. split; [done|]. split; [done|]. eauto.
  - rewrite Hother in Hstep. injection Hstep as <-.
    destruct (waiting_call _ sys b rest closeSocket_quiet Hws Hrest)
      as (-> & -> & rest' & Hws' & Hrest').
    eauto 10.
  - apply step_write_completed in Hstep
      as (b' & h' & at_once' & rest0 & Hws' & -> & Honce).
    rewrite Hws in Hws'. injection Hws' as <- <- <- <-.
    destruct error as [ec|]; [|by specialize (Honce eq_refl)].
    destruct (quiet_fields _ (Client.completed b Client.Writer rest (Some ec) sys)
                closeSocket_quiet) as (Hq' & Hflight' & Hwire').
    change (Client.handle Client.Writer (Some ec)) with Client.closeSocket.
    rewrite Hq', Hflight', Hwire'. cbn [Client.completed Client.client Client.wire].
    split; [done|]. split; [done|]. left. unfold Client.in_flight. by cbn.
  - by rewrite Hother in Hstep.
  - rewrite Hother in Hstep. destruct (Client.reading sys); [|done].
    destruct ev as [bytes|ec].
    + destruct (Session.can_read _ bytes); [|done]. cbv zeta in Hstep.
      destruct (Session.read_until _) as [n| |]; injection Hstep as <-.
      * destruct (waiting_call _ (Client.stop_reading (Client.append_read bytes sys))
                    b rest (reader_quiet None) Hws Hrest)
          as (-> & -> & rest' & Hws' & Hrest').
        cbn. eauto 10.
      * destruct (waiting_call _ (Client.stop_reading (Client.append_read bytes sys))
                    b rest (reader_quiet (Some not_found)) Hws Hrest)
          as (-> & -> & rest' & Hws' & Hrest').
        cbn. eauto 10.
      * cbn. eauto 10.
    + injection Hstep as <-.
      destruct (waiting_call _ (Client.stop_reading sys) b rest
                  (reader_quiet (Some ec)) Hws Hrest)
        as (-> & -> & rest' & Hws' & Hrest').
      cbn. eauto 10.
Qed.

Lemma blocked_run es sys sys' :
  Client.run es sys = Some sys' → Client.blocked sys → Client.blocked sys'.
Proof.
  revert sys. induction es as [|e es IH]; intros sys; cbn [Client.run].
  - by intros [= <-].
  - destruct (Client.step e sys) as [sys1|] eqn:Hstep; [|done].
    intros Hrun Hblocked. apply (IH sys1 Hrun). by apply (blocked_step e sys).
Qed.

(** No member function opens the socket again. *)
Lemma socket_stays_closed (f : Client.t → Client.t * list Client.effect) sys :
  (∀ c, Client.socket_ (f c).1 = Client.socket_ c
        ∨ Client.socket_ (f c).1 = Client.Closed) →
  Client.socket_ (Client.client sys) = Client.Closed →
  Client.socket_ (Client.client (Client.call f sys)) = Client.Closed.
Proof.
  intros Hf Hclosed. destruct (call_fields f sys) as (-> & _).
  destruct (Hf (Client.client sys)) as [-> | ->]; done.
Qed.

Lemma handlers_keep_socket :
  (∀ (error : option error_code) c,
     Client.socket_ (Client.start error c).1 = Client.socket_ c
     ∨ Client.socket_ (Client.start error c).1 = Client.Closed)
  ∧ (∀ (h : Client.handler) (error : option error_code) c,
       Client.socket_ (Client.handle h error c).1 = Client.socket_ c
       ∨ Client.socket_ (Client.handle h error c).1 = Client.Closed)
  ∧ (∀ msg c,
       Client.socket_ (Client.writeSocket msg c).1 = Client.socket_ c
       ∨ Client.socket_ (Client.writeSocket msg c).1 = Client.Closed)
  ∧ (∀ c, Client.socket_ (Client.closeSocket c).1 = Client.socket_ c
          ∨ Client.socket_ (Client.closeSocket c).1 = Client.Closed).
Proof.
  split; [|split; [|split]].
  - intros [ec|] c; by left.
  - intros [] [ec|] c; cbn; try (by right); try (by left).
    unfold Client.writer. cbn.
    destruct (tail (Client.write_message_ c)); by left.
  - intros msg c. unfold Client.writeSocket.
    destruct (Client.write_message_ c); by left.
  - intros c. by right.
Qed.

Lemma socket_not_established (f : Client.t → Client.t * list Client.effect) sys :
  (∀ c, Client.socket_ (f c).1 = Client.socket_ c
        ∨ Client.socket_ (f c).1 = Client.Closed) →
  Client.socket_ (Client.client sys) ≠ Client.Established →
  Client.socket_ (Client.client (Client.call f sys)) ≠ Client.Established.
Proof.
  intros Hf Hsocket. destruct (call_fields f sys) as (-> & _).
  destruct (Hf (Client.client sys)) as [-> | ->]; done.
Qed.

(** Before the connection is established: nothing has been started or
    written, or the client is blocked already. *)
Lemma early_step (e : Client.event) sys sys' :
  Client.step e sys = Some sys' →
  e ≠ Client.Reached true →
  Client.socket_ (Client.client sys) ≠ Client.Established →
  Client.blocked sys
  ∨ (Client.write_message_ (Client.client sys) = []
     ∧ Client.writes sys = [] ∧ Client.wire sys = []) →
  Client.socket_ (Client.client sys') ≠ Client.Established
  ∧ (Client.blocked sys'
     ∨ (Client.write_message_ (Client.client sys') = []
        ∧ Client.writes sys' = [] ∧ Client.wire sys' = []
        ∧ Client.posted [e] = [])).
Proof.
  intros Hstep He Hsocket Hstate. split.
  { pose proof (step_other e sys) as Hother.
    destruct handlers_keep_socket as (Hstart & Hhandle & Hwrite & Hclose).
    destruct e as [[]|error|msg| |error| |ev]; [done|..].
    - by apply step_reached in Hstep as [-> _].
    - apply step_connected in Hstep as (-> & _).
      by apply socket_not_established.
    - rewrite Hother in Hstep. injection Hstep as <-.
      by apply socket_not_established.
    - rewrite Hother in Hstep. injection Hstep as <-.
      by apply socket_not_established.
    - apply step_write_completed in Hstep as (b & h & at_once & rest & _ & -> & _).
      by apply socket_not_established.
    - by rewrite Hother in Hstep.
    - rewrite Hother in Hstep. destruct (Client.reading sys); [|done].
      destruct ev as [bytes|ec].
      + destruct (Session.can_read _ bytes); [|done]. cbv zeta in Hstep.
        destruct (Session.read_until _) as [n| |]; injection Hstep as <-.
        * apply socket_not_established; [apply (Hhandle Client.Reader)|done].
        * apply socket_not_established; [apply (Hhandle Client.Reader)|done].
        * done.
      + injection Hstep as <-.
        apply socket_not_established; [apply (Hhandle Client.Reader)|done]. }
  destruct Hstate as [Hblocked|(Hq & Hws & Hwire)];
    [left; by apply (blocked_step e sys)|].
  pose proof (step_other e sys) as Hother.
  destruct e as [ok|error|msg| |error| |ev].
  - apply step_reached in Hstep as [-> _]. by right.
  - apply step_connected in Hstep as (-> & _ & Hok).
    destruct error as [ec|]; [|by specialize (Hok eq_refl)].
    right. destruct (call_fields (Client.start (Some ec)) (Client.handled sys))
      as (-> & _ & -> & -> & _).
    cbn. by rewrite Hws, Hq, Hwire.
  - left. rewrite Hother in Hstep. injection Hstep as <-.
    unfold Client.blocked.
    destruct (call_fields (Client.writeSocket msg) sys) as (-> & _ & -> & -> & _).
    unfold Client.writeSocket. rewrite Hq, Hws, Hwire.
    rewrite (async_write_front _ msg []) by done.
    cbn [fst snd Client.set_write_message Client.write_message_ app
           Client.writes_of omap map Client.established Client.socket_].
    split; [done|]. split; [done|]. right.
    exists (Client.format (Client.username_ (Client.client sys)) msg), [].
    split; [|done]. cbn. unfold Client.established. cbn.
    by destruct (Client.socket_ (Client.client sys)).
  - right. rewrite Hother in Hstep. injection Hstep as <-.
    destruct (call_fields Client.closeSocket sys) as (-> & _ & -> & -> & _).
    cbn. by rewrite Hws, Hq, Hwire.
  - apply step_write_completed in Hstep as (b & h & at_once & rest & Hws' & _).
    by rewrite Hws in Hws'.
  - by rewrite Hother in Hstep.
  - right. rewrite Hother in Hstep. destruct (Client.reading sys); [|done].
    destruct ev as [bytes|ec].
    + destruct (Session.can_read _ bytes); [|done]. cbv zeta in Hstep.
      destruct (Session.read_until _) as [n| |]; injection Hstep as <-.
      * destruct (call_fields (Client.reader None)
                    (Client.stop_reading (Client.append_read bytes sys)))
          as (-> & _ & -> & -> & _).
        cbn. by rewrite Hws, Hq, Hwire.
      * destruct (call_fields (Client.reader (Some not_found))
                    (Client.stop_reading (Client.append_read bytes sys)))
          as (-> & _ & -> & -> & _).
        cbn. by rewrite Hws, Hq, Hwire.
      * cbn. by rewrite Hws, Hq, Hwire.
    + injection Hstep as <-.
      destruct (call_fields (Client.reader (Some ec)) (Client.stop_reading sys))
        as (-> & _ & -> & -> & _).
      cbn. by rewrite Hws, Hq, Hwire.
Qed.

Lemma early_run es sys sys' :
  Client.run es sys = Some sys' →
  Client.Reached true ∉ es →
  Client.socket_ (Client.client sys) ≠ Client.Established →
  Client.blocked sys
  ∨ (Client.write_message_ (Client.client sys) = []
     ∧ Client.writes sys = [] ∧ Client.wire sys = []) →
  Client.socket_ (Client.client sys') ≠ Client.Established
  ∧ (Client.blocked sys'
     ∨ (Client.write_message_ (Client.client sys') = []
        ∧ Client.writes sys' = [] ∧ Client.wire sys' = [])).
Proof.
  revert sys. induction es as [|e es IH]; intros sys; cbn [Client.run].
  - by intros [= <-].
  - destruct (Client.step e sys) as [sys1|] eqn:Hstep; [|done].
    intros Hrun Hearly Hsocket Hstate.
    apply not_elem_of_cons in Hearly as [He Hes].
    destruct (early_step e sys sys1 Hstep) as [Hsocket1 Hstate1]; [done..|].
    apply (IH sys1 Hrun Hes Hsocket1).
    destruct Hstate1 as [?|(? & ? & ? & _)]; auto.
Qed.

(** In every run of a client whose behaviour is defined, that is, in
    which every write that completes has taken its bytes in the call that
    started it and no pending write is resumed (it would read the
    temporary behind its buffer after that is destroyed), each posted
    message is handed to [async_write] as the line "[username] message\n":
    the writes of messages that have completed, followed by the queue, are
    the posted messages in order; at most one such write is in flight, and
    it sends the front of the queue.  A message posted before the
    connection is established is never written in such a run, nor is any
    message after it: its write cannot take the bytes at once, and it
    stays at the front of the queue. *)
Theorem client_sends_in_order u es sys :
  Client.run es (Client.boot u) = Some sys →
  Client.buffers_of Client.Writer (Client.wire sys)
    ++ map (Client.format u) (Client.write_message_ (Client.client sys))
  = map (Client.format u) (Client.posted es)
  ∧ (Client.in_flight sys = []
     ∨ ∃ front rest,
         Client.write_message_ (Client.client sys) = front :: rest
         ∧ Client.in_flight sys = [Client.format u front])
  ∧ (Client.WriteResumed ∉ es)
  ∧ (∀ es1 msg es2,
       es = es1 ++ Client.Posted msg :: es2 →
       Client.Reached true ∉ es1 →
       Client.buffers_of Client.Writer (Client.wire sys) = []
       ∧ Client.write_message_ (Client.client sys) ≠ []).
Proof.
  intros Hrun.
  destruct (run_invariant u [] es _ _ Hrun (boot_invariant u)) as (Hu & Hflow & Hord).
  split; [done|]. split; [|split].
  - unfold Client.in_order in Hord.
    destruct (Client.write_message_ (Client.client sys)) as [|front rest];
      [by left|].
    destruct Hord as [Hone|Hnone]; [|by left]. right. exists front, rest.
    by rewrite <- Hu.
  - by apply (run_never_resumes es (Client.boot u) sys).
  - intros es1 msg es2 -> Hearly. rewrite client_run_app in Hrun.
    destruct (Client.run es1 (Client.boot u)) as [sys1|] eqn:Hrun1; [|done].
    cbn [Client.run] in Hrun.
    destruct (Client.step (Client.Posted msg) sys1) as [sys2|] eqn:Hstep;
      [|done].
    destruct (early_run es1 _ sys1 Hrun1 Hearly) as [Hsocket1 Hstate1];
      [done|by right|].
    destruct (early_step _ sys1 sys2 Hstep) as [_ Hstate2]; [done..|].
    destruct Hstate2 as [Hblocked|(_ & _ & _ & Hposted)]; [|done].
    by destruct (blocked_run es2 sys2 sys Hrun Hblocked) as (? & ? & _).
Qed.

Lemma client_sends_in_order_witness :
  match Client.run [Client.Reached true; Client.Connected None;
                    Client.Posted "a"; Client.Posted "b";
                    Client.WriteCompleted None; Client.WriteCompleted None]
          (Client.boot "ann") with
  | Some sys =>
      Client.buffers_of Client.Writer (Client.wire sys)
        ++ map (Client.format "ann") (Client.write_message_ (Client.client sys))
      = [Client.format "ann" "a"; Client.format "ann" "b"]
      ∧ Client.buffers_of Client.Writer (Client.wire sys)
        = [Client.format "ann" "a"]
  | None => False
  end
  ∧ match Client.run [Client.Posted "a"; Client.Reached true;
                      Client.Connected None; Client.Posted "b"]
            (Client.boot "ann") with
    | Some sys =>
        Client.buffers_of Client.Writer (Client.wire sys) = []
        ∧ Client.write_message_ (Client.client sys) = ["a"; "b"]
    | None => False
    end
  ∧ Client.run [Client.Posted "a"; Client.Reached true;
                Client.Connected None; Client.WriteCompleted None]
      (Client.boot "ann") = None.
Proof.
  split; [|split].
  - destruct (Client.run _ (Client.boot "ann")) as [sys|] eqn:Hrun.
    + split; [exact (proj1 (client_sends_in_order "ann" _ sys Hrun))|].
      vm_compute in Hrun. by injection Hrun as <-.
    + vm_compute in Hrun. discriminate Hrun.
  - destruct (Client.run _ (Client.boot "ann")) as [sys|] eqn:Hrun.
    + destruct (client_sends_in_order "ann" _ sys Hrun) as (_ & _ & _ & Hearly).
      split.
      * apply (Hearly [] "a" [Client.Reached true; Client.Connected None;
                              Client.Posted "b"] eq_refl).
        apply not_elem_of_nil.
      * vm_compute in Hrun. by injection Hrun as <-.
    + vm_compute in Hrun. discriminate Hrun.
  - reflexivity.
Defined.

Lemma closed_step (e : Client.event) sys sys' :
  Client.step e sys = Some sys' →
  Client.socket_ (Client.client sys) = Client.Closed →
  Client.socket_ (Client.client sys') = Client.Closed.
Proof.
  intros Hstep Hclosed. pose proof (step_other e sys) as Hother.
  destruct handlers_keep_socket as (Hstart & Hhandle & Hwrite & Hclose).
  destruct e as [ok|error|msg| |error| |ev].
  - apply step_reached in Hstep as [_ Hconnecting]. congruence.
  - apply step_connected in Hstep as (-> & _).
    by apply socket_stays_closed.
  - rewrite Hother in Hstep. injection Hstep as <-.
    by apply socket_stays_closed.
  - rewrite Hother in Hstep. injection Hstep as <-.
    by apply socket_stays_closed.
  - apply step_write_completed in Hstep as (b & h & at_once & rest & _ & -> & _).
    by apply socket_stays_closed.
  - by rewrite Hother in Hstep.
  - rewrite Hother in Hstep. destruct (Client.reading sys); [|done].
    destruct ev as [bytes|ec].
    + destruct (Session.can_read _ bytes); [|done]. cbv zeta in Hstep.
      destruct (Session.read_until _) as [n| |]; injection Hstep as <-.
      * apply socket_stays_closed; [apply (Hhandle Client.Reader)|done].
      * apply socket_stays_closed; [apply (Hhandle Client.Reader)|done].
      * done.
    + injection Hstep as <-.
      apply socket_stays_closed; [apply (Hhandle Client.Reader)|done].
Qed.

Lemma closed_run es sys sys' :
  Client.run es sys = Some sys' →
  Client.socket_ (Client.client sys) = Client.Closed →
  Client.socket_ (Client.client sys') = Client.Closed.
Proof.
  revert sys. induction es as [|e es IH]; intros sys; cbn [Client.run].
  - by intros [= <-].
  - destruct (Client.step e sys) as [sys1|] eqn:Hstep; [|done].
    intros Hrun Hclosed. apply (IH sys1 Hrun). by apply (closed_step e sys).
Qed.

(** When the write of a message fails, [writer] closes the socket and
    leaves the message at the front of the queue: from then on the socket
    stays closed, [writeSocket] finds a write in progress, and the client
    accepts every further message into the queue without ever handing one
    to [async_write] again. *)
Theorem client_write_failure_is_final u es1 es2 (ec : error_code) sys1 sys2
    (b : string) (at_once : bool) rest :
  Client.run es1 (Client.boot u) = Some sys1 →
  Client.writes sys1 = (b, Client.Writer, at_once) :: rest →
  Client.run (Client.WriteCompleted (Some ec) :: es2) sys1 = Some sys2 →
  Client.write_message_ (Client.client sys1) ≠ []
  ∧ Client.write_message_ (Client.client sys2)
    = Client.write_message_ (Client.client sys1) ++ Client.posted es2
  ∧ Client.buffers_of Client.Writer (Client.wire sys2)
    = Client.buffers_of Client.Writer (Client.wire sys1)
  ∧ Client.in_flight sys2 = []
  ∧ Client.socket_ (Client.client sys2) = Client.Closed.
Proof.
  intros Hrun1 Hwrites Hrun2.
  destruct (run_invariant u [] es1 _ _ Hrun1 (boot_invariant u))
    as (Hu & Hflow & Hord).
  unfold Client.in_order in Hord.
  assert (Hflight : Client.in_flight sys1
                    = b :: Client.buffers_of Client.Writer rest.*1).
  { unfold Client.in_flight. by rewrite Hwrites. }
  rewrite Hflight in Hord.
  destruct (Client.write_message_ (Client.client sys1)) as [|front q] eqn:Hq;
    [done|].
  destruct Hord as [[= -> Hrest]|Hord]; [|done].
  cbn [Client.run] in Hrun2.
  destruct (Client.step (Client.WriteCompleted (Some ec)) sys1)
    as [sys1'|] eqn:Hstep; [|done].
  apply step_write_completed in Hstep
    as (b' & h' & at_once' & rest' & Hwrites' & -> & _).
  rewrite Hwrites in Hwrites'. injection Hwrites' as <- <- <- <-.
  match type of Hrun2 with
  | Client.run es2 ?s = _ => assert (Client.stuck s
      ∧ Client.write_message_ (Client.client s) = front :: q
      ∧ Client.wire s = Client.wire sys1
      ∧ Client.socket_ (Client.client s) = Client.Closed)
      as (Hstuck & Hq' & Hwire & Hclosed)
  end.
  { unfold Client.stuck. rewrite in_flight_call.
    destruct (call_fields (Client.handle Client.Writer (Some ec))
                (Client.completed
                   (Client.format (Client.username_ (Client.client sys1)) front)
                   Client.Writer rest (Some ec) sys1)) as (-> & _ & _ & -> & _).
    assert (Hflight' :
      Client.in_flight
        (Client.completed
           (Client.format (Client.username_ (Client.client sys1)) front)
           Client.Writer rest (Some ec) sys1) = []).
    { unfold Client.in_flight. cbn. exact Hrest. }
    rewrite Hflight'. cbn. by rewrite Hq. }
  destruct (stuck_run es2 _ sys2 Hrun2 Hstuck) as ([_ Hnone] & Hw & Hq2).
  split; [done|]. rewrite Hq2, Hw, Hq', Hwire.
  split; [done|]. split; [done|]. split; [done|].
  by apply (closed_run es2 _ sys2 Hrun2).
Qed.

Lemma client_write_failure_is_final_witness :
  match Client.run [Client.Reached true; Client.Connected None;
                    Client.WriteCompleted None;
                    Client.Posted "a"; Client.Posted "b"] (Client.boot "ann") with
  | Some sys1 =>
      match Client.run [Client.WriteCompleted (Some eof); Client.Posted "c";
                        Client.Received (Session.ReadFailed eof)] sys1 with
      | Some sys2 =>
          Client.write_message_ (Client.client sys2) = ["a"; "b"; "c"]
          ∧ Client.buffers_of Client.Writer (Client.wire sys2) = []
          ∧ Client.socket_ (Client.client sys1) = Client.Established
          ∧ Client.socket_ (Client.client sys2) = Client.Closed
      | None => False
      end
  | None => False
  end.
Proof.
  destruct (Client.run _ (Client.boot "ann")) as [sys1|] eqn:Hrun1;
    [|vm_compute in Hrun1; discriminate Hrun1].
  destruct (Client.run _ sys1) as [sys2|] eqn:Hrun2.
  - pose proof Hrun1 as Hsys1. vm_compute in Hsys1. injection Hsys1 as Hsys1.
    assert (Client.writes sys1
            = (Client.format "ann" "a", Client.Writer, true) :: []) as Hwrites
      by (by rewrite <- Hsys1).
    destruct (client_write_failure_is_final "ann" _ _ eof sys1 sys2 _ _ _
                Hrun1 Hwrites Hrun2) as (_ & Hq & Hw & _ & Hclosed).
    rewrite Hq, Hw, Hclosed, <- Hsys1. by vm_compute.
  - pose proof Hrun1 as Hsys1. vm_compute in Hsys1. injection Hsys1 as Hsys1.
    rewrite <- Hsys1 in Hrun2. vm_compute in Hrun2. discriminate Hrun2.
Defined.

End ClientQueue.

(** ** The client: what [main] sends *)

Section ClientMain.

Implicit Types (sys : Client.system) (u msg : string).
Implicit Types (es : list Client.event) (stdin : list string).

Lemma posted_by_main es :
  Client.posted (List.filter Client.by_main es) = Client.posted es.
Proof.
  induction es as [|e es IH]; [done|].
  destruct e as [ok|error|msg| |error| |ev]; cbn [List.filter Client.by_main];
    try exact IH.
  change (Client.posted (Client.Posted msg :: ?l))
    with (msg :: Client.posted l).
  by rewrite IH.
Qed.

Lemma posted_main_loop stdin :
  Client.posted (Client.main_loop stdin)
  = filter (λ msg, msg ≠ EmptyString) stdin.
Proof.
  induction stdin as [|msg stdin IH]; [done|].
  change (Client.main_loop (msg :: stdin))
    with ((if String.eqb msg EmptyString then [] else [Client.Posted msg])
            ++ Client.main_loop stdin).
  rewrite posted_app, IH.
  destruct (String.eqb_spec msg EmptyString) as [->|Hne].
  - by rewrite filter_cons_False by (by intros H).
  - by rewrite filter_cons_True by done.
Qed.

(** [main] never asks for the socket to be closed: its loop does not end,
    so [client.close()] is not reached. *)
Lemma main_never_closes stdin : Client.PostedClose ∉ Client.main_loop stdin.
Proof.
  induction stdin as [|msg stdin IH]; [by intros ?%elem_of_nil|].
  change (Client.main_loop (msg :: stdin))
    with ((if String.eqb msg EmptyString then [] else [Client.Posted msg])
            ++ Client.main_loop stdin).
  intros [H|H]%elem_of_app; [|done].
  destruct (String.eqb msg EmptyString).
  - by apply elem_of_nil in H.
  - by apply list_elem_of_singleton in H.
Qed.

(** Under any schedule of [main] on the lines typed in which the
    behaviour of the client is defined (every write that completes has
    taken its bytes in the call that started it, on an established
    connection), once the queue has drained the messages written to the
    socket are the lines that are not empty, in the order typed, each as
    "[username] line\n"; an empty line sends nothing. *)
Theorem client_sends_typed_lines u stdin es sys :
  Client.schedule_of stdin es →
  Client.run es (Client.boot u) = Some sys →
  Client.write_message_ (Client.client sys) = [] →
  Client.buffers_of Client.Writer (Client.wire sys)
  = map (Client.format u) (filter (λ msg, msg ≠ EmptyString) stdin).
Proof.
  intros Hsched Hrun Hq.
  destruct (run_invariant u [] es _ _ Hrun (boot_invariant u)) as (_ & Hflow & _).
  rewrite Hq, app_nil_r in Hflow. rewrite Hflow. cbn [app].
  by rewrite <- posted_by_main, Hsched, posted_main_loop.
Qed.

Lemma client_sends_typed_lines_witness :
  match Client.run [Client.Reached true; Client.Connected None; Client.Posted "hi";
                    Client.WriteCompleted None; Client.Posted "there";
                    Client.WriteCompleted None; Client.WriteCompleted None]
          (Client.boot "ann") with
  | Some sys =>
      Client.buffers_of Client.Writer (Client.wire sys)
      = map (Client.format "ann")
          (filter (λ msg, msg ≠ EmptyString) ["hi"; EmptyString; "there"])
  | None => False
  end.
Proof.
  destruct (Client.run _ (Client.boot "ann")) as [sys|] eqn:Hrun.
  - apply (client_sends_typed_lines "ann" ["hi"; EmptyString; "there"]
             [Client.Reached true; Client.Connected None; Client.Posted "hi";
              Client.WriteCompleted None; Client.Posted "there";
              Client.WriteCompleted None; Client.WriteCompleted None] sys);
      [reflexivity|exact Hrun|].
    vm_compute in Hrun. by injection Hrun as <-.
  - vm_compute in Hrun. discriminate Hrun.
Defined.

End ClientMain.

(** ** The client: what it prints *)

Section ClientReader.

Implicit Types (c : Client.t) (sys : Client.system) (u msg : string).
Implicit Types (es : list Client.event).

Lemma stream_app (l1 l2 : list string) :
  stream (l1 ++ l2) = stream l1 +:+ stream l2.
Proof.
  induction l1 as [|s l1 IH]; cbn [app stream].
  - by rewrite string_app_nil_l.
  - by rewrite IH, string_app_assoc.
Qed.

Lemma received_app es1 es2 :
  Client.received (es1 ++ es2) = Client.received es1 ++ Client.received es2.
Proof. apply omap_app. Qed.

Lemma call_shown (f : Client.t → Client.t * list Client.effect) sys :
  (∀ c, stream (Client.printed_of (f c).2) +:+ Client.read_message_ (f c).1
        = Client.read_message_ c) →
  Client.shown (Client.call f sys) = Client.shown sys.
Proof.
  intros Hf. unfold Client.shown.
  destruct (call_fields f sys) as (-> & _ & _ & _ & -> & _).
  by rewrite stream_app, string_app_assoc, Hf.
Qed.

Lemma start_shown (error : option error_code) c :
  stream (Client.printed_of (Client.start error c).2)
    +:+ Client.read_message_ (Client.start error c).1
  = Client.read_message_ c.
Proof. destruct error; cbn; by rewrite string_app_nil_l. Qed.

Lemma reader_shown (error : option error_code) c :
  stream (Client.printed_of (Client.reader error c).2)
    +:+ Client.read_message_ (Client.reader error c).1
  = Client.read_message_ c.
Proof.
  destruct error; cbn.
  - by rewrite string_app_nil_l.
  - by rewrite !string_app_nil_r.
Qed.

Lemma closeSocket_shown c :
  stream (Client.printed_of (Client.closeSocket c).2)
    +:+ Client.read_message_ (Client.closeSocket c).1
  = Client.read_message_ c.
Proof. cbn. by rewrite string_app_nil_l. Qed.

Lemma writeSocket_shown msg c :
  stream (Client.printed_of (Client.writeSocket msg c).2)
    +:+ Client.read_message_ (Client.writeSocket msg c).1
  = Client.read_message_ c.
Proof.
  unfold Client.writeSocket, Client.async_write.
  destruct (Client.write_message_ c); cbn; by rewrite string_app_nil_l.
Qed.

Lemma writer_shown (error : option error_code) c :
  stream (Client.printed_of (Client.writer error c).2)
    +:+ Client.read_message_ (Client.writer error c).1
  = Client.read_message_ c.
Proof.
  destruct error; [apply closeSocket_shown|].
  unfold Client.writer, Client.async_write.
  destruct (Client.write_message_ c) as [|front [|next q]]; cbn;
    by rewrite string_app_nil_l.
Qed.

Lemma step_shown (e : Client.event) sys sys' :
  Client.step e sys = Some sys' →
  Client.shown sys' = Client.shown sys +:+ stream (Client.received [e]).
Proof.
  intros Hstep. pose proof (step_other e sys) as Hother.
  destruct e as [ok|error|msg| |error| |ev].
  - apply step_reached in Hstep as [-> _]. unfold Client.shown. cbn.
    by rewrite string_app_nil_r.
  - apply step_connected in Hstep as (-> & _).
    rewrite call_shown by apply start_shown.
    by rewrite string_app_nil_r.
  - rewrite Hother in Hstep. injection Hstep as <-.
    rewrite call_shown by apply writeSocket_shown.
    by rewrite string_app_nil_r.
  - rewrite Hother in Hstep. injection Hstep as <-.
    rewrite call_shown by apply closeSocket_shown.
    by rewrite string_app_nil_r.
  - apply step_write_completed in Hstep as (b & h & at_once & rest & _ & -> & _).
    rewrite string_app_nil_r.
    destruct h; cbn [Client.handle].
    + by rewrite call_shown by apply reader_shown.
    + by rewrite call_shown by apply writer_shown.
  - by rewrite Hother in Hstep.
  - rewrite Hother in Hstep. destruct (Client.reading sys); [|done].
    destruct ev as [bytes|ec].
    + change (stream (Client.received [Client.Received (Session.Data bytes)]))
        with (bytes +:+ EmptyString).
      rewrite string_app_nil_r.
      assert (Client.shown (Client.append_read bytes sys)
              = Client.shown sys +:+ bytes) as Happ.
      { unfold Client.shown. cbn. by rewrite string_app_assoc. }
      destruct (Session.can_read _ bytes); [|done]. cbv zeta in Hstep.
      destruct (Session.read_until _) as [n| |]; injection Hstep as <-.
      * by rewrite call_shown by apply reader_shown.
      * by rewrite call_shown by apply reader_shown.
      * done.
    + injection Hstep as <-. rewrite call_shown by apply reader_shown.
      by rewrite string_app_nil_r.
Qed.

(** The client prints every byte the socket gives it, in the order
    received, and no other text than the end of line that [std::endl] puts
    after each piece: the pieces printed, followed by what [read_message_]
    still holds, are what has been received. *)
Theorem client_prints_all_bytes u es sys :
  Client.run es (Client.boot u) = Some sys →
  stream (Client.terminal sys) +:+ Client.read_message_ (Client.client sys)
  = stream (Client.received es).
Proof.
  intros Hrun.
  enough (∀ es sys0 sys, Client.run es sys0 = Some sys →
            Client.shown sys = Client.shown sys0 +:+ stream (Client.received es)) as Hgen.
  { rewrite <- (string_app_nil_l (stream (Client.received es))).
    apply (Hgen es (Client.boot u) sys Hrun). }
  clear. intros es. induction es as [|e es IH]; intros sys0 sys; cbn [Client.run].
  - intros [= <-]. by rewrite string_app_nil_r.
  - destruct (Client.step e sys0) as [sys1|] eqn:Hstep; [|done].
    intros Hrun. rewrite (IH _ _ Hrun), (step_shown _ _ _ Hstep).
    change (e :: es) with ([e] ++ es).
    by rewrite received_app, stream_app, string_app_assoc.
Qed.

Lemma client_prints_all_bytes_witness :
  match Client.run [Client.Reached true; Client.Connected None;
                    Client.WriteCompleted None;
                    Client.Received (Session.Data "hel");
                    Client.Received (Session.Data ("lo" +:+ nl +:+ "wor"))]
          (Client.boot "ann") with
  | Some sys =>
      stream (Client.terminal sys) +:+ Client.read_message_ (Client.client sys)
      = "hello" +:+ nl +:+ "wor"
  | None => False
  end.
Proof.
  destruct (Client.run _ (Client.boot "ann")) as [sys|] eqn:Hrun.
  - rewrite (client_prints_all_bytes "ann" _ sys Hrun). reflexivity.
  - vm_compute in Hrun. discriminate Hrun.
Defined.

End ClientReader.

(** ** From the client's keyboard to the room *)

Section Relay.

Implicit Types (w : World) (self : ptr) (u msg : string).
Implicit Types (chunks msgs L : list string).

Lemma first_line_app_none_none (a b : string) :
  first_line a = None → first_line b = None → first_line (a +:+ b) = None.
Proof. intros Ha Hb. by rewrite first_line_app_none, Hb. Qed.

Lemma format_line u msg :
  Client.format u msg = ("[" +:+ u +:+ "] " +:+ msg) +:+ nl.
Proof. unfold Client.format. by rewrite !string_app_assoc. Qed.

Lemma format_first_line u msg :
  String.index 0 nl u = None →
  String.index 0 nl msg = None →
  first_line ("[" +:+ u +:+ "] " +:+ msg) = None.
Proof.
  intros Hu Hmsg. apply first_line_app_none_none; [done|].
  apply first_line_app_none_none; [by apply index_none_first_line|].
  apply first_line_app_none_none; [done|by apply index_none_first_line].
Qed.

(** A line as the reader's buffer admits it: some bytes without a
    terminator, then the terminator, within the size of the buffer. *)
Lemma terminated_first_line (content rest : string) :
  first_line content = None →
  first_line ((content +:+ nl) +:+ rest) = Some (content +:+ nl, rest).
Proof.
  intros Hc. rewrite string_app_assoc, first_line_app_none by done.
  unfold nl. rewrite string_app_cons, string_app_nil_l.
  cbn [first_line]. by rewrite Ascii.eqb_refl.
Qed.

Lemma string_app_nil (a b : string) :
  a +:+ b = EmptyString → a = EmptyString ∧ b = EmptyString.
Proof. destruct a; [done|]. by rewrite string_app_cons. Qed.

Lemma lines_split L :
  Forall (fun l => ∃ content, l = content +:+ nl ∧ first_line content = None) L →
  ∀ a b : string,
    a +:+ b = stream L →
    ∃ L', L = (lines a).1 ++ L' ∧ (lines a).2 +:+ b = stream L'.
Proof.
  induction 1 as [|l L0 (content & -> & Hcontent) _ IH]; intros a b Hab.
  - apply string_app_nil in Hab as [-> ->]. by exists [].
  - unfold lines. rewrite lines_from_first_line.
    destruct (first_line a) as [[l1 rest]|] eqn:Ha.
    + pose proof (first_line_app_some _ b _ _ Ha) as Happ.
      cbn [stream] in Hab. rewrite Hab, terminated_first_line in Happ by done.
      injection Happ as <- Hrest.
      destruct (IH rest b (eq_sym Hrest)) as (L' & -> & Hstream).
      exists L'. cbn [fst snd]. by rewrite string_app_nil_l.
    + exists ((content +:+ nl) :: L0). cbn [fst snd app].
      by rewrite string_app_nil_l.
Qed.

Lemma prefix_of_line_short (r b : string) L :
  Forall (fun l => ∃ content, l = content +:+ nl ∧ first_line content = None
                              ∧ String.length l ≤ Session.max_size) L →
  first_line r = None →
  r +:+ b = stream L →
  String.length r < Session.max_size.
Proof.
  intros HL Hr Hrb. destruct HL as [|l L0 (content & -> & Hcontent & Hlen) _].
  - apply string_app_nil in Hrb as [-> _]. unfold Session.max_size. cbn. lia.
  - pose proof (first_line_app_none r b Hr) as Happ.
    cbn [stream] in Hrb. rewrite Hrb, terminated_first_line in Happ by done.
    destruct (first_line b) as [[lb rest]|] eqn:Hb; [|done].
    apply first_line_length in Hb as [Hlb _].
    injection Happ as Hl _. rewrite Hl, string_length_app in Hlen. lia.
Qed.

Lemma reader_run_fits self chunks :
  ∀ L (buf : string) w,
    Forall (fun l => ∃ content, l = content +:+ nl ∧ first_line content = None
                                ∧ String.length l ≤ Session.max_size) L →
    first_line buf = None →
    buf +:+ stream chunks = stream L →
    reads_fit buf chunks = true →
    Session.reader_run self (map Session.Data chunks) (Session.Reading buf) w
    = Some (Session.Reading EmptyString, Session.forward L w).
Proof.
  induction chunks as [|c cs IH]; intros L buf w HL Hbuf Hstream Hfit.
  - cbn [stream] in Hstream. rewrite string_app_nil_r in Hstream. subst buf.
    destruct HL as [|l L0 (content & -> & Hcontent & _) _]; [done|].
    cbn [stream] in Hbuf. by rewrite terminated_first_line in Hbuf.
  - cbn [reads_fit] in Hfit. apply andb_true_iff in Hfit as [Hread Hfit].
    cbn [map Session.reader_run]. rewrite reader_data by done.
    cbn [stream] in Hstream. rewrite <- string_app_assoc in Hstream.
    destruct (lines_split L) with (a := buf +:+ c) (b := stream cs)
      as (L' & -> & Hrest); [|done|].
    { eapply Forall_impl; [exact HL|]. intros l (content & ? & ? & _). eauto. }
    apply Forall_app in HL as [_ HL'].
    destruct (lines_from_rest EmptyString (buf +:+ c) eq_refl) as [Hr _].
    fold (lines (buf +:+ c)) in Hr.
    pose proof (prefix_of_line_short _ _ _ HL' Hr Hrest) as Hshort.
    unfold Session.settle.
    destruct (Nat.eqb_spec (String.length (lines (buf +:+ c)).2)
                Session.max_size) as [Heq|_]; [lia|].
    rewrite (IH L' _ _ HL' Hr Hrest Hfit). by rewrite forward_app.
Qed.

Lemma formats_are_lines u msgs :
  String.index 0 nl u = None →
  Forall (fun msg => String.index 0 nl msg = None
                     ∧ String.length msg + 4 + String.length u
                       ≤ Session.max_size) msgs →
  Forall (fun l => ∃ content, l = content +:+ nl ∧ first_line content = None
                              ∧ String.length l ≤ Session.max_size)
    (map (Client.format u) msgs).
Proof.
  intros Hu Hmsgs. apply Forall_fmap. eapply Forall_impl; [exact Hmsgs|].
  intros msg [Hmsg Hlen]. cbn. exists ("[" +:+ u +:+ "] " +:+ msg).
  split; [apply format_line|]. split; [by apply format_first_line|].
  by rewrite format_length.
Qed.

Lemma forward_member_queue L w (p : ptr) (session : ChatSession) :
  p ∈ users_ (room w) →
  heap w !! p = Some session →
  ∃ session' : ChatSession,
    heap (Session.forward L w) !! p = Some session'
    ∧ write_message_ session' = write_message_ session ++ L.
Proof.
  revert w session. induction L as [|l L IH]; intros w session Hp Hs.
  - exists session. by rewrite app_nil_r.
  - change (Session.forward (l :: L) w)
      with (Session.forward L (Session.room_deliver l w)).
    destruct (IH (Session.room_deliver l w) (Session.deliver l session).1)
      as (session' & Hs' & Hq).
    + by destruct (room_deliver_frame l w p) as (-> & _).
    + rewrite room_deliver_heap. cbn [Room.deliver snd].
      rewrite calls_on_once;
        [by rewrite Hs|apply NoDup_elements|by apply elem_of_elements].
    + exists session'. split; [done|]. rewrite Hq.
      destruct (deliver_fields l session) as (_ & _ & -> & _).
      by rewrite <- app_assoc.
Qed.

Lemma getline_app u (rest : string) :
  first_line u = None → Listener.getline (u +:+ nl +:+ rest) = u.
Proof.
  induction u as [|c u IH]; [done|]. rewrite string_app_cons.
  cbn [first_line Listener.getline]. destruct (Ascii.eqb c LF); [done|].
  destruct (first_line u) as [[l r]|]; [done|]. intros _. by rewrite IH.
Qed.

(** What the client writes for the lines typed is what the server's reader
    takes as lines.  If the reader of the session receives, from its start,
    exactly the bytes of these writes, in reads that split or join them in
    any way, and no line is longer than the reader's buffer allows (the
    message, the user name and four more bytes within 1024), it hands each
    "[username] message\n" to the room, in order, and goes on reading with
    an empty buffer; every member of the room then has these lines at the
    end of its queue.  Bytes that arrive in the read that brings the user
    name do not reach that reader: the listener drops them. *)
Theorem typed_messages_reach_room self u msgs chunks w :
  String.index 0 nl u = None →
  Forall (λ msg, String.index 0 nl msg = None
                 ∧ String.length msg + 4 + String.length u ≤ Session.max_size)
    msgs →
  stream chunks = stream (map (Client.format u) msgs) →
  reads_fit EmptyString chunks = true →
  Session.reader_run self (map Session.Data chunks) Session.reader_spawned w
  = Some (Session.Reading EmptyString,
          Session.forward (map (Client.format u) msgs) w)
  ∧ (∀ (p : ptr) (session : ChatSession),
       p ∈ users_ (room w) →
       heap w !! p = Some session →
       ∃ session' : ChatSession,
         heap (Session.forward (map (Client.format u) msgs) w) !! p
         = Some session'
         ∧ write_message_ session'
           = write_message_ session ++ map (Client.format u) msgs)
  ∧ (∀ (sv : Server.t) (bytes : string),
       Server.listening sv = true →
       Server.accept [Session.Data (u +:+ nl +:+ bytes)] sv
       = Some (Server.connect u sv)).
Proof.
  intros Hu Hmsgs Hstream Hfit. split; [|split].
  - apply reader_run_fits; [by apply formats_are_lines|done| |done].
    by rewrite string_app_nil_l.
  - intros p session Hp Hs. by apply forward_member_queue.
  - intros sv bytes Hlistening. unfold Server.accept. rewrite Hlistening.
    apply index_none_first_line in Hu.
    assert (Hline : first_line (u +:+ nl +:+ bytes)
                    = Some (u +:+ nl, bytes)).
    { rewrite <- string_app_assoc. by apply terminated_first_line. }
    rewrite read_handshake_unfold.
    change (String.index 0 nl EmptyString) with (@None nat). cbv iota.
    rewrite string_app_nil_l, read_handshake_unfold, index_first_line, Hline.
    by rewrite getline_app.
Qed.

Lemma typed_messages_reach_room_witness :
  Session.reader_run Scenario.ann
    (map Session.Data ["[ann] h"; "i" +:+ nl +:+ "[ann] there" +:+ nl])
    Session.reader_spawned Scenario.started
  = Some (Session.Reading EmptyString,
          Session.forward (map (Client.format "ann") ["hi"; "there"])
            Scenario.started).
Proof.
  refine (proj1 (typed_messages_reach_room Scenario.ann "ann" ["hi"; "there"]
                   ["[ann] h"; "i" +:+ nl +:+ "[ann] there" +:+ nl]
                   Scenario.started _ _ _ _)).
  - reflexivity.
  - repeat constructor; unfold Session.max_size; cbn; lia.
  - reflexivity.
  - vm_compute. reflexivity.
Defined.

End Relay.
